(** * tech-firm-enrichment: detection and classification pipeline

  A shallow embedding of the TypeScript services

    - [CrawlerService.needsBrowser]        (src/crawler/crawler.service.ts)
    - [CrawlerService.normalizeUrl]        (src/crawler/crawler.service.ts)
    - [DetectorService]                    (src/detector/detector.service.ts)
    - [NormalizerService.normalize]        (src/normalizer/normalizer.service.ts)
    - [getTechCategory], CATEGORY_MAPPING  (src/normalizer/taxonomy.ts)
    - [EnrichmentService.enrich]           (src/enrichment/enrichment.service.ts)
    - [EnrichmentController.isValidDomain] (src/enrichment/enrichment.controller.ts)

  together with the properties of the specification that were checked
  against them.

  Modelling conventions.
  - A JavaScript string is a [string]: a sequence of code units, here the
    code units below 256.
  - A JavaScript [number] is an IEEE-754 binary64 value, [spec_float] with
    precision 53 and maximal exponent 1024, rounded to nearest-even.
  - A plain object used as a dictionary ([Record<string, T>]) read with
    [obj[key]] and iterated with [Object.entries] is an association list in
    property order, its keys pairwise different; a read finds the own
    property of that name, a write to a new name appends it.  Where the
    detector reads the fingerprint store by name ([technologies[name]],
    [categories[catId]]) a name that is not an own property is looked up in
    [Object.prototype], as [obj[key]] does.  Elsewhere (the headers, meta
    tags and cookie patterns, where the member found is a function that would
    be turned into the engine's text for it, and the objects that
    [normalize] fills, where it makes the method throw) the names that a
    plain object inherits are outside the domain of the model, and so are
    names that are canonical array indices (which JavaScript enumerates
    first).
  - [Map<string, V>] is an association list in insertion order.
  - Built-ins whose behaviour is not written in this repository (the RegExp
    constructor applied to a pattern read from the fingerprint file,
    [String.prototype.toLowerCase], [parseInt], [JSON.parse]) are the fields
    of the class [Runtime]; an exception thrown by one of them is [None].
  - The regular expressions written in the services are embedded directly:
    the unanchored patterns of [needsBrowser] by a backtracking matcher, the
    anchored literal patterns of [normalizeUrl] as tests of a prefix or of
    the last character, the domain pattern of the controller, anchored at
    both ends, as a regular language decided by derivatives.
  - What [enrich] awaits from outside (the crawl, the firmographics, the
    clock) is an argument of its model. *)

From Stdlib Require Import ZArith QArith Qround Ascii String SpecFloat.
From stdpp Require Import base tactics option list strings gmap sorting.

Local Open Scope string_scope.

(** ** JavaScript values and built-ins *)

Module Js.

(** [number]: IEEE-754 binary64. *)
Definition number : Type := spec_float.
Definition prec : Z := 53.
Definition emax : Z := 1024.

Definition ofZ (z : Z) : number := binary_normalize prec emax z 0 false.
Definition add (a b : number) : number := SFadd prec emax a b.
Definition div (a b : number) : number := SFdiv prec emax a b.

(** The value of a finite number, as a rational. *)
Definition toQ (x : number) : Q :=
  match x with
  | S754_finite s m e =>
      let q := if (0 <=? e)%Z then inject_Z (Z.pos m * 2 ^ e)
               else Qmake (Z.pos m) (Pos.pow 2 (Z.to_pos (- e))) in
      if s then Qopp q else q
  | _ => 0%Q
  end.

(** [Record<string, T>]: own properties in property order. *)
Definition Obj (T : Type) : Type := list (string * T).

Fixpoint get {T} (o : Obj T) (key : string) : option T :=
  match o with
  | [] => None
  | (k, v) :: rest => if String.eqb k key then Some v else get rest key
  end.

Definition keys {T} (o : Obj T) : list string := map fst o.

(** [Map<string, V>]: entries in insertion order. *)
Definition Map (V : Type) : Type := list (string * V).

Definition has {V} (m : Map V) (key : string) : bool :=
  match get m key with Some _ => true | None => false end.

(** [m.set(key, v)]: an existing key keeps its position. *)
Fixpoint set {V} (m : Map V) (key : string) (v : V) : Map V :=
  match m with
  | [] => [(key, v)]
  | (k, w) :: rest =>
      if String.eqb k key then (k, v) :: rest else (k, w) :: set rest key v
  end.

Definition values {V} (m : Map V) : list V := map snd m.

(** Truthiness of a string: every string but the empty one. *)
Definition truthy (s : string) : bool := negb (String.eqb s "").

(** [s.split(sep)] for a one-character separator. *)
Fixpoint split (sep : ascii) (s : string) : list string :=
  match s with
  | EmptyString => [EmptyString]
  | String c rest =>
      if Ascii.eqb c sep then EmptyString :: split sep rest
      else match split sep rest with
           | [] => [String c EmptyString]
           | p :: ps => String c p :: ps
           end
  end.

(** [parts.join(sep)]. *)
Fixpoint join (sep : string) (parts : list string) : string :=
  match parts with
  | [] => EmptyString
  | [p] => p
  | p :: ps => p ++ sep ++ join sep ps
  end.

(** The properties that every plain object inherits from
    [Object.prototype], each with the [name] of the value read there: the
    functions carry their names, the prototype object that [__proto__] gives
    has none.  An own property of the same name hides the inherited one. *)
Definition Object_prototype : Obj (option string) :=
  [ ("constructor", Some "Object");
    ("__defineGetter__", Some "__defineGetter__");
    ("__defineSetter__", Some "__defineSetter__");
    ("hasOwnProperty", Some "hasOwnProperty");
    ("__lookupGetter__", Some "__lookupGetter__");
    ("__lookupSetter__", Some "__lookupSetter__");
    ("isPrototypeOf", Some "isPrototypeOf");
    ("propertyIsEnumerable", Some "propertyIsEnumerable");
    ("toString", Some "toString");
    ("valueOf", Some "valueOf");
    ("__proto__", None);
    ("toLocaleString", Some "toLocaleString") ].

(** Parsed JSON documents. *)
#[warnings="-register-all"]
Inductive json : Type :=
| JNull
| JBool (b : bool)
| JNum (n : number)
| JStr (s : string)
| JArr (items : list json)
| JObj (fields : list (string * json)).

(** Built-ins that the services call and this repository does not define. *)
Class Runtime : Type := {
  (** [new RegExp(pattern, 'i').test(value)]; [None] when it throws. *)
  regexTest : string -> string -> option bool;
  (** [s.toLowerCase()]. *)
  toLowerCase : string -> string;
  (** [parseInt(s)]. *)
  parseInt : string -> number;
  (** [JSON.parse(text)]; [None] when it throws a SyntaxError. *)
  JSON_parse : string -> option json
}.

(** The empty pattern compiles to the empty regular expression, which
    matches at position 0 of every string. *)
Class RegExpEmpty (R : Runtime) : Prop :=
  regexTest_empty : forall value, regexTest "" value = Some true.

End Js.

Import Js.

(** ** Regular expressions written as literals in the source

    The crawler's patterns are literals of a small fragment: sequences of
    characters and character classes, the quantifiers [*] and [*?] applied to
    a class, one capture group, all under flag [i].  [run] is a backtracking
    matcher in continuation-passing style: it explores the alternatives in
    the priority order of the ECMAScript matcher, so that the first success
    is the match the engine reports. *)

Module Regex.

(** Character classes. *)
Inductive cset : Type :=
| Chr (c : ascii)              (* a literal character *)
| Space                        (* \s *)
| Dot                          (* .  (no flag s) *)
| Not (s : cset)               (* [^...], \S *)
| Union (s1 s2 : cset).        (* [...] *)

Inductive regex : Type :=
| Eps
| Char (s : cset)
| Seq (r1 r2 : regex)
| Star (s : cset)              (* s*  *)
| StarLazy (s : cset)          (* s*? *)
| Group (n : nat) (r : regex). (* the n-th capture group *)

(** WhiteSpace and LineTerminator code units below 256: TAB, LF, VT, FF, CR,
    SP and NBSP.  This is the class [\s] and what [trim] removes. *)
Definition isWhiteSpace (c : ascii) : bool :=
  let n := nat_of_ascii c in
  (Nat.leb 9 n && Nat.leb n 13) || Nat.eqb n 32 || Nat.eqb n 160.

Definition isLineTerminator (c : ascii) : bool :=
  let n := nat_of_ascii c in Nat.eqb n 10 || Nat.eqb n 13.

(** Canonicalize under flag [i].  The literals of the patterns below are
    ASCII, and no code unit above 127 canonicalizes to an ASCII one, so that
    folding [a-z] to [A-Z] decides every comparison against them. *)
Definition canonicalize (c : ascii) : ascii :=
  let n := nat_of_ascii c in
  if Nat.leb 97 n && Nat.leb n 122 then ascii_of_nat (n - 32) else c.

Fixpoint accepts (s : cset) (c : ascii) : bool :=
  match s with
  | Chr a => Ascii.eqb (canonicalize a) (canonicalize c)
  | Space => isWhiteSpace c
  | Dot => negb (isLineTerminator c)
  | Not s' => negb (accepts s' c)
  | Union s1 s2 => accepts s1 c || accepts s2 c
  end.

(** [s*]: as many characters as possible first. *)
Fixpoint starGreedy {A} (p : ascii -> bool) (input : string)
    (k : string -> option A) : option A :=
  match input with
  | String c rest =>
      if p c then match starGreedy p rest k with
                  | Some a => Some a
                  | None => k input
                  end
      else k input
  | EmptyString => k input
  end.

(** [s*?]: as few characters as possible first. *)
Fixpoint starLazy {A} (p : ascii -> bool) (input : string)
    (k : string -> option A) : option A :=
  match k input with
  | Some a => Some a
  | None => match input with
            | String c rest => if p c then starLazy p rest k else None
            | EmptyString => None
            end
  end.

Fixpoint take (n : nat) (s : string) : string :=
  match n, s with
  | S n', String c rest => String c (take n' rest)
  | _, _ => EmptyString
  end.

(** The text between position [input] and the later position [rest]. *)
Definition consumed (input rest : string) : string :=
  take (String.length input - String.length rest) input.

Definition captures : Type := list (nat * string).

(** [run r input caps k]: match [r] at the start of [input], then continue
    with [k] on what is left; [None] when every alternative fails. *)
Fixpoint run {A} (r : regex) (input : string) (caps : captures)
    (k : string -> captures -> option A) : option A :=
  match r with
  | Eps => k input caps
  | Char s =>
      match input with
      | String c rest => if accepts s c then k rest caps else None
      | EmptyString => None
      end
  | Seq r1 r2 => run r1 input caps (fun rest caps' => run r2 rest caps' k)
  | Star s => starGreedy (accepts s) input (fun rest => k rest caps)
  | StarLazy s => starLazy (accepts s) input (fun rest => k rest caps)
  | Group n r' =>
      run r' input caps
        (fun rest caps' => k rest ((n, consumed input rest) :: caps'))
  end.

(** An unanchored pattern is tried at every position, leftmost first. *)
Fixpoint search {A} (r : regex) (input : string)
    (k : string -> captures -> option A) : option A :=
  match run r input [] k with
  | Some a => Some a
  | None => match input with
            | String _ rest => search r rest k
            | EmptyString => None
            end
  end.

(** [r.test(input)]. *)
Definition test (r : regex) (input : string) : bool :=
  match search r input (fun _ _ => Some tt) with
  | Some _ => true
  | None => false
  end.

(** [input.match(r)] for a pattern without flag [g]: the captures of the
    first match, [None] for [null]. *)
Definition exec (r : regex) (input : string) : option captures :=
  search r input (fun _ caps => Some caps).

Fixpoint group (caps : captures) (n : nat) : option string :=
  match caps with
  | [] => None
  | (m, s) :: rest => if Nat.eqb m n then Some s else group rest n
  end.

(** [input.replace(r, by)] for a pattern with flag [g] that matches no empty
    string: every match, found from left to right after the end of the one
    before, is replaced.  [skip] counts the characters of the current match
    still to drop. *)
Fixpoint replaceFrom (r : regex) (by_ : string) (input : string) (skip : nat)
    : string :=
  match input with
  | EmptyString => EmptyString
  | String c rest =>
      match skip with
      | S skip' => replaceFrom r by_ rest skip'
      | O =>
          match run r input []
                  (fun rest' _ =>
                     Some (String.length input - String.length rest')) with
          | Some (S n) => by_ ++ replaceFrom r by_ rest n
          | _ => String c (replaceFrom r by_ rest 0)
          end
      end
  end.

Definition replaceAll (r : regex) (by_ : string) (input : string) : string :=
  replaceFrom r by_ input 0.

(** A literal run of characters. *)
Fixpoint lit (s : string) : regex :=
  match s with
  | EmptyString => Eps
  | String c rest => Seq (Char (Chr c)) (lit rest)
  end.

Fixpoint seq (rs : list regex) : regex :=
  match rs with
  | [] => Eps
  | r :: rest => Seq r (seq rest)
  end.

(** [s.trim()]. *)
Fixpoint trimStart (s : string) : string :=
  match s with
  | String c rest => if isWhiteSpace c then trimStart rest else s
  | EmptyString => EmptyString
  end.

Fixpoint trimEnd (s : string) : string :=
  match s with
  | EmptyString => EmptyString
  | String c rest =>
      match trimEnd rest with
      | EmptyString =>
          if isWhiteSpace c then EmptyString else String c EmptyString
      | rest' => String c rest'
      end
  end.

Definition trim (s : string) : string := trimEnd (trimStart s).

End Regex.

(** ** Crawler: the escalation decision *)

Module Crawler.

Import Regex.

(** crawl-result.interface.ts *)
Record CrawlResult : Type := {
  url : string;
  finalUrl : string;
  statusCode : number;
  headers : Obj string;
  html : string;
  scripts : list string;
  meta : Obj string;
  cookies : list string;
  tier : number;
  timeTakenMs : number
}.

(** The classes of the two quote characters, [^>] and [\s\S]. *)
Definition quote : cset := Union (Chr "034") (Chr "'").
Definition notGt : cset := Not (Chr ">").
Definition anyChar : cset := Union Space (Not Space).

(** /<div[^>]*id=QNAMEQ[^>]*>\s*<\/div>/i, where Q is the class of the
    double and the single quote and NAME the mount-point id. *)
Definition emptyContainer (id : string) : regex :=
  seq [lit "<div"; Star notGt; lit "id="; Char quote; lit id; Char quote;
       Star notGt; lit ">"; Star Space; lit "</div>"].

(** /<noscript[^>]*>.*?TEXT/i *)
Definition noscriptWarning (text : string) : regex :=
  seq [lit "<noscript"; Star notGt; lit ">"; StarLazy Dot; lit text].

Definition spaSignals : list regex :=
  [ emptyContainer "root";
    emptyContainer "app";
    emptyContainer "__next";
    noscriptWarning "enable javascript";
    noscriptWarning "javascript is required" ].

(** /<body[^>]*>([\s\S]*?)<\/body>/i *)
Definition bodyPattern : regex :=
  seq [lit "<body"; Star notGt; lit ">"; Group 1 (StarLazy anyChar);
       lit "</body>"].

(** /<script[\s\S]*?<\/script>/gi *)
Definition scriptPattern : regex :=
  seq [lit "<script"; StarLazy anyChar; lit "</script>"].

(** [bodyMatch[1]] when the body pattern matches. *)
Definition bodyMatch (html : string) : option string :=
  match exec bodyPattern html with
  | Some caps => group caps 1
  | None => None
  end.

Definition needsBrowser (html : string) : bool :=
  if existsb (fun pattern => test pattern html) spaSignals then true
  else
    match bodyMatch html with
    | Some inner =>
        let bodyContent := trim (replaceAll scriptPattern "" inner) in
        if Nat.ltb (String.length bodyContent) 200 then true else false
    | None => false
    end.

(** *** The address that is fetched *)

(** The rest of [s] after the literal [prefix], when [s] starts with it. *)
Fixpoint dropPrefix (prefix s : string) : option string :=
  match prefix, s with
  | EmptyString, _ => Some s
  | String a prefix', String b s' =>
      if Ascii.eqb a b then dropPrefix prefix' s' else None
  | String _ _, EmptyString => None
  end.

(** [url.replace(/^https?:\/\//, '')].  The pattern is anchored at the start
    and has no flag: it takes [http], then [s] when there is one, then the
    colon and the two slashes. *)
Definition withoutProtocol (url : string) : string :=
  match dropPrefix "http" url with
  | Some rest =>
      let afterS :=
        match dropPrefix "s" rest with
        | Some rest' => dropPrefix "://" rest'
        | None => None
        end in
      match afterS with
      | Some host => host
      | None =>
          match dropPrefix "://" rest with
          | Some host => host
          | None => url
          end
      end
  | None => url
  end.

(** [url.replace(/\/$/, '')]: without flag [m] the end is the end of the
    string, so the one slash that can go is the last character. *)
Fixpoint withoutTrailingSlash (url : string) : string :=
  match url with
  | EmptyString => EmptyString
  | String c rest =>
      match rest with
      | EmptyString => if Ascii.eqb c "/" then EmptyString else url
      | String _ _ => String c (withoutTrailingSlash rest)
      end
  end.

(** [url.replace(/^www\./, '')] *)
Definition withoutWww (url : string) : string :=
  match dropPrefix "www." url with
  | Some rest => rest
  | None => url
  end.

Section Address.

Context {R : Runtime}.

Definition normalizeUrl (domain : string) : string :=
  let url := toLowerCase (trim domain) in
  let url := withoutProtocol url in
  let url := withoutTrailingSlash url in
  let url := withoutWww url in
  "https://" ++ url.

End Address.

End Crawler.

(** ** Detector: interfaces *)

Module Detector.

(** [string | string[]]. *)
Inductive StrOrArr : Type :=
| One (s : string)
| Many (l : list string).

(** [string | string[] | Record<string, string>]. *)
Inductive Patterns : Type :=
| PString (s : string)
| PArray (l : list string)
| PRecord (o : Obj string).

(** wappalyzer.interface.ts; the fields the detector never reads
    ([description], [icon], [url], [website], [dom], [cpe]) are left out. *)
Record WappalyzerTechnology : Type := {
  cats : option (list string);
  implies : option StrOrArr;
  headers : option (Obj string);
  meta : option (Obj StrOrArr);
  html : option Patterns;
  scripts : option Patterns;
  cookies : option (Obj string)
}.

Record WappalyzerCategory : Type := {
  cat_name : string;
  priority : option number
}.

Record WappalyzerDatabase : Type := {
  categories : Obj WappalyzerCategory;
  technologies : Obj WappalyzerTechnology
}.

(** detection.interface.ts *)
Inductive Source : Type :=
| Header | Html | Script | Meta | Cookie | JsSource | Implied.

Record Detection : Type := {
  name : string;
  category : string;
  categoryId : number;
  version : option string;
  confidence : number;
  source : Source;
  pattern : option string
}.

#[global] Instance Source_eq_dec : EqDecision Source.
Proof. solve_decision. Defined.

(** The literal [1]. *)
Definition one : number := ofZ 1.

(** What a [throw] carries out of [loadFingerprints]. *)
Inductive Thrown : Type :=
| ReadError       (* fs.readFileSync failed *)
| SyntaxError     (* JSON.parse rejected the text *)
| TypeError.      (* a property of null or undefined was read *)

(** [v[key]] on a parsed document: reading a property of [null] throws, a
    value that is not an object has no such property. *)
Definition member (v : json) (key : string) : Thrown + option json :=
  match v with
  | JNull => inl TypeError
  | JObj fields => inr (get fields key)
  | _ => inr None
  end.

(** [Object.keys(v).length]; [v] is [None] for [undefined]. *)
Definition Object_keys_length (v : option json) : Thrown + nat :=
  match v with
  | None | Some JNull => inl TypeError
  | Some (JObj fields) => inr (length fields)
  | Some (JArr items) => inr (length items)
  | Some (JStr s) => inr (String.length s)
  | Some (JBool _) | Some (JNum _) => inr 0
  end.

Section Service.

Context {R : Runtime}.

(** [loadFingerprints]: [fileContent] is what [fs.readFileSync] returns,
    [None] when it throws.  The result is the value stored in
    [this.database], or what the method rethrows. *)
Definition loadFingerprints (fileContent : option string) : Thrown + json :=
  match fileContent with
  | None => inl ReadError
  | Some text =>
      match JSON_parse text with
      | None => inl SyntaxError
      | Some database =>
          match member database "technologies" with
          | inl e => inl e
          | inr technologies =>
              match Object_keys_length technologies with
              | inl e => inl e
              | inr _ => inr database
              end
          end
      end
  end.

(** [try { if (new RegExp(pattern, 'i').test(value)) return true; }
     catch (e) { }] *)
Definition tryTest (pattern value : string) : bool :=
  match regexTest pattern value with
  | Some true => true
  | _ => false
  end.

Definition matchHeaders (patterns : Obj string) (headers : Obj string) : bool :=
  existsb
    (fun '(key, pattern) =>
       match get headers (toLowerCase key) with
       | Some headerValue => truthy headerValue && tryTest pattern headerValue
       | None => false
       end)
    patterns.

Definition matchCookies (patterns : Obj string) (cookies : list string) : bool :=
  existsb
    (fun cookieStr =>
       let parts := split "=" cookieStr in
       let key := hd EmptyString parts in
       let value := join "=" (tl parts) in
       match get patterns key with
       | Some pattern =>
           if String.eqb pattern "" then true
           else tryTest pattern (if truthy value then value else "")
       | None => false
       end)
    cookies.

(** [Array.isArray(patterns) ? patterns :
     (typeof patterns === 'string' ? [patterns] : [])] *)
Definition patternArray (patterns : Patterns) : list string :=
  match patterns with
  | PArray l => l
  | PString s => [s]
  | PRecord _ => []
  end.

Definition matchScripts (patterns : Patterns) (scripts : list string) : bool :=
  existsb
    (fun pattern => existsb (fun script => tryTest pattern script) scripts)
    (patternArray patterns).

Definition matchHtml (patterns : Patterns) (html : string) : bool :=
  existsb (fun pattern => tryTest pattern html) (patternArray patterns).

Definition matchMeta (patterns : Obj StrOrArr) (meta : Obj string) : bool :=
  existsb
    (fun '(key, pattern) =>
       match get meta (toLowerCase key) with
       | Some metaValue =>
           truthy metaValue &&
           let patList := match pattern with Many l => l | One p => [p] end in
           existsb (fun p => tryTest p metaValue) patList
       | None => false
       end)
    patterns.

(** Truthiness of an optional field: an object or an array is truthy, a
    string is truthy unless empty, [undefined] is falsy. *)
Definition truthyPatterns (p : option Patterns) : option Patterns :=
  match p with
  | Some (PString s) => if truthy s then p else None
  | _ => p
  end.

Definition truthyStrOrArr (p : option StrOrArr) : option StrOrArr :=
  match p with
  | Some (One s) => if truthy s then p else None
  | _ => p
  end.

(** A member of [Object.prototype] read where a rule is expected: a
    function, or the prototype itself, on which [cats], [implies] and the
    evidence fields are all [undefined]. *)
Definition inheritedRule : WappalyzerTechnology :=
  {| cats := None; implies := None; headers := None; meta := None;
     html := None; scripts := None; cookies := None |}.

Variable database : WappalyzerDatabase.

(** [this.database.technologies[key]]: the rule that the store lists under
    [key], else the member that the object inherits under that name; [None]
    for [undefined]. *)
Definition technologyOf (key : string) : option WappalyzerTechnology :=
  match get (technologies database) key with
  | Some tech => Some tech
  | None =>
      match get Object_prototype key with
      | Some _ => Some inheritedRule
      | None => None
      end
  end.

(** [this.database.categories[catId]?.name]: the name of the category that
    the store lists under [catId], else the [name] of the member that the
    object inherits under [catId]; [None] for [undefined]. *)
Definition categoryNameAt (catId : string) : option string :=
  match get (categories database) catId with
  | Some c => Some (cat_name c)
  | None =>
      match get Object_prototype catId with
      | Some inheritedName => inheritedName
      | None => None
      end
  end.

Definition addDetection (detections : Map Detection) (name : string)
    (tech : WappalyzerTechnology) (confidence : number) (source : Source)
    : Map Detection :=
  if has detections name then detections
  else
    let catId :=
      match cats tech with
      | Some (c :: _) => if truthy c then c else "1"
      | _ => "1"
      end in
    let categoryName :=
      match categoryNameAt catId with
      | Some categoryName =>
          if truthy categoryName then categoryName else "Miscellaneous"
      | None => "Miscellaneous"
      end in
    set detections name
      {| name := name;
         category := categoryName;
         categoryId := parseInt catId;
         version := None;
         confidence := confidence;
         source := source;
         pattern := None |}.

(** One turn of the loop of [detect] over [Object.entries(technologies)]. *)
Definition detectTech (crawlResult : Crawler.CrawlResult)
    (detections : Map Detection) (entry : string * WappalyzerTechnology)
    : Map Detection :=
  let '(techName, tech) := entry in
  if match headers tech with
     | Some patterns => matchHeaders patterns (Crawler.headers crawlResult)
     | None => false
     end
  then addDetection detections techName tech one Header
  else if match cookies tech with
          | Some patterns => matchCookies patterns (Crawler.cookies crawlResult)
          | None => false
          end
  then addDetection detections techName tech one Cookie
  else if match truthyPatterns (scripts tech) with
          | Some patterns => matchScripts patterns (Crawler.scripts crawlResult)
          | None => false
          end
  then addDetection detections techName tech one Script
  else if match truthyPatterns (html tech) with
          | Some patterns => matchHtml patterns (Crawler.html crawlResult)
          | None => false
          end
  then addDetection detections techName tech one Html
  else if match meta tech with
          | Some patterns => matchMeta patterns (Crawler.meta crawlResult)
          | None => false
          end
  then addDetection detections techName tech one Meta
  else detections.

(** The innermost block of [processImplications]; the state is the map and
    the flag [changed]. *)
Definition implyName (st : Map Detection * bool) (impliedName : string)
    : Map Detection * bool :=
  let '(detections, changed) := st in
  if has detections impliedName then st
  else
    match technologyOf impliedName with
    | Some impliedTech =>
        (addDetection detections impliedName impliedTech one Implied, true)
    | None => st
    end.

(** The body of the [for] over the detections. *)
Definition implyDet (st : Map Detection * bool) (det : Detection)
    : Map Detection * bool :=
  match technologyOf (name det) with
  | Some tech =>
      match truthyStrOrArr (implies tech) with
      | Some (Many l) => fold_left implyName l st
      | Some (One s) => fold_left implyName [s] st
      | None => st
      end
  | None => st
  end.

(** One turn of the [while]: [changed = false], then the [for] over
    [Array.from(detections.values())], a copy taken before the turn. *)
Definition scan (detections : Map Detection) : Map Detection * bool :=
  fold_left implyDet (values detections) (detections, false).

(** The [while (changed)] loop, [fuel] turns at most; [None] when the fuel
    runs out before a turn leaves [changed] false. *)
Fixpoint processLoop (fuel : nat) (detections : Map Detection)
    : option (Map Detection) :=
  match fuel with
  | O => None
  | S fuel' =>
      let '(detections', changed) := scan detections in
      if changed then processLoop fuel' detections' else Some detections'
  end.

(** One turn more than there are technologies always suffices
    ([processLoop_enough] below), which makes the loop a total function. *)
Definition processImplications (detections : Map Detection) : Map Detection :=
  match processLoop (S (length (technologies database))) detections with
  | Some detections' => detections'
  | None => detections
  end.

(** The loop of [detect] before the implications. *)
Definition matchAll (crawlResult : Crawler.CrawlResult) : Map Detection :=
  fold_left (detectTech crawlResult) (technologies database) [].

Definition detect (crawlResult : Crawler.CrawlResult) : list Detection :=
  values (processImplications (matchAll crawlResult)).

End Service.

End Detector.

(** ** Normalizer *)

Module Normalizer.

Import Regex.
Import Detector.

(** taxonomy.ts *)
Definition CATEGORY_MAPPING : Obj (list string) :=
  [ ("analytics",
       ["Google Analytics"; "Mixpanel"; "Segment"; "Amplitude"; "Heap";
        "Hotjar"; "Facebook Pixel"; "LinkedIn Insight Tag"; "Twitter Pixel";
        "TikTok Pixel"]);
    ("cms",
       ["WordPress"; "Wix"; "Squarespace"; "Webflow"; "Drupal"; "Joomla";
        "Ghost"]);
    ("ecommerce",
       ["Shopify"; "WooCommerce"; "Magento"; "BigCommerce"; "PrestaShop"]);
    ("framework",
       ["React"; "Vue.js"; "Angular"; "Next.js"; "Nuxt.js"; "Gatsby";
        "Svelte"; "Astro"; "Remix"; "jQuery"]);
    ("css_framework",
       ["Bootstrap"; "Tailwind CSS"; "Material-UI"; "Bulma"]);
    ("backend",
       ["Node.js"; "PHP"; "Ruby on Rails"; "Laravel"; "Django"; "ASP.NET"]);
    ("server",
       ["Nginx"; "Apache"]);
    ("cdn",
       ["Cloudflare"; "Cloudinary"; "Imgix"; "Amazon Web Services"]);
    ("hosting",
       ["Vercel"; "Netlify"; "Amazon Web Services"; "Google Cloud"; "Azure"]);
    ("marketing",
       ["HubSpot"; "Mailchimp"; "Klaviyo"; "Marketo"; "ActiveCampaign"]);
    ("crm",
       ["Salesforce"; "HubSpot"; "Pipedrive"; "Zoho CRM"]);
    ("chat",
       ["Intercom"; "Zendesk"; "Drift"; "Crisp"; "Tawk.to"]);
    ("payment",
       ["Stripe"; "PayPal"; "Square"; "Braintree"]);
    ("tag_manager",
       ["Google Tag Manager"]);
    ("ab_testing",
       ["Optimizely"; "VWO"; "Google Optimize"]);
    ("monitoring",
       ["Sentry"; "Datadog"; "New Relic"; "LogRocket"]);
    ("security",
       ["reCAPTCHA"; "hCaptcha"; "Cloudflare"]);
    ("database",
       ["Firebase"; "Supabase"; "MongoDB"; "PostgreSQL"]);
    ("search",
       ["Algolia"; "Elasticsearch"]);
    ("maps",
       ["Google Maps"; "Mapbox"]);
    ("video",
       ["YouTube"; "Vimeo"; "Wistia"]);
    ("fonts",
       ["Google Fonts"; "Font Awesome"; "Adobe Fonts"]);
    ("advertising",
       ["Google Ads"; "Facebook Pixel"; "LinkedIn Insight Tag";
        "Twitter Pixel"; "TikTok Pixel"]);
    ("forms",
       ["Typeform"; "Calendly"; "JotForm"]) ].

Definition includes (l : list string) (x : string) : bool :=
  existsb (String.eqb x) l.

(** The first category, in the order of the table, that lists the name;
    [None] for [null]. *)
Definition getTechCategory (techName : string) : option string :=
  match find (fun '(_, techs) => includes techs techName) CATEGORY_MAPPING with
  | Some (category, _) => Some category
  | None => None
  end.

Definition CATEGORY_DISPLAY_NAMES : Obj string :=
  [ ("analytics", "Analytics");
    ("cms", "CMS");
    ("ecommerce", "E-commerce");
    ("framework", "JavaScript Framework");
    ("css_framework", "CSS Framework");
    ("backend", "Backend");
    ("server", "Web Server");
    ("cdn", "CDN");
    ("hosting", "Hosting");
    ("marketing", "Marketing Automation");
    ("crm", "CRM");
    ("chat", "Live Chat");
    ("payment", "Payment");
    ("tag_manager", "Tag Manager");
    ("ab_testing", "A/B Testing");
    ("monitoring", "Monitoring");
    ("security", "Security");
    ("database", "Database");
    ("search", "Search");
    ("maps", "Maps");
    ("video", "Video");
    ("fonts", "Fonts");
    ("advertising", "Advertising");
    ("forms", "Forms") ].

Definition getCategoryDisplayName (category : string) : string :=
  match get CATEGORY_DISPLAY_NAMES category with
  | Some display => if truthy display then display else category
  | None => category
  end.

(** normalizer.service.ts *)
Record NormalizedResult : Type := {
  technologies : Obj (list string);
  confidence : Obj number;
  (** [detections.length] *)
  rawCount : nat
}.

(** /\s+/g *)
Definition whitespaceRun : regex := Seq (Char Space) (Star Space).

(** [o[key].push(x)] *)
Definition push {T} (o : Obj (list T)) (key : string) (x : T) : Obj (list T) :=
  match get o key with
  | Some l => set o key (l ++ [x])%list
  | None => o
  end.

(** [l.sort()], without a comparator: the arrangement of [l] in the order
    of strings by their code units, which is [String.le].  The algorithm is
    the engine's choice; the arrangement does not depend on it
    ([sort_unique] below). *)
Definition sort (l : list string) : list string := merge_sort String.le l.

(** [scores.reduce((a, b) => a + b, 0) / scores.length] *)
Definition average (scores : list number) : number :=
  div (fold_left add scores (ofZ 0)) (ofZ (Z.of_nat (length scores))).

(** The integer [n] of [Number.prototype.toFixed] with two digits, for the
    magnitude [m * 2^e]: [n / 100] is as close to the magnitude as possible,
    and of two such [n] the larger. *)
Definition hundredths (m : positive) (e : Z) : Z :=
  if (0 <=? e)%Z then 100 * (Z.pos m * 2 ^ e)
  else (200 * Z.pos m + 2 ^ (- e)) / 2 ^ (1 - e).

(** [Number(x.toFixed(2))].  The digits of [toFixed] are those of
    [hundredths], with the sign of [x] in front; [Number] reads them back to
    the nearest number, which is the correctly rounded quotient of [n] by
    100 as long as [n] is below 2^53.  Numbers with no fractional bit, and
    the larger ones whose spacing exceeds 1/100, are read back unchanged, as
    are NaN and the infinities; [-0] prints as [0.00]. *)
Definition toFixed2 (x : number) : number :=
  match x with
  | S754_finite s m e =>
      let n := hundredths m e in
      if (0 <=? e)%Z || (2 ^ 53 <=? n)%Z then x
      else
        let y := div (ofZ n) (ofZ 100) in
        if s then SFopp y else y
  | S754_zero _ => S754_zero false
  | _ => x
  end.

Section Service.

Context {R : Runtime}.

(** [category.toLowerCase().replace(/\s+/g, '_')] *)
Definition slug (category : string) : string :=
  replaceAll whitespaceRun "_" (toLowerCase category).

(** The category under which a detection is filed. *)
Definition categoryOf (detection : Detection) : string :=
  match getTechCategory (name detection) with
  | Some mapped =>
      if truthy mapped then mapped else slug (category detection)
  | None => slug (category detection)
  end.

(** The body of the first loop of [normalize]; the state is
    [technologies] and [categoryConfidences]. *)
Definition collect (st : Obj (list string) * Obj (list number))
    (detection : Detection) : Obj (list string) * Obj (list number) :=
  let '(technologies, categoryConfidences) := st in
  let category := categoryOf detection in
  let '(technologies, categoryConfidences) :=
    match get technologies category with
    | Some _ => (technologies, categoryConfidences)
    | None => (set technologies category [], set categoryConfidences category [])
    end in
  match get technologies category with
  | Some listed =>
      if includes listed (name detection)
      then (technologies, categoryConfidences)
      else (push technologies category (name detection),
            push categoryConfidences category (Detector.confidence detection))
  | None => (technologies, categoryConfidences)
  end.

Definition normalize (detections : list Detection) : NormalizedResult :=
  let '(technologies, categoryConfidences) :=
    fold_left collect detections ([], []) in
  {| technologies := map (fun '(category, names) => (category, sort names)) technologies;
     confidence :=
       map (fun '(category, scores) => (category, toFixed2 (average scores)))
           categoryConfidences;
     rawCount := length detections |}.

End Service.

End Normalizer.

(** ** Enrichment: the response *)

Module Enrichment.

Import Detector.

(** firmographics.interface.ts *)
Record Location : Type := {
  country : option string;
  city : option string;
  timezone : option string
}.

Record Firmographics : Type := {
  name : option string;
  location : option Location;
  industry : option string;
  description : option string
}.

(** The object that [enrich] returns. *)
Record ResponseMeta : Type := {
  totalTechnologies : nat;
  tier : number;
  timeTakenMs : number
}.

Record EnrichResponseDto : Type := {
  domain : string;
  firmographics : Firmographics;
  technologies : Obj (list string);
  confidence : Obj number;
  detectedAt : number;
  meta : ResponseMeta
}.

Definition sub (a b : number) : number := SFsub prec emax a b.

Section Service.

Context {R : Runtime}.

Variable database : WappalyzerDatabase.

(** [enrich], from the point where the crawl has returned [crawlResult].
    [firmographicsData] is what [FirmographicsService.infer] resolves to;
    [startTime], [endTime] and [now] are the readings of the clock. *)
Definition enrich (domain : string) (crawlResult : Crawler.CrawlResult)
    (firmographicsData : Firmographics) (startTime endTime now : number)
    : EnrichResponseDto :=
  let rawDetections := detect database crawlResult in
  let normalized := Normalizer.normalize rawDetections in
  let timeTaken := sub endTime startTime in
  {| domain := domain;
     firmographics := firmographicsData;
     technologies := Normalizer.technologies normalized;
     confidence := Normalizer.confidence normalized;
     detectedAt := now;
     meta := {| totalTechnologies := Normalizer.rawCount normalized;
                tier := Crawler.tier crawlResult;
                timeTakenMs := timeTaken |} |}.

End Service.

End Enrichment.

(** ** Controller: the validation of the domain *)

Module Controller.

Import Regex.
Import Crawler.

(** Regular expressions without captures.  The domain pattern is anchored
    at both ends and has no flag, so that [test] asks whether the whole
    string is a string of the pattern; [matchesAll] decides it by
    derivatives. *)
Inductive pattern : Type :=
| Never                          (* no string *)
| Empty                          (* the empty string *)
| Class (p : ascii -> bool)      (* one character of a class *)
| Then (r1 r2 : pattern)         (* r1 r2 *)
| Or (r1 r2 : pattern)           (* r1|r2 *)
| Rep (r : pattern).             (* r* *)

Fixpoint nullable (r : pattern) : bool :=
  match r with
  | Never => false
  | Empty => true
  | Class _ => false
  | Then r1 r2 => nullable r1 && nullable r2
  | Or r1 r2 => nullable r1 || nullable r2
  | Rep _ => true
  end.

(** What is left of the strings of [r] that start with [c]. *)
Fixpoint derive (c : ascii) (r : pattern) : pattern :=
  match r with
  | Never => Never
  | Empty => Never
  | Class p => if p c then Empty else Never
  | Then r1 r2 =>
      if nullable r1 then Or (Then (derive c r1) r2) (derive c r2)
      else Then (derive c r1) r2
  | Or r1 r2 => Or (derive c r1) (derive c r2)
  | Rep r' => Then (derive c r') (Rep r')
  end.

Fixpoint matchesAll (r : pattern) (s : string) : bool :=
  match s with
  | EmptyString => nullable r
  | String c rest => matchesAll (derive c r) rest
  end.

(** [r?], [r{0,n}] and [r+]. *)
Definition optional (r : pattern) : pattern := Or r Empty.

Fixpoint upTo (n : nat) (r : pattern) : pattern :=
  match n with
  | O => Empty
  | S n' => optional (Then r (upTo n' r))
  end.

Definition atLeastOnce (r : pattern) : pattern := Then r (Rep r).

(** The classes [a-zA-Z0-9], [a-zA-Z0-9-] and [a-zA-Z]. *)
Definition between (lo hi c : ascii) : bool :=
  Nat.leb (nat_of_ascii lo) (nat_of_ascii c)
  && Nat.leb (nat_of_ascii c) (nat_of_ascii hi).

Definition alphabetic (c : ascii) : bool :=
  between "a" "z" c || between "A" "Z" c.

Definition alphanumeric (c : ascii) : bool :=
  alphabetic c || between "0" "9" c.

Definition alphanumericOrHyphen (c : ascii) : bool :=
  alphanumeric c || Ascii.eqb c "-".

(** [a-zA-Z0-9](?:[a-zA-Z0-9-]{0,61}[a-zA-Z0-9])? *)
Definition label : pattern :=
  Then (Class alphanumeric)
       (optional (Then (upTo 61 (Class alphanumericOrHyphen))
                       (Class alphanumeric))).

(** /^(?:LABEL\.)+[a-zA-Z]{2,}$/ *)
Definition domainRegex : pattern :=
  Then (atLeastOnce (Then label (Class (Ascii.eqb "."))))
       (Then (Class alphabetic) (Then (Class alphabetic) (Rep (Class alphabetic)))).

(** No line terminator: the characters that [.] takes. *)
Fixpoint oneLine (s : string) : bool :=
  match s with
  | EmptyString => true
  | String c rest => negb (isLineTerminator c) && oneLine rest
  end.

(** [s.replace(/\/.*$/, '')]: the text from the first slash after which the
    string has no line terminator is taken off. *)
Fixpoint withoutPath (s : string) : string :=
  match s with
  | EmptyString => EmptyString
  | String c rest =>
      if Ascii.eqb c "/" && oneLine rest then EmptyString
      else String c (withoutPath rest)
  end.

Definition isValidDomain (domain : string) : bool :=
  let cleaned := withoutPath (withoutProtocol domain) in
  matchesAll domainRegex cleaned.

End Controller.

(** ** A reference runtime

    An instance of [Runtime] on which the definitions can be run.  Its
    [regexTest] reads the pattern as a literal (which is what the RegExp
    constructor does for a pattern without metacharacters) and never throws;
    [toLowerCase] folds the ASCII letters; [parseInt] reads a run of decimal
    digits; [JSON_parse] knows the sample documents used in this file and
    rejects every other text. *)

Module Reference.

Import Regex.

Definition literalTest (pattern value : string) : option bool :=
  Some (test (lit pattern) value).

Definition lowerChar (c : ascii) : ascii :=
  let n := nat_of_ascii c in
  if Nat.leb 65 n && Nat.leb n 90 then ascii_of_nat (n + 32) else c.

Fixpoint asciiLower (s : string) : string :=
  match s with
  | EmptyString => EmptyString
  | String c rest => String (lowerChar c) (asciiLower rest)
  end.

Fixpoint digits (s : string) (acc : option Z) : option Z :=
  match s with
  | String c rest =>
      let n := nat_of_ascii c in
      if Nat.leb 48 n && Nat.leb n 57
      then digits rest
             (Some (10 * default 0%Z acc + Z.of_nat (n - 48))%Z)
      else acc
  | EmptyString => acc
  end.

Definition decimalInt (s : string) : number :=
  match digits s None with
  | Some z => ofZ z
  | None => S754_nan
  end.

(** Sample fingerprint files, as texts and as the documents they denote. *)
Definition dq : string := String "034" EmptyString.

Definition emptyStoreText : string := "{}".
Definition noCategoriesText : string :=
  "{" ++ dq ++ "technologies" ++ dq ++ ":{}}".
Definition nullText : string := "null".

Definition sampleParse (text : string) : option json :=
  if String.eqb text emptyStoreText then Some (JObj [])
  else if String.eqb text noCategoriesText
       then Some (JObj [("technologies", JObj [])])
  else if String.eqb text nullText then Some JNull
  else None.

#[global] Instance runtime : Runtime := {
  regexTest := literalTest;
  toLowerCase := asciiLower;
  parseInt := decimalInt;
  JSON_parse := sampleParse
}.

#[global] Instance runtime_empty : RegExpEmpty runtime.
Proof. intros value. unfold regexTest. simpl. by destruct value. Qed.

End Reference.

(** * Properties *)

Local Open Scope nat_scope.

(** ** Association lists *)

Module JsFacts.

Section Get.

Context {V : Type}.
Implicit Types (m : Obj V) (k : string) (v : V).

Lemma get_app m1 m2 k :
  get (m1 ++ m2)%list k
  = match get m1 k with Some v => Some v | None => get m2 k end.
Proof.
  induction m1 as [|[k' v'] m1 IH]; simpl; [done|].
  destruct (String.eqb k' k); [done|apply IH].
Qed.

Lemma get_set_eq m k v : get (set m k v) k = Some v.
Proof.
  induction m as [|[k' v'] m IH]; simpl.
  - by rewrite String.eqb_refl.
  - destruct (String.eqb k' k) eqn:E; simpl; rewrite E; [done|apply IH].
Qed.

Lemma get_set_ne m k k' v : k ≠ k' → get (set m k v) k' = get m k'.
Proof.
  intros Hne. induction m as [|[k0 v0] m IH]; simpl.
  - destruct (String.eqb k k') eqn:E; [|done].
    apply String.eqb_eq in E. contradiction.
  - destruct (String.eqb k0 k) eqn:E; simpl.
    + apply String.eqb_eq in E. subst k0.
      destruct (String.eqb k k') eqn:E'; [|done].
      apply String.eqb_eq in E'. contradiction.
    + destruct (String.eqb k0 k'); [done|apply IH].
Qed.

Lemma set_fresh m k v : get m k = None → set m k v = (m ++ [(k, v)])%list.
Proof.
  induction m as [|[k' v'] m IH]; simpl; [done|].
  destruct (String.eqb k' k) eqn:E; [done|].
  intros H. by rewrite IH.
Qed.

Lemma get_Some_elem m k v : get m k = Some v → (k, v) ∈ m.
Proof.
  induction m as [|[k' v'] m IH]; simpl; [done|].
  destruct (String.eqb k' k) eqn:E.
  - apply String.eqb_eq in E. intros [= ->]. subst. left.
  - intros H. right. by apply IH.
Qed.

Lemma get_None_keys m k : get m k = None ↔ k ∉ keys m.
Proof.
  induction m as [|[k' v'] m IH]; simpl.
  - split; [intros _; apply not_elem_of_nil|done].
  - rewrite not_elem_of_cons. destruct (String.eqb k' k) eqn:E.
    + apply String.eqb_eq in E. subst. split; [done|]. intros [? _]. done.
    + apply String.eqb_neq in E. rewrite IH. split; [|tauto].
      intros H. split; [congruence|done].
Qed.

Lemma elem_get_NoDup m k v :
  NoDup (keys m) → (k, v) ∈ m → get m k = Some v.
Proof.
  induction m as [|[k' v'] m IH]; simpl.
  - intros _ H. by apply elem_of_nil in H.
  - intros Hnd Hin. apply NoDup_cons in Hnd as [Hk Hnd].
    apply elem_of_cons in Hin as [[= -> ->]|Hin].
    + by rewrite String.eqb_refl.
    + destruct (String.eqb k' k) eqn:E; [|by apply IH].
      apply String.eqb_eq in E. subst k'. exfalso. apply Hk.
      unfold keys. apply list_elem_of_fmap. by exists (k, v).
Qed.

Lemma has_true m k : has m k = true ↔ ∃ v, get m k = Some v.
Proof.
  unfold has. destruct (get m k); split; eauto; try done.
  intros [? ?]. done.
Qed.

Lemma has_false m k : has m k = false ↔ get m k = None.
Proof. unfold has. by destruct (get m k). Qed.

End Get.

End JsFacts.

(** ** Detector *)

Module DetectorFacts.

Import JsFacts.
Import Detector.

Section Additions.

Context {R : Runtime} (db : WappalyzerDatabase).

Implicit Types (detections : Map Detection) (tech : WappalyzerTechnology).

(** The category id and name that [addDetection] resolves for a rule. *)
Definition primaryCat tech : string :=
  match cats tech with
  | Some (c :: _) => if truthy c then c else "1"
  | _ => "1"
  end.

Definition categoryNameOf (catId : string) : string :=
  match categoryNameAt db catId with
  | Some categoryName =>
      if truthy categoryName then categoryName else "Miscellaneous"
  | None => "Miscellaneous"
  end.

(** The detection that [addDetection] stores for a name that is not yet in
    the map. *)
Definition created (n : string) tech (c : number) (s : Source) : Detection :=
  {| name := n;
     category := categoryNameOf (primaryCat tech);
     categoryId := parseInt (primaryCat tech);
     version := None;
     confidence := c;
     source := s;
     pattern := None |}.

Lemma addDetection_present detections n tech c s :
  has detections n = true → addDetection db detections n tech c s = detections.
Proof. unfold addDetection. by intros ->. Qed.

Lemma addDetection_fresh detections n tech c s :
  has detections n = false →
  addDetection db detections n tech c s
  = (detections ++ [(n, created n tech c s)])%list.
Proof.
  unfold addDetection. intros H. rewrite H.
  apply set_fresh. by apply has_false.
Qed.

(** What [addDetection] is given: a rule of the store with its name or, by
    the implication loop only, the member that the store inherits under a
    name that it does not list. *)
Definition inheritedOnly (n : string) tech : Prop :=
  get (technologies db) n = None
  ∧ is_Some (get Object_prototype n)
  ∧ tech = inheritedRule.

Definition known (n : string) tech (s : Source) : Prop :=
  (n, tech) ∈ technologies db ∨ (s = Implied ∧ inheritedOnly n tech).

Lemma technologyOf_known (n : string) tech :
  technologyOf db n = Some tech → known n tech Implied.
Proof.
  unfold technologyOf, known, inheritedOnly.
  destruct (get (technologies db) n) as [t|] eqn:E.
  - intros [= ->]. left. by apply get_Some_elem.
  - destruct (get Object_prototype n) as [m|] eqn:E'; [|done].
    intros [= <-]. right. split; [done|]. split; [done|]. split; [|done].
    by eexists.
Qed.

Lemma technologyOf_own (n : string) tech :
  get (technologies db) n = Some tech → technologyOf db n = Some tech.
Proof. unfold technologyOf. by intros ->. Qed.

(** One addition: a detection for a known rule, under a name that the map
    does not hold yet, with a source allowed by [P]. *)
Inductive adds (P : Source → Prop) : relation (Map Detection) :=
| adds_one detections n tech s :
    has detections n = false →
    known n tech s →
    P s →
    adds P detections (detections ++ [(n, created n tech one s)])%list.

(** Every entry is filed under the name of its detection, and no name is
    filed twice. *)
Definition wellKeyed detections : Prop :=
  NoDup (keys detections) ∧ Forall (λ e, name e.2 = e.1) detections.

Lemma wellKeyed_nil : wellKeyed [].
Proof. split; [apply NoDup_nil_2|apply Forall_nil_2]. Qed.

Lemma adds_wellKeyed P detections detections' :
  adds P detections detections' → wellKeyed detections → wellKeyed detections'.
Proof.
  intros [d n tech s Hfresh _ _] [Hnd Hall]. split.
  - unfold keys. rewrite map_app. simpl. apply NoDup_app. split; [done|].
    split; [|apply NoDup_singleton].
    intros x Hx ->%list_elem_of_singleton.
    apply has_false, get_None_keys in Hfresh. done.
  - apply Forall_app. split; [done|]. by apply Forall_singleton.
Qed.

Lemma adds_get_old P detections detections' n d :
  adds P detections detections' →
  get detections n = Some d → get detections' n = Some d.
Proof. intros [d0 n0 tech s _ _ _] H. by rewrite get_app, H. Qed.

Lemma adds_get_new P detections detections' n d :
  adds P detections detections' →
  get detections' n = Some d →
  get detections n = Some d
  ∨ get detections n = None ∧ P (source d)
    ∧ ∃ tech, known n tech (source d) ∧ d = created n tech one (source d).
Proof.
  intros [d0 n0 tech s Hfresh Hin HP]. rewrite get_app.
  destruct (get d0 n) eqn:E; [by left|]. simpl.
  destruct (String.eqb n0 n) eqn:En; [|done].
  apply String.eqb_eq in En. subst n0. intros [= <-]. right.
  split; [done|]. split; [done|]. by exists tech.
Qed.

Lemma rtc_adds_wellKeyed P detections detections' :
  rtc (adds P) detections detections' →
  wellKeyed detections → wellKeyed detections'.
Proof. induction 1; eauto using adds_wellKeyed. Qed.

Lemma rtc_adds_get_old P detections detections' n d :
  rtc (adds P) detections detections' →
  get detections n = Some d → get detections' n = Some d.
Proof. induction 1; eauto using adds_get_old. Qed.

Lemma rtc_adds_get_new P detections detections' n d :
  rtc (adds P) detections detections' →
  get detections' n = Some d →
  get detections n = Some d
  ∨ get detections n = None ∧ P (source d)
    ∧ ∃ tech, known n tech (source d) ∧ d = created n tech one (source d).
Proof.
  induction 1 as [|x y z Hxy Hyz IH]; [by left|].
  intros Hz. destruct (IH Hz) as [Hy|(Hy & HP & Ht)].
  - by apply (adds_get_new _ _ _ _ _ Hxy).
  - right. split; [|done].
    destruct (get x n) eqn:E; [|done].
    by rewrite (adds_get_old _ _ _ _ _ Hxy E) in Hy.
Qed.

Lemma adds_weaken (P Q : Source → Prop) detections detections' :
  (∀ s, P s → Q s) →
  adds P detections detections' → adds Q detections detections'.
Proof. intros HPQ [d n tech s ? ? ?]. constructor; auto. Qed.

Lemma rtc_adds_weaken (P Q : Source → Prop) detections detections' :
  (∀ s, P s → Q s) →
  rtc (adds P) detections detections' → rtc (adds Q) detections detections'.
Proof.
  intros HPQ. induction 1; [done|].
  eapply rtc_l; [|done]. by eapply adds_weaken.
Qed.

(** [addDetection] for a known rule performs at most one addition. *)
Lemma addDetection_adds (P : Source → Prop) detections n tech s :
  known n tech s → P s →
  rtc (adds P) detections (addDetection db detections n tech one s).
Proof.
  intros Hin HP. destruct (has detections n) eqn:E.
  - by rewrite addDetection_present.
  - rewrite addDetection_fresh by done. apply rtc_once. by constructor.
Qed.

(** Additions append. *)
Lemma rtc_adds_app P detections detections' :
  rtc (adds P) detections detections' →
  ∃ ext, detections' = (detections ++ ext)%list.
Proof.
  induction 1 as [x|x y z Hxy _ [ext ->]].
  - exists []. by rewrite app_nil_r.
  - destruct Hxy as [d n tech s _ _ _]. eexists. by rewrite <- app_assoc.
Qed.

Lemma rtc_adds_has P detections detections' n :
  rtc (adds P) detections detections' →
  has detections n = true → has detections' n = true.
Proof.
  intros Hrtc [d Hd]%has_true. apply has_true. exists d.
  by eapply rtc_adds_get_old.
Qed.

Lemma rtc_adds_values P detections detections' d :
  rtc (adds P) detections detections' →
  d ∈ values detections → d ∈ values detections'.
Proof.
  intros [ext ->]%rtc_adds_app Hd. unfold values in *.
  rewrite map_app. apply elem_of_app. by left.
Qed.

(** In a well-keyed map, the values are the detections found by name. *)
Lemma wellKeyed_values detections d :
  wellKeyed detections →
  d ∈ values detections ↔ get detections (name d) = Some d.
Proof.
  intros [Hnd Hall]. unfold values. rewrite list_elem_of_fmap. split.
  - intros [[k d'] [-> Hin]]. simpl.
    rewrite Forall_forall in Hall. specialize (Hall _ Hin). simpl in Hall.
    rewrite Hall. by apply elem_get_NoDup.
  - intros H. exists (name d, d). split; [done|]. by apply get_Some_elem.
Qed.

Lemma wellKeyed_names detections :
  wellKeyed detections → map name (values detections) = keys detections.
Proof.
  intros [_ Hall]. unfold values, keys. rewrite map_map.
  apply map_ext_Forall. eapply Forall_impl; [exact Hall|]. done.
Qed.

End Additions.

(** *** The matching phase *)

Section Matching.

Context {R : Runtime} (db : WappalyzerDatabase) (crawlResult : Crawler.CrawlResult).

Implicit Types (detections : Map Detection) (tech : WappalyzerTechnology).

(** The specification's reading of the loop body: the evidence kinds in
    their fixed order, and the first of them that matches. *)
Definition kinds : list Source := [Header; Cookie; Script; Html; Meta].

Definition kindMatches tech (kind : Source) : bool :=
  match kind with
  | Header =>
      match headers tech with
      | Some patterns => matchHeaders patterns (Crawler.headers crawlResult)
      | None => false
      end
  | Cookie =>
      match cookies tech with
      | Some patterns => matchCookies patterns (Crawler.cookies crawlResult)
      | None => false
      end
  | Script =>
      match truthyPatterns (scripts tech) with
      | Some patterns => matchScripts patterns (Crawler.scripts crawlResult)
      | None => false
      end
  | Html =>
      match truthyPatterns (html tech) with
      | Some patterns => matchHtml patterns (Crawler.html crawlResult)
      | None => false
      end
  | Meta =>
      match meta tech with
      | Some patterns => matchMeta patterns (Crawler.meta crawlResult)
      | None => false
      end
  | JsSource | Implied => false
  end.

Definition firstMatching tech : option Source :=
  find (kindMatches tech) kinds.

Lemma detectTech_firstMatching detections n tech :
  detectTech db crawlResult detections (n, tech)
  = match firstMatching tech with
    | Some kind => addDetection db detections n tech one kind
    | None => detections
    end.
Proof.
  unfold detectTech, firstMatching, kinds. simpl.
  repeat match goal with
         | |- context [if ?b then _ else _] => destruct b; [reflexivity|]
         end.
  reflexivity.
Qed.

Lemma firstMatching_direct tech kind :
  firstMatching tech = Some kind → kind ≠ Implied.
Proof.
  unfold firstMatching. intros H. apply find_some in H as [Hin _].
  intros ->. unfold kinds in Hin. simpl in Hin. intuition discriminate.
Qed.

#[local] Arguments detectTech : simpl never.

Definition direct (s : Source) : Prop := s ≠ Implied.

Lemma detectTech_adds detections n tech :
  (n, tech) ∈ technologies db →
  rtc (adds db direct) detections (detectTech db crawlResult detections (n, tech)).
Proof.
  intros Hin. rewrite detectTech_firstMatching.
  destruct (firstMatching tech) as [kind|] eqn:E; [|done].
  apply addDetection_adds; [by left|]. by eapply firstMatching_direct.
Qed.

Lemma matchFrom_adds (l : Obj WappalyzerTechnology) detections :
  (∀ e, e ∈ l → e ∈ technologies db) →
  rtc (adds db direct) detections
      (fold_left (detectTech db crawlResult) l detections).
Proof.
  revert detections. induction l as [|[n tech] l IH]; intros detections Hl; simpl.
  - done.
  - etrans.
    + apply detectTech_adds. apply Hl. left.
    + apply IH. intros e He. apply Hl. by right.
Qed.

Lemma detectTech_get_other detections n tech n' :
  n ≠ n' →
  get (detectTech db crawlResult detections (n, tech)) n' = get detections n'.
Proof.
  intros Hne. rewrite detectTech_firstMatching.
  destruct (firstMatching tech); [|done].
  destruct (has detections n) eqn:E.
  - by rewrite addDetection_present.
  - rewrite addDetection_fresh, get_app by done. simpl.
    destruct (get detections n'); [done|].
    destruct (String.eqb n n') eqn:E'; [|done].
    apply String.eqb_eq in E'. contradiction.
Qed.

Lemma matchFrom_get_notin (l : Obj WappalyzerTechnology) detections n :
  n ∉ keys l →
  get (fold_left (detectTech db crawlResult) l detections) n = get detections n.
Proof.
  revert detections. induction l as [|[k tech] l IH]; intros detections Hn; simpl.
  - done.
  - simpl in Hn. apply not_elem_of_cons in Hn as [Hne Hn].
    rewrite IH by done. by apply detectTech_get_other.
Qed.

Lemma matchFrom_get_in (l : Obj WappalyzerTechnology) detections n tech :
  NoDup (keys l) → (n, tech) ∈ l → get detections n = None →
  get (fold_left (detectTech db crawlResult) l detections) n
  = (λ kind, created db n tech one kind) <$> firstMatching tech.
Proof.
  revert detections. induction l as [|[k t] l IH]; intros detections Hnd Hin Hfresh.
  - by apply elem_of_nil in Hin.
  - simpl in *. apply NoDup_cons in Hnd as [Hk Hnd].
    apply elem_of_cons in Hin as [[= -> ->]|Hin].
    + rewrite matchFrom_get_notin by done.
      rewrite detectTech_firstMatching.
      destruct (firstMatching t) as [kind|]; simpl; [|done].
      rewrite addDetection_fresh by (by apply has_false).
      rewrite get_app, Hfresh. simpl. by rewrite String.eqb_refl.
    + apply IH; [done|done|].
      rewrite detectTech_get_other; [done|].
      intros ->. apply Hk. unfold keys. apply list_elem_of_fmap.
      by exists (n, tech).
Qed.

End Matching.

(** *** The implication phase *)

Section Implications.

Context {R : Runtime} (db : WappalyzerDatabase).

Implicit Types (detections : Map Detection) (st : Map Detection * bool).

Definition isImplied (s : Source) : Prop := s = Implied.

(** An implied name asks for nothing when it is already detected or when
    the store has nothing under that name, own or inherited. *)
Definition satisfied detections (n : string) : Prop :=
  has detections n = true ∨ technologyOf db n = None.

(** The names that the rule of a detection implies. *)
Definition impliedNames (tech : WappalyzerTechnology) : list string :=
  match truthyStrOrArr (implies tech) with
  | Some (Many l) => l
  | Some (One s) => [s]
  | None => []
  end.

Definition impliedBy (det : Detection) : list string :=
  match technologyOf db (name det) with
  | Some tech => impliedNames tech
  | None => []
  end.

(** A detection set is closed when every name implied by one of its
    detections is satisfied. *)
Definition closed detections : Prop :=
  Forall (λ det, Forall (satisfied detections) (impliedBy det))
         (values detections).

Lemma implyName_satisfied st n :
  satisfied st.1 n → implyName db st n = st.
Proof.
  destruct st as [detections changed]. unfold implyName. simpl.
  intros [H|H]; [by rewrite H|].
  destruct (has detections n); [done|]. by rewrite H.
Qed.

Lemma implyName_cases st n :
  implyName db st n = st
  ∨ tc (adds db isImplied) st.1 (implyName db st n).1
    ∧ (implyName db st n).2 = true.
Proof.
  destruct st as [detections changed]. unfold implyName. simpl.
  destruct (has detections n) eqn:Hhas; [by left|].
  destruct (technologyOf db n) as [tech|] eqn:Hget; [|by left].
  right. simpl. split; [|done].
  rewrite addDetection_fresh by done. apply tc_once.
  constructor; [done| |done]. by apply technologyOf_known.
Qed.

Lemma implyName_unchanged st n :
  (implyName db st n).2 = false → satisfied st.1 n.
Proof.
  destruct st as [detections changed]. unfold implyName, satisfied. simpl.
  destruct (has detections n); [by left|].
  destruct (technologyOf db n); [done|by right].
Qed.

(** The three facts above carry over to a loop of such steps. *)
Section Loop.

Context {X : Type} (f : Map Detection * bool → X → Map Detection * bool).
Context (sat : Map Detection → X → Prop).
Hypothesis f_satisfied : ∀ st x, sat st.1 x → f st x = st.
Hypothesis f_cases : ∀ st x,
  f st x = st ∨ tc (adds db isImplied) st.1 (f st x).1 ∧ (f st x).2 = true.
Hypothesis f_unchanged : ∀ st x, (f st x).2 = false → sat st.1 x.

Lemma loop_satisfied st (l : list X) :
  Forall (sat st.1) l → fold_left f l st = st.
Proof.
  induction 1 as [|x l Hx _ IH]; simpl; [done|].
  by rewrite f_satisfied.
Qed.

Lemma loop_cases st (l : list X) :
  fold_left f l st = st
  ∨ tc (adds db isImplied) st.1 (fold_left f l st).1
    ∧ (fold_left f l st).2 = true.
Proof.
  revert st. induction l as [|x l IH]; intros st; simpl; [by left|].
  destruct (f_cases st x) as [->|[Htc Hflag]]; [apply IH|].
  right. destruct (IH (f st x)) as [->|[Htc' Hflag']]; [done|].
  split; [|done]. by etrans.
Qed.

Lemma loop_unchanged st (l : list X) :
  (fold_left f l st).2 = false → Forall (sat st.1) l.
Proof.
  revert st. induction l as [|x l IH]; intros st; simpl; [by constructor|].
  intros Hflag. pose proof (IH _ Hflag) as Hl.
  assert (Hx : (f st x).2 = false).
  { destruct (loop_cases (f st x) l) as [E|[_ E]]; [by rewrite E in Hflag|].
    congruence. }
  apply f_unchanged in Hx as Hsat.
  rewrite (f_satisfied _ _ Hsat) in Hl. by constructor.
Qed.

End Loop.

Lemma implyDet_fold st det :
  implyDet db st det = fold_left (implyName db) (impliedBy det) st.
Proof.
  unfold implyDet, impliedBy, impliedNames.
  destruct (technologyOf db (name det)) as [tech|]; [|done].
  by destruct (truthyStrOrArr (implies tech)) as [[s|l]|].
Qed.

Lemma implyDet_satisfied st det :
  Forall (satisfied st.1) (impliedBy det) → implyDet db st det = st.
Proof.
  rewrite implyDet_fold.
  apply loop_satisfied. apply implyName_satisfied.
Qed.

Lemma implyDet_cases st det :
  implyDet db st det = st
  ∨ tc (adds db isImplied) st.1 (implyDet db st det).1
    ∧ (implyDet db st det).2 = true.
Proof. rewrite implyDet_fold. apply loop_cases, implyName_cases. Qed.

Lemma implyDet_unchanged st det :
  (implyDet db st det).2 = false → Forall (satisfied st.1) (impliedBy det).
Proof.
  rewrite implyDet_fold.
  apply (loop_unchanged (implyName db) satisfied);
    auto using implyName_satisfied, implyName_cases, implyName_unchanged.
Qed.

(** A turn of the loop leaves a closed set alone and reports no change; any
    other set grows, and the turn reports the change. *)
Lemma scan_closed detections :
  closed detections → scan db detections = (detections, false).
Proof.
  intros H. unfold scan.
  by apply (loop_satisfied (implyDet db)
              (λ d det, Forall (satisfied d) (impliedBy det))
              implyDet_satisfied (detections, false)).
Qed.

Lemma scan_cases detections :
  scan db detections = (detections, false)
  ∨ tc (adds db isImplied) detections (scan db detections).1
    ∧ (scan db detections).2 = true.
Proof.
  unfold scan.
  apply (loop_cases (implyDet db) implyDet_cases (detections, false)).
Qed.

Lemma scan_unchanged detections :
  (scan db detections).2 = false →
  scan db detections = (detections, false) ∧ closed detections.
Proof.
  intros H. destruct (scan_cases detections) as [E|[_ E]]; [|congruence].
  split; [done|]. unfold closed.
  apply (loop_unchanged (implyDet db)
           (λ d det, Forall (satisfied d) (impliedBy det))
           implyDet_satisfied implyDet_cases implyDet_unchanged
           (detections, false)).
  exact H.
Qed.

(** *** Why the loop ends *)

Lemma satisfied_mono P detections detections' n :
  rtc (adds db P) detections detections' →
  satisfied detections n → satisfied detections' n.
Proof.
  intros Hrtc [H|H]; [left|by right]. by eapply rtc_adds_has.
Qed.

Lemma implyName_rtc st n : rtc (adds db isImplied) st.1 (implyName db st n).1.
Proof.
  destruct (implyName_cases st n) as [->|[H _]]; [done|by apply tc_rtc].
Qed.

Lemma implyDet_rtc st det : rtc (adds db isImplied) st.1 (implyDet db st det).1.
Proof.
  destruct (implyDet_cases st det) as [->|[H _]]; [done|by apply tc_rtc].
Qed.

Lemma scan_rtc detections :
  rtc (adds db isImplied) detections (scan db detections).1.
Proof.
  destruct (scan_cases detections) as [->|[H _]]; [done|by apply tc_rtc].
Qed.

(** After its step an implied name is satisfied, and stays so. *)
Lemma implyName_after st n : satisfied (implyName db st n).1 n.
Proof.
  destruct st as [detections changed]. unfold implyName, satisfied.
  destruct (has detections n) eqn:Hhas; simpl; [by left|].
  destruct (technologyOf db n) as [tech|] eqn:Hget; simpl; [|by right].
  left. rewrite addDetection_fresh by done.
  unfold has. rewrite get_app.
  destruct (get detections n); [done|]. simpl. by rewrite String.eqb_refl.
Qed.

Lemma implyNames_rtc (l : list string) :
  ∀ st, rtc (adds db isImplied) st.1 (fold_left (implyName db) l st).1.
Proof.
  induction l as [|n l IH]; intros st; simpl; [done|].
  etrans; [apply implyName_rtc|apply IH].
Qed.

Lemma implyNames_after (l : list string) :
  ∀ st, Forall (satisfied (fold_left (implyName db) l st).1) l.
Proof.
  induction l as [|n l IH]; intros st; simpl; [constructor|].
  constructor; [|apply IH].
  eapply satisfied_mono; [apply implyNames_rtc|apply implyName_after].
Qed.

Lemma implyDets_rtc (l : list Detection) :
  ∀ st, rtc (adds db isImplied) st.1 (fold_left (implyDet db) l st).1.
Proof.
  induction l as [|det l IH]; intros st; simpl; [done|].
  etrans; [apply implyDet_rtc|apply IH].
Qed.

Lemma implyDets_after (l : list Detection) :
  ∀ st det, det ∈ l →
    Forall (satisfied (fold_left (implyDet db) l st).1) (impliedBy det).
Proof.
  induction l as [|d l IH]; intros st det Hdet; simpl.
  - by apply elem_of_nil in Hdet.
  - apply elem_of_cons in Hdet as [->|Hdet]; [|by apply IH].
    apply (Forall_impl (satisfied (implyDet db st d).1)).
    + rewrite implyDet_fold. apply implyNames_after.
    + intros n. apply satisfied_mono with (P := isImplied), implyDets_rtc.
Qed.

(** After a turn, every name implied by a detection that the turn started
    with is satisfied. *)
Lemma scan_after detections det :
  det ∈ values detections →
  Forall (satisfied (scan db detections).1) (impliedBy det).
Proof. intros Hdet. unfold scan. by apply implyDets_after. Qed.

(** The rules of the store that are not resolved yet.  A rule is resolved
    when the set holds a detection of its name and every name that the rule
    implies is satisfied; every turn that reports a change resolves one
    more. *)
Definition satisfiedb detections (n : string) : bool :=
  has detections n
  || match technologyOf db n with Some _ => false | None => true end.

Definition resolved detections (r : string) : bool :=
  existsb (λ det, String.eqb (name det) r) (values detections)
  && forallb (satisfiedb detections)
       match technologyOf db r with
       | Some tech => impliedNames tech
       | None => []
       end.

Definition pending detections : nat :=
  length (filter (λ r, resolved detections r = false)
            (keys (technologies db))).

Lemma pending_bound detections :
  pending detections ≤ length (technologies db).
Proof.
  unfold pending. etrans; [apply length_filter|].
  unfold keys. by rewrite length_map.
Qed.

Lemma satisfiedb_satisfied detections n :
  satisfiedb detections n = true ↔ satisfied detections n.
Proof.
  unfold satisfiedb, satisfied. rewrite orb_true_iff.
  by destruct (technologyOf db n); intuition.
Qed.

Lemma resolved_spec detections r :
  resolved detections r = true
  ↔ ∃ det, det ∈ values detections ∧ name det = r
           ∧ Forall (satisfied detections) (impliedBy det).
Proof.
  unfold resolved. rewrite andb_true_iff, existsb_exists, forallb_forall.
  split.
  - intros [(det & Hin & Heq) Hall]. apply String.eqb_eq in Heq.
    exists det. split; [by apply list_elem_of_In|]. split; [done|].
    unfold impliedBy. rewrite Heq. apply Forall_forall. intros n Hn.
    apply satisfiedb_satisfied, Hall. by apply list_elem_of_In.
  - intros (det & Hin & <- & Hall). split.
    + exists det. split; [by apply list_elem_of_In|]. apply String.eqb_refl.
    + intros n Hn. apply satisfiedb_satisfied.
      rewrite Forall_forall in Hall. apply Hall. by apply list_elem_of_In.
Qed.

Lemma resolved_mono P detections detections' r :
  rtc (adds db P) detections detections' →
  resolved detections r = true → resolved detections' r = true.
Proof.
  intros Hrtc (det & Hin & Hname & Hall)%resolved_spec.
  apply resolved_spec. exists det.
  split; [by eapply rtc_adds_values|]. split; [done|].
  eapply Forall_impl; [exact Hall|]. intros n. by apply (satisfied_mono P).
Qed.

(** A detection with an unsatisfied implication is a detection of a rule of
    the store: the members that the store inherits imply nothing. *)
Lemma unsatisfied_own detections det :
  ¬ Forall (satisfied detections) (impliedBy det) →
  name det ∈ keys (technologies db).
Proof.
  unfold impliedBy, technologyOf. intros H.
  destruct (get (technologies db) (name det)) as [tech|] eqn:E.
  - unfold keys. apply list_elem_of_fmap. exists (name det, tech).
    split; [done|]. by apply get_Some_elem.
  - exfalso. apply H. by destruct (get Object_prototype (name det)).
Qed.

Lemma filter_length_lt {A} (P Q : A → Prop)
    `{!∀ x, Decision (P x)} `{!∀ x, Decision (Q x)} (l : list A) (x : A) :
  (∀ y, Q y → P y) → x ∈ l → P x → ¬ Q x →
  length (filter Q l) < length (filter P l).
Proof.
  intros HQP Hx HPx HQx.
  rewrite (list_filter_iff Q (λ y, Q y ∧ P y) l)
    by (intros y; split; [intros ?; split; auto|by intros [? ?]]).
  rewrite <- list_filter_filter.
  apply (length_filter_lt _ _ x); [|done].
  by apply list_elem_of_filter.
Qed.

Lemma forallb_false {A} (f : A → bool) (l : list A) :
  forallb f l = false → ∃ x, x ∈ l ∧ f x = false.
Proof.
  induction l as [|x l IH]; simpl; [done|].
  destruct (f x) eqn:E; simpl.
  - intros (y & Hy & Hf)%IH. exists y. split; [by right|done].
  - intros _. exists x. split; [by left|done].
Qed.

Lemma settled_spec detections det :
  forallb (satisfiedb detections) (impliedBy det) = true
  ↔ Forall (satisfied detections) (impliedBy det).
Proof.
  rewrite forallb_forall, Forall_forall. split; intros H n Hn.
  - apply satisfiedb_satisfied, H. by apply list_elem_of_In.
  - apply satisfiedb_satisfied, H. by apply list_elem_of_In.
Qed.

Lemma scan_pending detections :
  (scan db detections).2 = true →
  pending (scan db detections).1 < pending detections.
Proof.
  intros Hchanged.
  assert (Hopen : ∃ det, det ∈ values detections
            ∧ ¬ Forall (satisfied detections) (impliedBy det)).
  { destruct (forallb (λ det, forallb (satisfiedb detections) (impliedBy det))
                (values detections)) eqn:Hall.
    - exfalso. assert (Hclosed : closed detections).
      { unfold closed. apply Forall_forall. intros det Hdet.
        apply settled_spec. rewrite forallb_forall in Hall.
        apply Hall. by apply list_elem_of_In. }
      by rewrite (scan_closed _ Hclosed) in Hchanged.
    - apply forallb_false in Hall as (det & Hdet & Hno).
      exists det. split; [done|]. intros H%settled_spec. congruence. }
  destruct Hopen as (det & Hdet & Hopen).
  unfold pending.
  apply (filter_length_lt _ _ _ (name det)).
  - intros r Hr. destruct (resolved detections r) eqn:E; [|done].
    by rewrite (resolved_mono _ _ _ _ (scan_rtc detections) E) in Hr.
  - by eapply unsatisfied_own.
  - destruct (resolved detections (name det)) eqn:E; [|done].
    apply resolved_spec in E as (det' & _ & Hname & Hall).
    exfalso. apply Hopen. unfold impliedBy in *. by rewrite <- Hname.
  - intros Hr. apply not_true_iff_false in Hr. apply Hr.
    apply resolved_spec. exists det.
    split; [by eapply rtc_adds_values; [apply scan_rtc|]|]. split; [done|].
    by apply scan_after.
Qed.

(** The loop ends: with more fuel than there are pending rules it returns,
    whatever the fuel, the same set; this set is reached by additions of
    implied detections only and is closed. *)
Lemma processLoop_pending (bound : nat) detections :
  pending detections ≤ bound →
  ∃ result,
    (∀ fuel, bound < fuel → processLoop db fuel detections = Some result)
    ∧ rtc (adds db isImplied) detections result
    ∧ closed result.
Proof.
  revert detections. induction bound as [|bound IH]; intros detections Hle.
  - destruct (scan_cases detections) as [E|[Htc E]].
    + exists detections. split; [|split; [done|]].
      * intros [|fuel] Hfuel; [lia|]. simpl. by rewrite E.
      * apply scan_unchanged. by rewrite E.
    + apply scan_pending in E. lia.
  - destruct (scan_cases detections) as [E|[Htc E]].
    + exists detections. split; [|split; [done|]].
      * intros [|fuel] Hfuel; [lia|]. simpl. by rewrite E.
      * apply scan_unchanged. by rewrite E.
    + pose proof (scan_pending _ E) as Hless.
      destruct (scan db detections) as [detections' changed] eqn:Escan.
      simpl in *. subst changed.
      destruct (IH detections') as (result & Hfuel & Hrtc & Hclosed); [lia|].
      exists result. split; [|split; [|done]].
      * intros [|fuel] Hlt; [lia|]. simpl. rewrite Escan.
        apply Hfuel. lia.
      * etrans; [by apply tc_rtc|done].
Qed.

Lemma processLoop_enough detections :
  ∃ result,
    (∀ fuel, length (technologies db) < fuel →
             processLoop db fuel detections = Some result)
    ∧ result = processImplications db detections
    ∧ rtc (adds db isImplied) detections result
    ∧ closed result.
Proof.
  destruct (processLoop_pending (length (technologies db)) detections)
    as (result & Hfuel & Hrtc & Hclosed); [apply pending_bound|].
  exists result. split; [done|]. split; [|done].
  unfold processImplications. rewrite Hfuel; [done|lia].
Qed.

Lemma processImplications_adds detections :
  rtc (adds db isImplied) detections (processImplications db detections).
Proof.
  destruct (processLoop_enough detections) as (r & _ & -> & H & _). exact H.
Qed.

Lemma processImplications_closed detections :
  closed (processImplications db detections).
Proof.
  destruct (processLoop_enough detections) as (r & _ & -> & _ & H). exact H.
Qed.

Lemma processImplications_fixed detections :
  closed detections → processImplications db detections = detections.
Proof.
  intros H. unfold processImplications. simpl.
  by rewrite (scan_closed _ H).
Qed.

End Implications.

(** *** Sample stores and snapshots *)

(** A rule with no field at all. *)
Definition bareRule : WappalyzerTechnology :=
  {| cats := None; implies := None; headers := None; meta := None;
     html := None; scripts := None; cookies := None |}.

(** Snapshots of an empty page with the given headers, or meta tags. *)
Definition withHeaders (h : Obj string) : Crawler.CrawlResult :=
  {| Crawler.url := "https://example.com";
     Crawler.finalUrl := "https://example.com";
     Crawler.statusCode := ofZ 200;
     Crawler.headers := h;
     Crawler.html := "";
     Crawler.scripts := [];
     Crawler.meta := [];
     Crawler.cookies := [];
     Crawler.tier := ofZ 2;
     Crawler.timeTakenMs := ofZ 0 |}.

Definition withMeta (m : Obj string) : Crawler.CrawlResult :=
  {| Crawler.url := "https://example.com";
     Crawler.finalUrl := "https://example.com";
     Crawler.statusCode := ofZ 200;
     Crawler.headers := [];
     Crawler.html := "";
     Crawler.scripts := [];
     Crawler.meta := m;
     Crawler.cookies := [];
     Crawler.tier := ofZ 2;
     Crawler.timeTakenMs := ofZ 0 |}.

(** A store with one rule. *)
Definition oneRule (n : string) (tech : WappalyzerTechnology)
    : WappalyzerDatabase :=
  {| categories := [("1", {| cat_name := "CMS"; priority := None |})];
     technologies := [(n, tech)] |}.

(** A rule that asks for the presence of a header, and one that asks for the
    presence of a meta tag. *)
Definition headerPresence (key : string) : WappalyzerTechnology :=
  {| cats := None; implies := None; headers := Some [(key, "")];
     meta := None; html := None; scripts := None; cookies := None |}.

Definition metaPresence (key : string) : WappalyzerTechnology :=
  {| cats := None; implies := None; headers := None;
     meta := Some [(key, One "")]; html := None; scripts := None;
     cookies := None |}.

(** The server of the specification's priority example: its rule matches a
    header and a cookie. *)
Definition nginxRule : WappalyzerTechnology :=
  {| cats := Some ["22"]; implies := None;
     headers := Some [("Server", "nginx")];
     meta := None; html := None; scripts := None;
     cookies := Some [("nginx_sid", "")] |}.

Definition nginxStore : WappalyzerDatabase :=
  {| categories := [("22", {| cat_name := "Web servers"; priority := None |})];
     technologies := [("Nginx", nginxRule)] |}.

Definition nginxPage : Crawler.CrawlResult :=
  {| Crawler.url := "https://example.com";
     Crawler.finalUrl := "https://example.com";
     Crawler.statusCode := ofZ 200;
     Crawler.headers := [("server", "nginx/1.25")];
     Crawler.html := "";
     Crawler.scripts := [];
     Crawler.meta := [];
     Crawler.cookies := ["nginx_sid=abc"];
     Crawler.tier := ofZ 2;
     Crawler.timeTakenMs := ofZ 0 |}.

(** The cycle of the specification: A implies B and B implies A. *)
Definition cyclicStore : WappalyzerDatabase :=
  {| categories := [];
     technologies :=
       [ ("A", {| cats := None; implies := Some (One "B"); headers := None;
                  meta := None; html := None; scripts := None;
                  cookies := None |});
         ("B", {| cats := None; implies := Some (Many ["A"]); headers := None;
                  meta := None; html := None; scripts := None;
                  cookies := None |}) ] |}.

(** A store whose category 1 has an empty name. *)
Definition unnamedCategoryStore : WappalyzerDatabase :=
  {| categories := [("1", {| cat_name := ""; priority := None |})];
     technologies := [("T", headerPresence "x-t")] |}.

(** *** What [detect] returns *)

Section Detect.

Context {R : Runtime} (db : WappalyzerDatabase) (crawlResult : Crawler.CrawlResult).

Lemma matchAll_adds :
  rtc (adds db direct) [] (matchAll db crawlResult).
Proof. unfold matchAll. by apply matchFrom_adds. Qed.

Lemma matchAll_wellKeyed : wellKeyed (matchAll db crawlResult).
Proof.
  eapply rtc_adds_wellKeyed; [apply matchAll_adds|apply wellKeyed_nil].
Qed.

Lemma resolved_wellKeyed :
  wellKeyed (processImplications db (matchAll db crawlResult)).
Proof.
  eapply rtc_adds_wellKeyed;
    [apply processImplications_adds|apply matchAll_wellKeyed].
Qed.

Lemma elem_of_detect det :
  det ∈ detect db crawlResult
  ↔ get (processImplications db (matchAll db crawlResult)) (name det)
    = Some det.
Proof. unfold detect. apply wellKeyed_values, resolved_wellKeyed. Qed.

(** A rule that matches is detected with the source that matched first. *)
Lemma detect_matched techName tech kind :
  NoDup (keys (technologies db)) →
  (techName, tech) ∈ technologies db →
  firstMatching crawlResult tech = Some kind →
  created db techName tech one kind ∈ detect db crawlResult.
Proof.
  intros Hnd Hin Hfirst. apply elem_of_detect. simpl.
  eapply rtc_adds_get_old; [apply processImplications_adds|].
  unfold matchAll. rewrite (matchFrom_get_in db crawlResult _ _ _ tech) by done.
  by rewrite Hfirst.
Qed.

(** A rule that does not match can only be detected as implied. *)
Lemma detect_unmatched techName tech det :
  NoDup (keys (technologies db)) →
  (techName, tech) ∈ technologies db →
  firstMatching crawlResult tech = None →
  det ∈ detect db crawlResult → name det = techName → source det = Implied.
Proof.
  intros Hnd Hin Hfirst Hdet Hname. apply elem_of_detect in Hdet.
  rewrite Hname in Hdet.
  destruct (rtc_adds_get_new db _ _ _ _ _
              (processImplications_adds db (matchAll db crawlResult)) Hdet)
    as [Hold|(_ & Himplied & _)]; [|done].
  unfold matchAll in Hold.
  rewrite (matchFrom_get_in db crawlResult _ _ _ tech) in Hold by done.
  by rewrite Hfirst in Hold.
Qed.

Lemma detect_names_NoDup : NoDup (map name (detect db crawlResult)).
Proof.
  unfold detect. rewrite wellKeyed_names by apply resolved_wellKeyed.
  apply resolved_wellKeyed.
Qed.

Lemma detect_name_unique det det' :
  det ∈ detect db crawlResult → det' ∈ detect db crawlResult →
  name det = name det' → det = det'.
Proof.
  intros H H' E. apply elem_of_detect in H, H'. rewrite E in H. congruence.
Qed.

(** C2.  For a rule of the store, the evidence kinds are tried in the order
    header, cookie, script, html, meta, and the detection of the rule carries
    the first kind that matches as its source, whatever the later kinds would
    say; a rule that no kind matches has no detection with an evidence
    source.  In particular a rule that the headers and the cookies both match
    is detected with source header, and no detection of that name has source
    cookie.  (The keys of the store are pairwise different, as the keys of an
    object are.) *)
Theorem detect_source_is_first_matching_kind techName tech :
  NoDup (keys (technologies db)) →
  (techName, tech) ∈ technologies db →
  match find (kindMatches crawlResult tech) [Header; Cookie; Script; Html; Meta] with
  | Some kind =>
      (∃ det, det ∈ detect db crawlResult ∧ name det = techName)
      ∧ ∀ det, det ∈ detect db crawlResult → name det = techName →
               source det = kind
  | None =>
      ∀ det, det ∈ detect db crawlResult → name det = techName →
             source det = Implied
  end
  ∧ (kindMatches crawlResult tech Header = true →
     kindMatches crawlResult tech Cookie = true →
     (∃ det, det ∈ detect db crawlResult ∧ name det = techName)
     ∧ ∀ det, det ∈ detect db crawlResult → name det = techName →
              source det = Header ∧ source det ≠ Cookie).
Proof.
  intros Hnd Hin.
  assert (Hkind : ∀ kind, firstMatching crawlResult tech = Some kind →
    (∃ det, det ∈ detect db crawlResult ∧ name det = techName)
    ∧ ∀ det, det ∈ detect db crawlResult → name det = techName →
             source det = kind).
  { intros kind Hfirst.
    pose proof (detect_matched _ _ _ Hnd Hin Hfirst) as Hdet.
    split; [by eexists|].
    intros det Hdet' Hname.
    by rewrite (detect_name_unique _ _ Hdet' Hdet Hname). }
  split.
  - change (find _ _) with (firstMatching crawlResult tech).
    destruct (firstMatching crawlResult tech) as [kind|] eqn:Hfirst.
    + by apply Hkind.
    + intros det. by eapply detect_unmatched.
  - intros Hheader _.
    assert (Hfirst : firstMatching crawlResult tech = Some Header).
    { unfold firstMatching, kinds. cbn [find]. by rewrite Hheader. }
    destruct (Hkind _ Hfirst) as [Hex Hall]. split; [done|].
    intros det Hdet Hname. rewrite (Hall det Hdet Hname). done.
Qed.

End Detect.

(** On the sample page the server is matched by its header and by its
    cookie, and detected once, by its header. *)
Lemma detect_source_is_first_matching_kind_witness :
  ((∃ det, det ∈ detect nginxStore nginxPage ∧ name det = "Nginx")
   ∧ ∀ det, det ∈ detect nginxStore nginxPage → name det = "Nginx" →
            source det = Header)
  ∧ ((∃ det, det ∈ detect nginxStore nginxPage ∧ name det = "Nginx")
     ∧ ∀ det, det ∈ detect nginxStore nginxPage → name det = "Nginx" →
              source det = Header ∧ source det ≠ Cookie).
Proof.
  destruct (detect_source_is_first_matching_kind
              (R := Reference.runtime) nginxStore nginxPage "Nginx" nginxRule)
    as [Hfirst Hboth].
  - apply NoDup_singleton.
  - apply list_elem_of_singleton. reflexivity.
  - split; [exact Hfirst|]. apply Hboth; reflexivity.
Defined.

Section Run.

Context {R : Runtime} (db : WappalyzerDatabase) (crawlResult : Crawler.CrawlResult).

Lemma wellKeyed_get_name (detections : Map Detection) n det :
  wellKeyed detections → get detections n = Some det → name det = n.
Proof.
  intros [_ Hall] Hget. apply get_Some_elem in Hget.
  rewrite Forall_forall in Hall. exact (Hall _ Hget).
Qed.

(** C7.  The detections that [detect] returns carry pairwise different
    names.  Once a name has a detection, [addDetection] for that name changes
    nothing; a detection made at any point of the matching loop is the
    detection of that name in the result; and the implication loop keeps
    every detection it is given. *)
Theorem detect_one_detection_per_name :
  NoDup (map name (detect db crawlResult))
  ∧ (∀ (detections : Map Detection) n det tech c s,
       get detections n = Some det →
       addDetection db detections n tech c s = detections)
  ∧ (∀ before after n det,
       technologies db = (before ++ after)%list →
       get (fold_left (detectTech db crawlResult) before []) n = Some det →
       det ∈ detect db crawlResult
       ∧ ∀ det', det' ∈ detect db crawlResult → name det' = n → det' = det)
  ∧ (∀ (detections : Map Detection) n det,
       get detections n = Some det →
       get (processImplications db detections) n = Some det).
Proof.
  split; [apply detect_names_NoDup|]. split; [|split].
  - intros detections n det tech c s Hget.
    apply addDetection_present. apply has_true. by exists det.
  - intros before after n det Hsplit Hget.
    assert (Hfinal :
      get (processImplications db (matchAll db crawlResult)) n = Some det).
    { apply (rtc_adds_get_old db isImplied (matchAll db crawlResult));
        [apply processImplications_adds|].
      unfold matchAll. rewrite Hsplit, fold_left_app.
      apply (rtc_adds_get_old db direct
               (fold_left (detectTech db crawlResult) before []));
        [|exact Hget].
      apply (matchFrom_adds db crawlResult). intros e He.
      rewrite Hsplit. apply elem_of_app. by right. }
    assert (Hname : name det = n).
    { eapply wellKeyed_get_name; [apply resolved_wellKeyed|exact Hfinal]. }
    assert (Hdet : det ∈ detect db crawlResult).
    { apply elem_of_detect. by rewrite Hname. }
    split; [done|]. intros det' Hdet' Hname'.
    apply (detect_name_unique db crawlResult); [done|done|congruence].
  - intros detections n det.
    apply (rtc_adds_get_old db isImplied), processImplications_adds.
Qed.

(** C10.  A detection of a rule whose list of category ids is missing or
    empty has category id 1 (the number that [parseInt] reads from the
    string 1).  Its category is the name that the store lists under key 1
    when that name is not empty, and Miscellaneous when the store has no key
    1 or lists an empty name there.  (The keys of the store are pairwise
    different, as the keys of an object are.) *)
Theorem detection_without_cats_is_filed_under_1 det tech :
  NoDup (keys (technologies db)) →
  det ∈ detect db crawlResult →
  get (technologies db) (name det) = Some tech →
  cats tech = None ∨ cats tech = Some [] →
  categoryId det = parseInt "1"
  ∧ category det
    = match get (categories db) "1" with
      | Some entry =>
          if String.eqb (cat_name entry) "" then "Miscellaneous"
          else cat_name entry
      | None => "Miscellaneous"
      end.
Proof.
  intros Hnd Hdet Htech Hcats. apply elem_of_detect in Hdet.
  assert (Hfrom : rtc (adds db (λ _, True)) []
            (processImplications db (matchAll db crawlResult))).
  { etrans.
    - eapply rtc_adds_weaken; [|apply matchAll_adds]. done.
    - eapply rtc_adds_weaken; [|apply processImplications_adds]. done. }
  destruct (rtc_adds_get_new db _ _ _ _ _ Hfrom Hdet)
    as [Hnil|(_ & _ & tech' & Hin & Hcreated)]; [done|].
  assert (tech' = tech) as ->.
  { destruct Hin as [Hin|(_ & Hnone & _)]; [|congruence].
    apply (elem_get_NoDup _ _ _ Hnd) in Hin. congruence. }
  assert (Hprimary : primaryCat tech = "1").
  { unfold primaryCat. by destruct Hcats as [-> | ->]. }
  rewrite Hcreated. simpl. rewrite Hprimary. split; [done|].
  unfold categoryNameOf, categoryNameAt, truthy.
  destruct (get (categories db) "1") as [entry|]; [|done].
  by destruct (String.eqb (cat_name entry) "").
Qed.

End Run.

Lemma detect_one_detection_per_name_witness :
  NoDup (map name (detect nginxStore nginxPage))
  ∧ addDetection nginxStore (matchAll nginxStore nginxPage) "Nginx"
      nginxRule one Cookie
    = matchAll nginxStore nginxPage.
Proof.
  destruct (detect_one_detection_per_name
              (R := Reference.runtime) nginxStore nginxPage)
    as (Hnodup & Hadd & _ & _).
  split; [exact Hnodup|].
  apply (Hadd _ _ (created nginxStore "Nginx" nginxRule one Header)).
  reflexivity.
Defined.

Lemma detection_without_cats_is_filed_under_1_witness :
  let det := created (R := Reference.runtime) (oneRule "T" (headerPresence "x-t"))
               "T" (headerPresence "x-t") one Header in
  categoryId det = ofZ 1 ∧ category det = "CMS".
Proof.
  apply (detection_without_cats_is_filed_under_1
           (R := Reference.runtime) (oneRule "T" (headerPresence "x-t"))
           (withHeaders [("x-t", "on")]) _ (headerPresence "x-t")).
  - apply NoDup_singleton.
  - apply list_elem_of_singleton. reflexivity.
  - reflexivity.
  - left. reflexivity.
Defined.

(** The store may list an empty name under key 1: the key exists, and the
    detection is filed under Miscellaneous all the same. *)
Lemma unnamed_category_1_is_miscellaneous :
  ∃ entry det,
    get (categories unnamedCategoryStore) "1" = Some entry
    ∧ detect (R := Reference.runtime) unnamedCategoryStore
        (withHeaders [("x-t", "on")]) = [det]
    ∧ name det = "T"
    ∧ category det = "Miscellaneous"
    ∧ category det ≠ cat_name entry.
Proof.
  eexists _, _. split; [reflexivity|]. split; [reflexivity|].
  split; [reflexivity|]. split; [reflexivity|]. discriminate.
Qed.

(** *** The resolver *)

(** C5.  On every store and every detection set the loop of
    [processImplications] ends: one turn more than the store has rules, or
    any larger number of turns, returns the same set, which is closed.  On
    the store where A implies B and B implies A, the set that holds A alone
    resolves to A and B, B being implied. *)
Theorem processImplications_terminates :
  (∀ (R : Runtime) (db : WappalyzerDatabase) (detections : Map Detection),
     ∃ result,
       (∀ fuel, length (technologies db) < fuel →
                processLoop db fuel detections = Some result)
       ∧ processImplications db detections = result
       ∧ closed db result)
  ∧ (∀ (R : Runtime) (a : Detection),
       name a = "A" →
       ∃ b, processImplications cyclicStore [("A", a)] = [("A", a); ("B", b)]
            ∧ name b = "B" ∧ source b = Implied).
Proof.
  split.
  - intros R db detections.
    destruct (processLoop_enough db detections)
      as (result & Hfuel & Heq & _ & Hclosed).
    exists result. by rewrite <- Heq.
  - intros R [n c i v conf s p] Ha. simpl in Ha. subst n.
    eexists. split; [reflexivity|]. split; reflexivity.
Qed.

Section Resolver.

Context {R : Runtime} (db : WappalyzerDatabase).


(** What the resolver returns is closed, so that resolving twice is
    resolving once. *)
Lemma processImplications_twice (detections : Map Detection) :
  processImplications db (processImplications db detections)
  = processImplications db detections.
Proof. apply processImplications_fixed, processImplications_closed. Qed.

End Resolver.


(** *** Presence patterns *)

Section Presence.

Context {R : Runtime} {E : RegExpEmpty R}.

Lemma tryTest_empty value : tryTest "" value = true.
Proof. unfold tryTest. by rewrite regexTest_empty. Qed.

(** A cookie pattern that is the empty string matches on the presence of
    the cookie, whatever its value, the empty one included. *)
Lemma matchCookies_presence (patterns : Obj string) (cookies : list string)
    (cookieStr : string) :
  cookieStr ∈ cookies →
  get patterns (hd EmptyString (split "=" cookieStr)) = Some "" →
  matchCookies patterns cookies = true.
Proof.
  intros Hin Hget. unfold matchCookies. apply existsb_exists.
  exists cookieStr. split; [by apply list_elem_of_In|].
  simpl. by rewrite Hget.
Qed.

(** A header pattern that is the empty string matches on the presence of
    the header when its value is not empty. *)
Lemma matchHeaders_presence (patterns headers : Obj string) key value :
  (key, "") ∈ patterns →
  get headers (toLowerCase key) = Some value →
  value ≠ "" →
  matchHeaders patterns headers = true.
Proof.
  intros Hin Hget Hvalue. unfold matchHeaders. apply existsb_exists.
  exists (key, ""). split; [by apply list_elem_of_In|].
  rewrite Hget, tryTest_empty. unfold truthy.
  by apply String.eqb_neq in Hvalue as ->.
Qed.

Lemma matchMeta_presence (patterns : Obj StrOrArr) (meta : Obj string)
    key value :
  (key, One "") ∈ patterns →
  get meta (toLowerCase key) = Some value →
  value ≠ "" →
  matchMeta patterns meta = true.
Proof.
  intros Hin Hget Hvalue. unfold matchMeta. apply existsb_exists.
  exists (key, One ""). split; [by apply list_elem_of_In|].
  rewrite Hget. simpl. rewrite tryTest_empty. unfold truthy.
  by apply String.eqb_neq in Hvalue as ->.
Qed.

End Presence.

(** The three loops on the reference runtime: a header, a meta tag and a
    cookie that are present with a value match their presence patterns. *)
Lemma presence_examples :
  matchHeaders (R := Reference.runtime) [("X-Powered-By", "")]
    [("x-powered-by", "PHP/8.2")] = true
  ∧ matchMeta (R := Reference.runtime) [("Generator", One "")]
      [("generator", "Hugo 0.120")] = true
  ∧ matchCookies (R := Reference.runtime) [("PHPSESSID", "")]
      ["PHPSESSID=abc"; "theme=dark"] = true.
Proof.
  split; [|split].
  - apply (matchHeaders_presence _ _ "X-Powered-By" "PHP/8.2");
      [left|reflexivity|discriminate].
  - apply (matchMeta_presence _ _ "Generator" "Hugo 0.120");
      [left|reflexivity|discriminate].
  - apply (matchCookies_presence _ _ "PHPSESSID=abc"); [left|reflexivity].
Qed.

(** C1, on the code.  A header that is present with an empty value is not
    matched by a rule that asks for its presence, and neither is such a meta
    tag: the loops test the truthiness of the value, which the empty string
    fails, before they look at the pattern.  The rule is then not detected,
    whereas the cookie loop detects the presence of a cookie whose value is
    empty. *)
Theorem empty_value_is_not_presence (R : Runtime) (key : string) :
  matchHeaders [(key, "")] [(toLowerCase key, "")] = false
  ∧ detect (oneRule "T" (headerPresence key))
      (withHeaders [(toLowerCase key, "")]) = []
  ∧ matchMeta [(key, One "")] [(toLowerCase key, "")] = false
  ∧ detect (oneRule "T" (metaPresence key))
      (withMeta [(toLowerCase key, "")]) = []
  ∧ matchCookies [("sid", "")] ["sid="] = true.
Proof.
  assert (Hh : matchHeaders [(key, "")] [(toLowerCase key, "")] = false).
  { unfold matchHeaders. simpl. by rewrite String.eqb_refl. }
  assert (Hm : matchMeta [(key, One "")] [(toLowerCase key, "")] = false).
  { unfold matchMeta. simpl. by rewrite String.eqb_refl. }
  split; [exact Hh|]. split; [|split; [exact Hm|split]].
  - unfold detect, matchAll, oneRule. cbn [technologies fold_left].
    rewrite detectTech_firstMatching.
    unfold firstMatching, kinds. cbn [find].
    replace (kindMatches _ _ Header) with false by (symmetry; exact Hh).
    reflexivity.
  - unfold detect, matchAll, oneRule. cbn [technologies fold_left].
    rewrite detectTech_firstMatching.
    unfold firstMatching, kinds. cbn [find].
    replace (kindMatches _ _ Meta) with false by (symmetry; exact Hm).
    reflexivity.
  - reflexivity.
Qed.

End DetectorFacts.

(** ** The matcher and the language of a pattern *)

Module RegexFacts.

Import Regex.

#[local] Arguments String.append !_ _ / : simpl nomatch.

(** The strings of a pattern, read as a regular expression. *)
Fixpoint allOf (p : ascii → bool) (s : string) : bool :=
  match s with
  | EmptyString => true
  | String c rest => p c && allOf p rest
  end.

Inductive matches : regex → string → Prop :=
| matches_eps : matches Eps ""
| matches_char s c : accepts s c = true → matches (Char s) (String c "")
| matches_seq r1 r2 s1 s2 :
    matches r1 s1 → matches r2 s2 → matches (Seq r1 r2) (s1 ++ s2)
| matches_star s str : allOf (accepts s) str = true → matches (Star s) str
| matches_lazy s str : allOf (accepts s) str = true → matches (StarLazy s) str
| matches_group n r s : matches r s → matches (Group n r) s.

Lemma append_assoc (a b c : string) : (a ++ b) ++ c = a ++ (b ++ c).
Proof. induction a as [|x a IH]; simpl; [done|by rewrite IH]. Qed.

Lemma starGreedy_some {A} (p : ascii → bool) input (k : string → option A) :
  is_Some (starGreedy p input k)
  ↔ ∃ s rest, input = s ++ rest ∧ allOf p s = true ∧ is_Some (k rest).
Proof.
  induction input as [|c input IH]; simpl.
  - split.
    + intros H. by exists "", "".
    + intros (s & rest & E & _ & H). destruct s; [|done]. simpl in E.
      by subst.
  - destruct (p c) eqn:Ep.
    + split.
      * destruct (starGreedy p input k) eqn:E.
        -- intros _. destruct IH as [IH _].
           destruct IH as (s & rest & -> & Hall & Hk); [by eexists|].
           exists (String c s), rest. simpl. by rewrite Ep, Hall.
        -- intros H. by exists "", (String c input).
      * intros (s & rest & E & Hall & Hk). destruct s as [|c' s].
        -- simpl in E. subst rest.
           by destruct (starGreedy p input k).
        -- simpl in E. injection E as <- ->. simpl in Hall.
           apply andb_prop in Hall as [_ Hall].
           assert (is_Some (starGreedy p (s ++ rest) k)) as [a ->];
             [|by eexists].
           apply IH. by exists s, rest.
    + split.
      * intros H. by exists "", (String c input).
      * intros (s & rest & E & Hall & Hk). destruct s as [|c' s].
        -- simpl in E. by subst.
        -- simpl in E. injection E as <- ->. simpl in Hall.
           by rewrite Ep in Hall.
Qed.

Lemma starLazy_some {A} (p : ascii → bool) input (k : string → option A) :
  is_Some (starLazy p input k)
  ↔ ∃ s rest, input = s ++ rest ∧ allOf p s = true ∧ is_Some (k rest).
Proof.
  induction input as [|c input IH]; simpl.
  - split.
    + intros H. exists "", "". split; [done|]. split; [done|].
      by destruct (k "").
    + intros (s & rest & E & _ & H). destruct s; [|done]. simpl in E.
      subst. destruct H as [a ->]. by eexists.
  - split.
    + destruct (k (String c input)) eqn:Ek.
      * intros _. exists "", (String c input). by rewrite Ek.
      * destruct (p c) eqn:Ep; [|by intros []].
        intros H. apply IH in H as (s & rest & -> & Hall & Hk).
        exists (String c s), rest. simpl. by rewrite Ep, Hall.
    + intros (s & rest & E & Hall & Hk). destruct s as [|c' s].
      * simpl in E. subst rest. destruct Hk as [a ->]. by eexists.
      * simpl in E. injection E as <- ->. simpl in Hall.
        apply andb_prop in Hall as [Ep Hall].
        destruct (k (String c (s ++ rest))); [by eexists|].
        rewrite Ep. apply IH. by exists s, rest.
Qed.

(** A continuation that succeeds or fails whatever the captures. *)
Definition blind {A} (k : string → captures → option A) : Prop :=
  ∀ rest c1 c2, is_Some (k rest c1) ↔ is_Some (k rest c2).

Lemma run_some {A} (r : regex) :
  ∀ input caps (k : string → captures → option A), blind k →
  is_Some (run r input caps k)
  ↔ ∃ s rest, input = s ++ rest ∧ matches r s ∧ is_Some (k rest caps).
Proof.
  induction r as [|cs|r1 IH1 r2 IH2|cs|cs|n r IH]; intros input caps k Hk;
    simpl.
  - split.
    + intros H. exists "", input. split; [done|]. split; [constructor|done].
    + intros (s & rest & -> & Hm & H). by inversion Hm; subst.
  - destruct input as [|c input].
    + split; [by intros []|].
      intros (s & rest & E & Hm & _). inversion Hm; subst. done.
    + destruct (accepts cs c) eqn:Ec.
      * split.
        -- intros H. exists (String c ""), input.
           split; [done|]. split; [by constructor|done].
        -- intros (s & rest & E & Hm & H). inversion Hm; subst.
           simpl in E. by injection E as <- ->.
      * split; [by intros []|].
        intros (s & rest & E & Hm & _). inversion Hm; subst.
        simpl in E. injection E as <- ->. congruence.
  - assert (Hk2 : blind (λ rest caps', run r2 rest caps' k)).
    { intros rest c1 c2. rewrite !IH2 by done.
      split; intros (s & rest' & E & Hm & H); exists s, rest';
        (split; [done|]); (split; [done|]); by eapply Hk. }
    rewrite IH1 by done. split.
    + intros (s1 & rest1 & -> & Hm1 & H).
      apply IH2 in H as (s2 & rest & -> & Hm2 & H); [|done].
      exists (s1 ++ s2), rest. rewrite append_assoc.
      split; [done|]. split; [by constructor|done].
    + intros (s & rest & -> & Hm & H). inversion Hm; subst.
      exists s1, (s2 ++ rest). rewrite append_assoc. split; [done|].
      split; [done|]. apply IH2; [done|]. by exists s2, rest.
  - rewrite starGreedy_some. split.
    + intros (s & rest & -> & Hall & H). exists s, rest.
      split; [done|]. split; [by constructor|done].
    + intros (s & rest & -> & Hm & H). inversion Hm; subst. by exists s, rest.
  - rewrite starLazy_some. split.
    + intros (s & rest & -> & Hall & H). exists s, rest.
      split; [done|]. split; [by constructor|done].
    + intros (s & rest & -> & Hm & H). inversion Hm; subst. by exists s, rest.
  - assert (Hk' : blind (λ rest caps', k rest ((n, consumed input rest) :: caps'))).
    { intros rest c1 c2. apply Hk. }
    rewrite IH by done. split.
    + intros (s & rest & -> & Hm & H). exists s, rest.
      split; [done|]. split; [by constructor|]. by eapply Hk.
    + intros (s & rest & -> & Hm & H). inversion Hm; subst.
      exists s, rest. split; [done|]. split; [done|]. by eapply Hk.
Qed.

Lemma search_some {A} (r : regex) input (k : string → captures → option A) :
  blind k →
  is_Some (search r input k)
  ↔ ∃ pre s rest, input = pre ++ s ++ rest ∧ matches r s
                  ∧ is_Some (k rest []).
Proof.
  intros Hk. induction input as [|c input IH]; simpl.
  - destruct (run r "" [] k) eqn:E.
    + split; [|by eexists]. intros _.
      assert (H : is_Some (run r "" [] k)) by (by rewrite E).
      apply run_some in H as (s & rest & E' & Hm & H); [|done].
      by exists "", s, rest.
    + split; [by intros []|].
      intros (pre & s & rest & E' & Hm & H).
      destruct pre; [|done]. simpl in E'.
      assert (H' : is_Some (run r "" [] k)).
      { apply run_some; [done|]. by exists s, rest. }
      rewrite E in H'. by destruct H'.
  - destruct (run r (String c input) [] k) eqn:E.
    + split; [|by eexists]. intros _.
      assert (H : is_Some (run r (String c input) [] k)) by (by rewrite E).
      apply run_some in H as (s & rest & E' & Hm & H); [|done].
      by exists "", s, rest.
    + rewrite IH. split.
      * intros (pre & s & rest & -> & Hm & H).
        by exists (String c pre), s, rest.
      * intros (pre & s & rest & E' & Hm & H). destruct pre as [|c' pre].
        -- simpl in E'.
           assert (H' : is_Some (run r (String c input) [] k)).
           { apply run_some; [done|]. by exists s, rest. }
           rewrite E in H'. by destruct H'.
        -- simpl in E'. injection E' as <- ->. by exists pre, s, rest.
Qed.

(** [test] answers whether some part of the input is a string of the
    pattern. *)
Lemma test_matches (r : regex) (input : string) :
  test r input = true
  ↔ ∃ pre s post, input = pre ++ s ++ post ∧ matches r s.
Proof.
  unfold test.
  assert (Hk : blind (A := unit) (λ _ _, Some ())) by done.
  pose proof (search_some r input (λ _ _, Some ()) Hk) as H.
  destruct (search r input (λ _ _, Some ())) eqn:E.
  - split; [|done]. intros _.
    destruct H as [H _]. destruct H as (pre & s & post & ? & ? & _).
    + by eexists.
    + by exists pre, s, post.
  - split; [done|]. intros (pre & s & post & ? & ?).
    destruct H as [_ H]. destruct H as [? H].
    + exists pre, s, post. split; [done|]. split; [done|by eexists].
    + done.
Qed.

End RegexFacts.

(** ** Crawler *)

Module CrawlerFacts.

Import Regex.
Import Crawler.
Import RegexFacts.

#[local] Arguments String.append !_ _ / : simpl nomatch.

(** The specification counts the characters that are not whitespace. *)
Fixpoint nonWhitespace (s : string) : nat :=
  match s with
  | EmptyString => 0
  | String c rest =>
      if isWhiteSpace c then nonWhitespace rest else S (nonWhitespace rest)
  end.

(** No pattern of [spaSignals] matches. *)
Definition noSignal (html : string) : Prop :=
  existsb (fun pattern => test pattern html) spaSignals = false.

(** The content of the body once the script blocks are removed. *)
Definition withoutScripts (inner : string) : string :=
  replaceAll scriptPattern "" inner.

(** [n] copies of [s]. *)
Fixpoint copies (n : nat) (s : string) : string :=
  match n with
  | O => EmptyString
  | S n' => s ++ copies n' s
  end.

(** A page whose body holds 150 letters, each followed by a space, and a
    page whose body is an empty mount point. *)
Definition spacedPage : string := "<body>" ++ copies 150 "a " ++ "</body>".

Definition denseText : string := copies 300 "a".

Definition densePage : string := "<body>" ++ denseText ++ "</body>".

Definition rootPage : string :=
  "<body><div id=" ++ String "034" "root" ++ String "034" "></div></body>".

Lemma nonWhitespace_le s : nonWhitespace s ≤ String.length s.
Proof.
  induction s as [|c s IH]; simpl; [done|].
  destruct (isWhiteSpace c); lia.
Qed.

Lemma nonWhitespace_trimStart s : nonWhitespace (trimStart s) = nonWhitespace s.
Proof.
  induction s as [|c s IH]; simpl; [done|].
  destruct (isWhiteSpace c) eqn:E; [done|]. simpl. by rewrite E.
Qed.

Lemma nonWhitespace_trimEnd s : nonWhitespace (trimEnd s) = nonWhitespace s.
Proof.
  induction s as [|c s IH]; simpl; [done|].
  destruct (trimEnd s) as [|c' s'] eqn:E.
  - simpl in IH. rewrite <- IH.
    destruct (isWhiteSpace c) eqn:Ec; simpl; [done|by rewrite Ec].
  - change (nonWhitespace (String c (String c' s'))
            = if isWhiteSpace c then nonWhitespace s else S (nonWhitespace s)).
    rewrite <- IH. reflexivity.
Qed.

Lemma nonWhitespace_trim s : nonWhitespace (trim s) = nonWhitespace s.
Proof.
  unfold trim. by rewrite nonWhitespace_trimEnd, nonWhitespace_trimStart.
Qed.

(** When no signal fires and the page has a body, the decision is the
    comparison of the length of the trimmed content with 200. *)
Lemma needsBrowser_body html inner :
  noSignal html → bodyMatch html = Some inner →
  needsBrowser html
  = Nat.ltb (String.length (trim (withoutScripts inner))) 200.
Proof.
  unfold noSignal, needsBrowser, withoutScripts. intros -> ->.
  by destruct (Nat.ltb _ 200).
Qed.

(** *** The body element of a page *)

(** [b] spells [a], up to the case of letters: what flag [i] compares. *)
Fixpoint sameLetters (a b : string) : bool :=
  match a, b with
  | EmptyString, EmptyString => true
  | String x a', String y b' =>
      Ascii.eqb (canonicalize x) (canonicalize y) && sameLetters a' b'
  | _, _ => false
  end.

(** [input] starts with a spelling of [l]. *)
Fixpoint startsWith (l input : string) : bool :=
  match l, input with
  | EmptyString, _ => true
  | String x l', String y input' =>
      Ascii.eqb (canonicalize x) (canonicalize y) && startsWith l' input'
  | String _ _, EmptyString => false
  end.

(** No character of [l] is, up to case, the character [c]. *)
Definition avoids (c : ascii) (l : string) : bool :=
  allOf (λ x, negb (Ascii.eqb (canonicalize x) (canonicalize c))) l.

Lemma run_lit {A} (l s rest : string) caps (k : string → captures → option A) :
  sameLetters l s = true → run (lit l) (s ++ rest) caps k = k rest caps.
Proof.
  revert s. induction l as [|x l IH]; intros [|y s] H; simpl in *; try done.
  apply andb_prop in H as [Hx Hl]. rewrite Hx. by apply IH.
Qed.

Lemma run_lit_fail {A} (l input : string) caps
    (k : string → captures → option A) :
  startsWith l input = false → run (lit l) input caps k = None.
Proof.
  revert input. induction l as [|x l IH]; intros [|y s] H; simpl in *;
    try done.
  destruct (Ascii.eqb (canonicalize x) (canonicalize y)); [|done].
  by apply IH.
Qed.

Lemma run_lit_some {A} (l input : string) caps
    (k : string → captures → option A) :
  (∀ rest, is_Some (k rest caps)) → startsWith l input = true →
  is_Some (run (lit l) input caps k).
Proof.
  intros Hk. revert input.
  induction l as [|x l IH]; intros [|y s] H; simpl in *; try done.
  apply andb_prop in H as [Hx Hl]. rewrite Hx. by apply IH.
Qed.

(** A pattern that starts with a literal is not found where no spelling of
    the literal starts. *)
Lemma test_lit_false (l : string) (c : ascii) (a : string) :
  test (lit l) (String c a) = false →
  startsWith l (String c a) = false ∧ test (lit l) a = false.
Proof.
  unfold test. cbn [search]. intros H.
  destruct (startsWith l (String c a)) eqn:E.
  - assert (Hs : is_Some (run (lit l) (String c a) []
                            (λ _ _, Some ()))).
    { apply run_lit_some; [by eexists|done]. }
    destruct Hs as [u Hu]. by rewrite Hu in H.
  - split; [done|].
    destruct (run (lit l) (String c a) [] (λ _ _, Some ())); [done|].
    exact H.
Qed.

(** A spelling of [l] that starts in [a] does not run on into a text whose
    first character is none of the later characters of [l]. *)
Lemma startsWith_within (l : string) (x c : ascii) (a b : string) :
  avoids c l = true → startsWith (String x l) (a ++ String c b) = true →
  a ≠ "" → startsWith (String x l) a = true.
Proof.
  revert x a. induction l as [|x' l IH]; intros x a Hl H Ha.
  - destruct a as [|y a]; [done|]. simpl in *.
    by destruct (Ascii.eqb (canonicalize x) (canonicalize y)).
  - destruct a as [|y a]; [done|].
    cbn [String.append startsWith] in H.
    change (startsWith (String x (String x' l)) (String y a))
      with (Ascii.eqb (canonicalize x) (canonicalize y)
            && startsWith (String x' l) a).
    apply andb_prop in H as [Hx H]. rewrite Hx. cbn [andb].
    unfold avoids in Hl. cbn [allOf] in Hl.
    apply andb_prop in Hl as [Hx' Hl].
    destruct a as [|y' a].
    + cbn [String.append startsWith] in H.
      apply andb_prop in H as [Hc _]. by rewrite Hc in Hx'.
    + by apply IH.
Qed.

Lemma search_after {A} (x c : ascii) (l a b : string) (r : regex)
    (k : string → captures → option A) :
  avoids c l = true → test (lit (String x l)) a = false →
  search (Seq (lit (String x l)) r) (a ++ String c b) k
  = search (Seq (lit (String x l)) r) (String c b) k.
Proof.
  intros Hl. induction a as [|y a IH]; intros Ha; [done|].
  apply test_lit_false in Ha as [Hstart Ha].
  cbn [String.append search]. cbn [run].
  rewrite run_lit_fail; [by apply IH|].
  destruct (startsWith (String x l) (String y (a ++ String c b))) eqn:E;
    [|done].
  apply (startsWith_within l x c (String y a) b) in E; [|done|done].
  congruence.
Qed.

Lemma starGreedy_stop {A} (p : ascii → bool) (a : string) (c : ascii)
    (rest : string) (k : string → option A) :
  allOf p a = true → p c = false →
  (∀ y a', p y = true → k (String y a') = None) →
  starGreedy p (a ++ String c rest) k = k (String c rest).
Proof.
  intros Ha Hc Hk. induction a as [|y a IH]; simpl.
  - by rewrite Hc.
  - simpl in Ha. apply andb_prop in Ha as [Hy Ha]. rewrite Hy, (IH Ha).
    destruct (k (String c rest)); [done|]. by apply Hk.
Qed.

Lemma starLazy_unfold {A} (p : ascii → bool) (input : string)
    (k : string → option A) :
  starLazy p input k
  = match k input with
    | Some a => Some a
    | None => match input with
              | String c rest => if p c then starLazy p rest k else None
              | EmptyString => None
              end
    end.
Proof. by destruct input. Qed.

Lemma starLazy_first {A} (p : ascii → bool) (a rest : string)
    (k : string → option A) (v : A) :
  allOf p a = true →
  (∀ a1 y a2, a = a1 ++ String y a2 → k (String y a2 ++ rest) = None) →
  k rest = Some v →
  starLazy p (a ++ rest) k = Some v.
Proof.
  intros Ha Hk Hv. induction a as [|y a IH].
  - simpl. by rewrite starLazy_unfold, Hv.
  - simpl in Ha. apply andb_prop in Ha as [Hy Ha].
    cbn [String.append]. rewrite starLazy_unfold.
    change (String y (a ++ rest)) with (String y a ++ rest).
    rewrite (Hk "" y a) by done. cbn [String.append]. rewrite Hy.
    apply IH; [done|]. intros a1 z a2 E. apply (Hk (String y a1)).
    simpl. by rewrite E.
Qed.

Lemma take_append (a b : string) : take (String.length a) (a ++ b) = a.
Proof. induction a as [|c a IH]; simpl; [by destruct b|by rewrite IH]. Qed.

Lemma length_append (a b : string) :
  String.length (a ++ b) = String.length a + String.length b.
Proof. induction a as [|c a IH]; simpl; [done|by rewrite IH]. Qed.

Lemma consumed_app (a b : string) : consumed (a ++ b) b = a.
Proof.
  unfold consumed. rewrite length_append.
  replace (String.length a + String.length b - String.length b)
    with (String.length a) by lia.
  apply take_append.
Qed.

Lemma accepts_anyChar (s : string) : allOf (accepts anyChar) s = true.
Proof.
  induction s as [|c s IH]; [done|]. cbn [allOf]. rewrite IH.
  change (accepts anyChar c) with (isWhiteSpace c || negb (isWhiteSpace c)).
  by destruct (isWhiteSpace c).
Qed.

Lemma sameLetters_startsWith (l s rest : string) :
  sameLetters l s = true → startsWith l (s ++ rest) = true.
Proof.
  revert s. induction l as [|x l IH]; intros [|y s] H; simpl in *; try done.
  apply andb_prop in H as [Hx Hl]. rewrite Hx. by apply IH.
Qed.

Lemma avoids_same (c c' : ascii) (l : string) :
  Ascii.eqb (canonicalize c') (canonicalize c) = true →
  avoids c l = avoids c' l.
Proof. intros H. apply Ascii.eqb_eq in H. unfold avoids. by rewrite H. Qed.

Lemma test_lit_suffix (l a1 : string) (y : ascii) (a2 : string) :
  test (lit l) (a1 ++ String y a2) = false →
  startsWith l (String y a2) = false.
Proof.
  induction a1 as [|c a1 IH]; intros H.
  - by apply test_lit_false in H as [? _].
  - cbn [String.append] in H. apply test_lit_false in H as [_ H]. by apply IH.
Qed.

(** A page with a body element: the text [pre], the opening tag with its
    attributes, the content [inner], the closing tag and the text [post]. *)
Definition pageWithBody (pre opening attributes inner closing post : string)
    : string :=
  pre ++ opening ++ attributes ++ ">" ++ inner ++ closing ++ post.

Section Body.

Variables (pre opening attributes inner closing post : string).

(** The tags are spelled in any case of letters.  The element is the first of
    the page and ends at the first closing tag: there is no opening tag in
    [pre], no [>] among the attributes and no closing tag in [inner]. *)
Hypothesis opening_spelled : sameLetters "<body" opening = true.
Hypothesis closing_spelled : sameLetters "</body>" closing = true.
Hypothesis pre_plain : test (lit "<body") pre = false.
Hypothesis attributes_plain : allOf (accepts notGt) attributes = true.
Hypothesis inner_plain : test (lit "</body>") inner = false.

Lemma bodyPattern_here :
  run bodyPattern
    (opening ++ attributes ++ ">" ++ inner ++ closing ++ post) []
    (λ _ caps, Some caps)
  = Some [(1, inner)].
Proof.
  unfold bodyPattern. cbn [seq]. cbn [run].
  rewrite (run_lit "<body" opening) by done.
  change (attributes ++ ">" ++ inner ++ closing ++ post)
    with (attributes ++ String ">" (inner ++ closing ++ post)).
  rewrite starGreedy_stop; [|done|done|].
  - change (String ">" (inner ++ closing ++ post))
      with (">" ++ (inner ++ closing ++ post)).
    rewrite (run_lit ">" ">") by done.
    destruct closing as [|cl closing'] eqn:Ecl; [done|].
    assert (Hcl : Ascii.eqb (canonicalize "<") (canonicalize cl) = true).
    { simpl in closing_spelled.
      by apply andb_prop in closing_spelled as [? _]. }
    rewrite <- Ecl in *.
    apply starLazy_first.
    + apply accepts_anyChar.
    + intros a1 y a2 E. apply run_lit_fail.
      destruct (startsWith "</body>" (String y a2 ++ closing ++ post)) eqn:Es;
        [|done].
      rewrite Ecl in Es.
      change (String cl closing' ++ post) with (String cl (closing' ++ post))
        in Es.
      apply startsWith_within in Es; [| |done].
      * rewrite E in inner_plain. apply test_lit_suffix in inner_plain.
        congruence.
      * by rewrite (avoids_same cl "<").
    + rewrite (run_lit "</body>" closing) by done. cbn [run].
      by rewrite consumed_app.
  - intros y a' Hy. cbn [lit run].
    change (accepts notGt y) with (negb (accepts (Chr ">") y)) in Hy.
    by destruct (accepts (Chr ">") y).
Qed.

Lemma bodyMatch_page :
  bodyMatch (pageWithBody pre opening attributes inner closing post)
  = Some inner.
Proof.
  pose proof bodyPattern_here as Hhere.
  unfold bodyMatch, exec, pageWithBody.
  destruct opening as [|o opening'] eqn:Eo; [done|].
  assert (Ho : Ascii.eqb (canonicalize "<") (canonicalize o) = true).
  { simpl in opening_spelled.
    by apply andb_prop in opening_spelled as [? _]. }
  change (String o opening' ++ attributes ++ ">" ++ inner ++ closing ++ post)
    with (String o (opening' ++ attributes ++ ">" ++ inner ++ closing ++ post)).
  change bodyPattern
    with (Seq (lit "<body")
            (seq [Star notGt; lit ">"; Group 1 (StarLazy anyChar);
                  lit "</body>"])).
  rewrite search_after; [| |done].
  - change (Seq (lit "<body")
              (seq [Star notGt; lit ">"; Group 1 (StarLazy anyChar);
                    lit "</body>"]))
      with bodyPattern.
    cbn [search].
    change (String o (opening' ++ attributes ++ ">" ++ inner ++ closing ++ post))
      with (String o opening' ++ attributes ++ ">" ++ inner ++ closing ++ post).
    by rewrite Hhere.
  - by rewrite (avoids_same o "<").
Qed.

End Body.

(** With the content of the body at hand, the decision is a comparison of
    lengths. *)
Lemma needsBrowser_by_length html inner :
  noSignal html → bodyMatch html = Some inner →
  (String.length (trim (withoutScripts inner)) < 200 →
   needsBrowser html = true)
  ∧ (200 ≤ String.length (trim (withoutScripts inner)) →
     needsBrowser html = false)
  ∧ (200 ≤ nonWhitespace (withoutScripts inner) →
     needsBrowser html = false).
Proof.
  intros Hsig Hbody. rewrite (needsBrowser_body _ _ Hsig Hbody).
  split; [|split].
  - intros H. by apply Nat.ltb_lt.
  - intros H. apply Nat.ltb_ge. lia.
  - intros H. apply Nat.ltb_ge.
    pose proof (nonWhitespace_le (trim (withoutScripts inner))) as Hle.
    rewrite nonWhitespace_trim in Hle. lia.
Qed.

(** C4, as the code has it.  Take a page that holds a body element: some
    text, the opening tag of the body with its attributes, the content, the
    closing tag and some more text, the two tags spelled in any case of
    letters, where the element is the first of the page and ends at the
    first closing tag, even one inside a script (no opening tag before it, no
    [>] among the attributes, no closing tag in the content).  The pattern
    of the body captures this content.  When no earlier signal fires, the
    decision is true when the content, script blocks removed and whitespace
    trimmed at both ends, is shorter than 200 characters, whitespace inside
    it counted, and false otherwise; it is false in particular when the
    content has 200 characters or more that are not whitespace. *)
Theorem needsBrowser_of_first_body
    (pre opening attributes inner closing post : string) :
  sameLetters "<body" opening = true →
  sameLetters "</body>" closing = true →
  test (lit "<body") pre = false →
  allOf (accepts notGt) attributes = true →
  test (lit "</body>") inner = false →
  let html := pageWithBody pre opening attributes inner closing post in
  noSignal html →
  bodyMatch html = Some inner
  ∧ (String.length (trim (withoutScripts inner)) < 200 →
     needsBrowser html = true)
  ∧ (200 ≤ String.length (trim (withoutScripts inner)) →
     needsBrowser html = false)
  ∧ (200 ≤ nonWhitespace (withoutScripts inner) →
     needsBrowser html = false).
Proof.
  intros Hopen Hclose Hpre Hattrs Hinner html Hsig.
  pose proof (bodyMatch_page pre opening attributes inner closing post
                Hopen Hclose Hpre Hattrs Hinner) as Hbody.
  split; [done|]. by apply needsBrowser_by_length.
Qed.

(** A page whose first closing body tag stands in a script, before 300
    letters of text. *)
Definition scriptedPage : string :=
  pageWithBody "<html>" "<BODY" " class='x'" "<script>var s='" "</body>"
    ("';</script>" ++ denseText ++ "</Body></html>").

Lemma needsBrowser_of_first_body_witness :
  bodyMatch scriptedPage = Some "<script>var s='"
  ∧ needsBrowser scriptedPage = true
  ∧ needsBrowser (pageWithBody "" "<body" "" denseText "</body>" "") = false.
Proof.
  destruct (needsBrowser_of_first_body "<html>" "<BODY" " class='x'"
              "<script>var s='" "</body>"
              ("';</script>" ++ denseText ++ "</Body></html>"))
    as (Hbody & Hshort & _); [reflexivity..|vm_compute; reflexivity|].
  destruct (needsBrowser_of_first_body "" "<body" "" denseText "</body>" "")
    as (_ & _ & _ & Hdense); [reflexivity..|vm_compute; reflexivity|].
  split; [exact Hbody|]. split.
  - apply Hshort. vm_compute. lia.
  - apply Hdense. vm_compute. lia.
Defined.

(** The body of [spacedPage] has 150 characters that are not whitespace,
    fewer than 200, no signal fires, and the decision is false: the 149
    spaces between the letters count towards the 200. *)
Lemma needsBrowser_counts_inner_whitespace :
  existsb (fun pattern => test pattern spacedPage) spaSignals = false
  ∧ bodyMatch spacedPage = Some (copies 150 "a ")
  ∧ nonWhitespace (withoutScripts (copies 150 "a ")) = 150
  ∧ String.length (trim (withoutScripts (copies 150 "a "))) = 299
  ∧ needsBrowser spacedPage = false.
Proof. vm_compute. repeat split; reflexivity. Qed.

(** The examples of the specification: an empty mount point as the only
    content of the body, and a body of 300 visible characters. *)
Lemma needsBrowser_examples :
  needsBrowser rootPage = true ∧ needsBrowser densePage = false.
Proof. vm_compute. split; reflexivity. Qed.

(** *** The patterns on small inputs *)

Definition nl : string := String "010" EmptyString.
Definition dq : string := String "034" EmptyString.

Lemma emptyContainer_examples :
  test (emptyContainer "root") ("<div id='root'> " ++ nl ++ " </div>") = true
  ∧ test (emptyContainer "root") "<div id='root'>x</div>" = false
  ∧ test (emptyContainer "root") "<div id='roots'></div>" = false
  ∧ test (emptyContainer "app")
      ("<p>x</p><DIV class=a ID=" ++ dq ++ "app" ++ dq ++ " data-x></DIV>")
    = true
  ∧ test (emptyContainer "__next") "<div id='__next'></div><p>" = true.
Proof. vm_compute. repeat split; reflexivity. Qed.

Lemma noscriptWarning_examples :
  test (noscriptWarning "enable javascript")
    "<noscript>Please Enable JavaScript to continue</noscript>" = true
  ∧ test (noscriptWarning "enable javascript")
      ("<noscript>" ++ nl ++ "Please enable javascript</noscript>") = false
  ∧ test (noscriptWarning "javascript is required")
      "<NOSCRIPT class=w><b>JavaScript is required</b>" = true
  ∧ test (noscriptWarning "javascript is required")
      "<p>javascript is required</p>" = false.
Proof. vm_compute. repeat split; reflexivity. Qed.

Lemma bodyMatch_examples :
  bodyMatch "<html><body class=x>hi</body> tail </body></html>" = Some "hi"
  ∧ bodyMatch "<BODY>a<body>b</BoDy>c" = Some "a<body>b"
  ∧ bodyMatch "<body>never closed" = None
  ∧ bodyMatch "<p>no body</p>" = None.
Proof. vm_compute. repeat split; reflexivity. Qed.

Lemma withoutScripts_examples :
  withoutScripts "a<script>1</script>b<SCRIPT src=x></script>c" = "abc"
  ∧ withoutScripts "a<script>never closed" = "a<script>never closed"
  ∧ withoutScripts "<script><script></script>x</script>" = "x</script>"
  ∧ trim ("  a b " ++ nl) = "a b"
  ∧ trim ("   " ++ nl) = "".
Proof. vm_compute. repeat split; reflexivity. Qed.

End CrawlerFacts.

(** ** Fingerprint store *)

Module StoreFacts.

Import Detector.

Section Load.

Context {R : Runtime}.

Definition fails (r : Thrown + json) : Prop := ∃ e, r = inl e.

(** C3, as the code has it.  Loading throws exactly when the file cannot be
    read, when its text is not JSON, when the document is [null], or when
    the document has no member [technologies] or has [null] there.  The
    member [categories] plays no part. *)
Theorem loadFingerprints_fails_iff (fileContent : option string) :
  fails (loadFingerprints fileContent)
  ↔ fileContent = None
    ∨ ∃ text, fileContent = Some text
        ∧ (JSON_parse text = None
           ∨ ∃ document, JSON_parse text = Some document
               ∧ (document = JNull
                  ∨ member document "technologies" = inr None
                  ∨ member document "technologies" = inr (Some JNull))).
Proof.
  unfold fails, loadFingerprints. split.
  - destruct fileContent as [text|]; [|by left]. intros [e He]. right.
    exists text. split; [done|].
    destruct (JSON_parse text) as [document|]; [|by left]. right.
    exists document. split; [done|].
    destruct document as [ |b|n|s|items|fields]; simpl in *; auto;
      try discriminate.
    destruct (get fields "technologies") as [t|]; [|auto].
    destruct t; simpl in He; try discriminate. auto.
  - intros [->|(text & -> & [->|(document & -> & H)])];
      [by eexists|by eexists|].
    destruct H as [->|[H|H]]; [by eexists| |]; rewrite H; by eexists.
Qed.

End Load.

(** A document with [technologies] and without [categories] is loaded. *)
Lemma loadFingerprints_without_categories :
  ∃ document,
    JSON_parse (Runtime := Reference.runtime) Reference.noCategoriesText
    = Some document
    ∧ member document "technologies" = inr (Some (JObj []))
    ∧ member document "categories" = inr None
    ∧ loadFingerprints (R := Reference.runtime)
        (Some Reference.noCategoriesText) = inr document.
Proof. eexists. repeat split; reflexivity. Qed.

End StoreFacts.

(** ** Normalizer *)

Module NormalizerFacts.

Import JsFacts.
Import Detector.
Import Normalizer.

(** *** The order of [sort] *)

Lemma string_compare_refl (s : string) : String.compare s s = Eq.
Proof.
  induction s as [|c s IH]; simpl; [done|].
  assert (Ascii.compare c c = Eq) as ->; [|done].
  unfold Ascii.compare. apply N.compare_refl.
Qed.

Lemma le_compare (a b : string) :
  String.le a b ↔ a = b ∨ String.compare a b = Lt.
Proof.
  unfold String.le, String.leb. destruct (String.compare a b) eqn:E; simpl.
  - apply String.compare_eq_iff in E. tauto.
  - tauto.
  - split; [done|]. intros [->|?]; [|done].
    by rewrite string_compare_refl in E.
Qed.

Lemma sort_sorted (l : list string) : StronglySorted String.le (sort l).
Proof. apply StronglySorted_merge_sort; apply _. Qed.

Lemma sort_perm (l : list string) : sort l ≡ₚ l.
Proof. apply merge_sort_Permutation. Qed.

(** There is one sorted arrangement of a list. *)
Lemma sort_unique (l l' : list string) :
  l' ≡ₚ l → StronglySorted String.le l' → l' = sort l.
Proof.
  intros Hperm Hsorted.
  apply (StronglySorted_unique String.le); [done|apply sort_sorted|].
  by rewrite sort_perm.
Qed.

(** *** Objects built by [normalize] *)

Lemma includes_elem (l : list string) (x : string) :
  includes l x = true ↔ x ∈ l.
Proof.
  unfold includes. rewrite existsb_exists. split.
  - intros (y & Hin & Heq). apply String.eqb_eq in Heq. subst.
    by apply list_elem_of_In.
  - intros Hin. exists x. split; [by apply list_elem_of_In|].
    apply String.eqb_refl.
Qed.

Lemma get_map_values {A B} (f : A → B) (o : Obj A) (key : string) :
  get (map (λ '(k, v), (k, f v)) o) key = f <$> get o key.
Proof.
  induction o as [|[k v] o IH]; simpl; [done|].
  destruct (String.eqb k key); [done|apply IH].
Qed.

Lemma get_push_eq {T} (o : Obj (list T)) (key : string) (x : T) l :
  get o key = Some l → get (push o key x) key = Some (l ++ [x])%list.
Proof. intros H. unfold push. rewrite H. apply get_set_eq. Qed.

Lemma get_push_ne {T} (o : Obj (list T)) (key key' : string) (x : T) :
  key ≠ key' → get (push o key x) key' = get o key'.
Proof.
  intros Hne. unfold push. destruct (get o key); [|done].
  by apply get_set_ne.
Qed.

(** *** What the first loop collects *)

Section Collect.

Context {R : Runtime}.

Implicit Types (ds : list Detection) (d : Detection) (c : string).

(** The specification's reading: the detections filed under a category, in
    the order of the input, each technology name counted at its first
    occurrence. *)
Definition filedUnder c ds : list Detection :=
  filter (λ d, categoryOf d = c) ds.

Fixpoint firstByName ds : list Detection :=
  match ds with
  | [] => []
  | d :: rest => d :: filter (λ d', name d' ≠ name d) (firstByName rest)
  end.

Definition namesOf c ds : list string :=
  map name (firstByName (filedUnder c ds)).

Definition scoresOf c ds : list number :=
  map Detector.confidence (firstByName (filedUnder c ds)).

Lemma firstByName_snoc ds d :
  firstByName (ds ++ [d])
  = if decide (name d ∈ map name ds) then firstByName ds
    else (firstByName ds ++ [d])%list.
Proof.
  induction ds as [|a ds IH]; simpl.
  - done.
  - rewrite IH. destruct (decide (name d ∈ map name ds)) as [Hin|Hin].
    + rewrite decide_True; [done|by right].
    + rewrite filter_app. destruct (decide (name d = name a)) as [E|E].
      * rewrite decide_True by (rewrite E; left).
        rewrite filter_cons_False by (intros H; by apply H).
        by rewrite filter_nil, app_nil_r.
      * rewrite decide_False.
        -- by rewrite filter_cons_True, filter_nil by done.
        -- intros [H|H]%elem_of_cons; [by apply E|by apply Hin].
Qed.

Lemma firstByName_names ds (x : string) :
  x ∈ map name (firstByName ds) ↔ x ∈ map name ds.
Proof.
  induction ds as [|a ds IH]; simpl; [done|].
  rewrite !elem_of_cons, <- IH. rewrite !list_elem_of_fmap.
  split.
  - intros [->|(y & -> & Hy)]; [by left|].
    apply list_elem_of_filter in Hy as [_ Hy]. right. by exists y.
  - intros [->|(y & -> & Hy)]; [by left|].
    destruct (decide (name y = name a)) as [E|E]; [by left|].
    right. exists y. split; [done|]. by apply list_elem_of_filter.
Qed.

Lemma firstByName_NoDup ds : NoDup (map name (firstByName ds)).
Proof.
  induction ds as [|a ds IH]; simpl; [apply NoDup_nil_2|].
  apply NoDup_cons. split.
  - rewrite list_elem_of_fmap. intros (y & E & Hy).
    apply list_elem_of_filter in Hy as [Hne _]. by apply Hne.
  - eapply sublist_NoDup; [exact IH|].
    apply (fmap_sublist name), sublist_filter.
Qed.

(** The state after the first loop. *)
Definition collected ds : Obj (list string) * Obj (list number) :=
  fold_left collect ds ([], []).

Lemma collect_other (st : Obj (list string) * Obj (list number)) d c :
  c ≠ categoryOf d →
  get (collect st d).1 c = get st.1 c ∧ get (collect st d).2 c = get st.2 c.
Proof.
  intros Hne. destruct st as [T C]. unfold collect. simpl.
  assert (Hne' : categoryOf d ≠ c) by congruence.
  destruct (get T (categoryOf d)) as [listed|] eqn:E.
  - rewrite E. destruct (includes listed (name d)); simpl; [done|].
    by rewrite !get_push_ne.
  - rewrite get_set_eq. simpl.
    by rewrite !get_push_ne, !get_set_ne.
Qed.

Lemma collect_same (st : Obj (list string) * Obj (list number)) d :
  match get st.1 (categoryOf d) with
  | None =>
      get (collect st d).1 (categoryOf d) = Some [name d]
      ∧ get (collect st d).2 (categoryOf d) = Some [Detector.confidence d]
  | Some listed =>
      if includes listed (name d)
      then get (collect st d).1 (categoryOf d) = Some listed
           ∧ get (collect st d).2 (categoryOf d) = get st.2 (categoryOf d)
      else get (collect st d).1 (categoryOf d) = Some (listed ++ [name d])%list
           ∧ get (collect st d).2 (categoryOf d)
             = (λ scores, (scores ++ [Detector.confidence d])%list)
                 <$> get st.2 (categoryOf d)
  end.
Proof.
  destruct st as [T C]. unfold collect. simpl.
  destruct (get T (categoryOf d)) as [listed|] eqn:E.
  - rewrite E. destruct (includes listed (name d)); simpl; [done|].
    split; [by apply get_push_eq|].
    unfold push. destruct (get C (categoryOf d)) eqn:EC; simpl.
    + apply get_set_eq.
    + done.
  - rewrite get_set_eq. simpl. split.
    + apply (get_push_eq _ _ _ []), get_set_eq.
    + apply (get_push_eq _ _ _ []), get_set_eq.
Qed.

Lemma filedUnder_snoc c ds d :
  filedUnder c (ds ++ [d])
  = if decide (categoryOf d = c) then (filedUnder c ds ++ [d])%list
    else filedUnder c ds.
Proof.
  unfold filedUnder. rewrite filter_app, filter_cons, filter_nil.
  destruct (decide (categoryOf d = c)); [done|apply app_nil_r].
Qed.

(** The loop files, under every category, the names and the confidences of
    the specification's reading. *)
Lemma collected_spec ds c :
  get (collected ds).1 c
  = match filedUnder c ds with [] => None | _ => Some (namesOf c ds) end
  ∧ get (collected ds).2 c
    = match filedUnder c ds with [] => None | _ => Some (scoresOf c ds) end.
Proof.
  revert c. induction ds as [|d ds IH] using rev_ind; intros c; [done|].
  unfold collected. rewrite fold_left_app. simpl.
  fold (collected ds). rewrite filedUnder_snoc.
  unfold namesOf, scoresOf. rewrite filedUnder_snoc.
  destruct (decide (categoryOf d = c)) as [<-|Hne].
  - pose proof (collect_same (collected ds) d) as Hsame.
    destruct (IH (categoryOf d)) as [IH1 IH2]. rewrite IH1 in Hsame.
    rewrite firstByName_snoc.
    destruct (filedUnder (categoryOf d) ds) as [|d0 fu] eqn:Efu.
    + simpl. exact Hsame.
    + assert (Hnonempty : ∀ x : Detection,
                ((d0 :: fu) ++ [x])%list = d0 :: (fu ++ [x])%list) by done.
      rewrite Hnonempty. unfold namesOf in Hsame. rewrite Efu in Hsame.
      destruct (includes _ (name d)) eqn:Einc.
      * apply includes_elem in Einc. rewrite firstByName_names in Einc.
        rewrite decide_True by done. rewrite IH2 in Hsame.
        unfold scoresOf in Hsame. by rewrite Efu in Hsame.
      * rewrite decide_False.
        -- rewrite !map_app. simpl. rewrite IH2 in Hsame.
           unfold scoresOf in Hsame. by rewrite Efu in Hsame.
        -- intros Hin. rewrite <- firstByName_names in Hin.
           apply includes_elem in Hin. congruence.
  - destruct (collect_other (collected ds) d c) as [-> ->]; [congruence|].
    apply IH.
Qed.

End Collect.


(** *** The output of [normalize] *)

Section Output.

Context {R : Runtime}.

Implicit Types (ds : list Detection) (c : string).

Lemma normalize_technologies ds c :
  get (technologies (normalize ds)) c = sort <$> get (collected ds).1 c.
Proof.
  unfold normalize. fold (collected ds).
  destruct (collected ds) as [T C]. simpl. apply get_map_values.
Qed.

Lemma normalize_confidence ds c :
  get (confidence (normalize ds)) c
  = (λ scores, toFixed2 (average scores)) <$> get (collected ds).2 c.
Proof.
  unfold normalize. fold (collected ds).
  destruct (collected ds) as [T C]. simpl. apply get_map_values.
Qed.

Lemma sorted_strictly (l : list string) :
  NoDup l → StronglySorted String.le l →
  StronglySorted (λ a b, String.ltb a b = true) l.
Proof.
  intros Hnd Hs. induction Hs as [|x l Hs IH Hx]; [constructor|].
  apply NoDup_cons in Hnd as [Hnotin Hnd].
  constructor; [by apply IH|].
  rewrite Forall_forall in Hx |- *. intros y Hy.
  specialize (Hx y Hy). apply le_compare in Hx as [->|Hlt]; [done|].
  unfold String.ltb. by rewrite Hlt.
Qed.

(** C9.  Every list of technology names in the output holds no name twice
    and is in ascending order of code units (upper case before lower case);
    it holds the names of the detections filed under its category. *)
Theorem normalize_lists_sorted_without_duplicates ds c (names : list string) :
  get (technologies (normalize ds)) c = Some names →
  NoDup names
  ∧ StronglySorted String.le names
  ∧ StronglySorted (λ a b, String.ltb a b = true) names
  ∧ names ≡ₚ namesOf c ds.
Proof.
  rewrite normalize_technologies.
  destruct (collected_spec ds c) as [-> _].
  destruct (filedUnder c ds) eqn:E; [done|]. simpl. intros [= <-].
  assert (Hnd : NoDup (sort (namesOf c ds))).
  { rewrite sort_perm. apply firstByName_NoDup. }
  split; [done|]. split; [apply sort_sorted|].
  split; [|apply sort_perm].
  apply sorted_strictly; [done|apply sort_sorted].
Qed.

End Output.

(** *** Rounding *)

(** The specification's reading of the confidence: the mean of the values,
    as a rational, rounded half-up to hundredths. *)
Definition exactMean (scores : list number) : Q :=
  (fold_right Qplus 0 (map toQ scores) / inject_Z (Z.of_nat (length scores)))%Q.

Definition roundHalfUp2 (q : Q) : Z := Qfloor (q * 100 + (1 # 2))%Q.

(** The number that the decimal [n / 100] denotes. *)
Definition decimal2 (n : Z) : number := div (ofZ n) (ofZ 100).

Lemma hundredths_roundHalfUp2 (m : positive) (e : Z) :
  (e < 0)%Z →
  hundredths m e = roundHalfUp2 (toQ (S754_finite false m e)).
Proof.
  intros He. unfold hundredths, roundHalfUp2, toQ.
  assert ((0 <=? e)%Z = false) as -> by lia.
  set (P := Pos.pow 2 (Z.to_pos (- e))).
  assert (HP : Z.pos P = (2 ^ (- e))%Z).
  { unfold P. rewrite Pos2Z.inj_pow. f_equal. rewrite Z2Pos.id; lia. }
  assert (H2 : (2 ^ (1 - e) = 2 * 2 ^ (- e))%Z).
  { replace (1 - e)%Z with (Z.succ (- e)) by lia.
    rewrite Z.pow_succ_r; lia. }
  rewrite H2, <- HP.
  unfold Qfloor, Qplus, Qmult. cbn [Qnum Qden].
  rewrite !Pos2Z.inj_mul. f_equal; lia.
Qed.

(** The numbers on which [toFixed(2)] is followed digit by digit here: zero,
    and the positive numbers with a fractional bit whose hundredths stay
    below 2^53.  Every confidence between 0 and 1 is one of them. *)
Definition roundable (x : number) : Prop :=
  match x with
  | S754_zero _ => True
  | S754_finite false m e =>
      (e < 0)%Z ∧ (roundHalfUp2 (toQ x) < 2 ^ 53)%Z
  | _ => False
  end.

Lemma toFixed2_rounds_half_up (x : number) :
  roundable x → toFixed2 x = decimal2 (roundHalfUp2 (toQ x)).
Proof.
  destruct x as [s|s| |[|] m e]; try done.
  intros [He Hn]. rewrite <- hundredths_roundHalfUp2 in * by done.
  unfold toFixed2, decimal2.
  assert ((0 <=? e)%Z = false) as -> by lia.
  assert ((2 ^ 53 <=? hundredths m e)%Z = false) as -> by lia.
  reflexivity.
Qed.

Section Confidence.

Context {R : Runtime}.

(** C8, as the code has it.  The confidence of a category is the mean of the
    confidences of its technologies, each technology counted once, computed
    in double precision (the sum from left to right, then the division by
    the count, each rounded to the nearest number), and that number rounded
    half-up to two decimals. *)
Theorem normalize_confidence_rounds_double_mean (ds : list Detection) (c : string) :
  filedUnder c ds ≠ [] →
  get (confidence (normalize ds)) c
  = Some (toFixed2 (average (scoresOf c ds)))
  ∧ (roundable (average (scoresOf c ds)) →
     get (confidence (normalize ds)) c
     = Some (decimal2 (roundHalfUp2 (toQ (average (scoresOf c ds)))))).
Proof.
  intros Hne.
  assert (Hget : get (confidence (normalize ds)) c
                 = Some (toFixed2 (average (scoresOf c ds)))).
  { rewrite normalize_confidence.
    destruct (collected_spec ds c) as [_ ->].
    by destruct (filedUnder c ds). }
  split; [done|]. intros Hmean. rewrite Hget. f_equal.
  by apply toFixed2_rounds_half_up.
Qed.

End Confidence.

(** *** Sample detections *)

Definition detected (n cat : string) (conf : number) : Detection :=
  {| name := n; category := cat; categoryId := ofZ 22; version := None;
     Detector.confidence := conf; source := Header; pattern := None |}.

Definition half : number := div (ofZ 1) (ofZ 2).

(** Three web servers with confidences 1, 1 and 0.5; one of them is listed
    twice. *)
Definition webServers : list Detection :=
  [ detected "lighttpd" "Web Servers" one;
    detected "Caddy" "Web Servers" one;
    detected "lighttpd" "Web Servers" half;
    detected "OpenResty" "Web Servers" half ].

(** Two technologies with confidences 0.01 and 0.02. *)
Definition faintServers : list Detection :=
  [ detected "Caddy" "Web Servers" (decimal2 1);
    detected "OpenResty" "Web Servers" (decimal2 2) ].

(** Double precision at work: 0.1 + 0.2 is 0.30000000000000004, a mean of
    thirds is not a third, and [toFixed(2)] rounds the number it is given,
    not the decimal it was written as: 0.125 goes up to 0.13, while 1.005 and
    0.015, which lie below the decimals of these names, go down. *)
Lemma number_examples :
  add (div (ofZ 1) (ofZ 10)) (div (ofZ 2) (ofZ 10))
  = S754_finite false 5404319552844596 (-54)
  ∧ average [one; one; half] = S754_finite false 7505999378950827 (-53)
  ∧ toFixed2 (div (ofZ 1) (ofZ 8)) = decimal2 13
  ∧ toFixed2 (div (ofZ 1005) (ofZ 1000)) = decimal2 100
  ∧ toFixed2 (div (ofZ 15) (ofZ 1000)) = decimal2 1
  ∧ toFixed2 one = one
  ∧ toFixed2 (SFopp (div (ofZ 1) (ofZ 8))) = SFopp (decimal2 13).
Proof. vm_compute. repeat split; reflexivity. Qed.

Lemma normalize_lists_sorted_without_duplicates_witness :
  NoDup ["Caddy"; "OpenResty"; "lighttpd"]
  ∧ StronglySorted String.le ["Caddy"; "OpenResty"; "lighttpd"]
  ∧ StronglySorted (λ a b, String.ltb a b = true)
      ["Caddy"; "OpenResty"; "lighttpd"]
  ∧ ["Caddy"; "OpenResty"; "lighttpd"]
    ≡ₚ namesOf (R := Reference.runtime) "web_servers" webServers.
Proof.
  apply (normalize_lists_sorted_without_duplicates
           (R := Reference.runtime) webServers "web_servers").
  reflexivity.
Defined.

(** The example of the specification: confidences 1, 1 and 0.5 give 0.83. *)
Lemma normalize_confidence_rounds_double_mean_witness :
  scoresOf (R := Reference.runtime) "web_servers" webServers
  = [one; one; half]
  ∧ get (confidence (normalize (R := Reference.runtime) webServers))
      "web_servers"
    = Some (decimal2 83).
Proof.
  split; [reflexivity|].
  destruct (normalize_confidence_rounds_double_mean
              (R := Reference.runtime) webServers "web_servers")
    as [_ Hround]; [discriminate|].
  apply Hround. vm_compute. split; reflexivity.
Defined.

(** Confidences 0.01 and 0.02: their mean, rounded half-up to two decimals,
    is 0.02, and [normalize] answers 0.01.  The sum of the two numbers is
    rounded to the number below it, which puts the quotient below 0.015. *)
Lemma normalize_confidence_is_not_the_exact_mean :
  scoresOf (R := Reference.runtime) "web_servers" faintServers
  = [decimal2 1; decimal2 2]
  ∧ roundHalfUp2
      (exactMean (scoresOf (R := Reference.runtime) "web_servers" faintServers))
    = 2%Z
  ∧ get (confidence (normalize (R := Reference.runtime) faintServers))
      "web_servers"
    = Some (decimal2 1)
  ∧ decimal2 1 ≠ decimal2 2.
Proof.
  split; [reflexivity|]. split; [vm_compute; reflexivity|].
  split; [vm_compute; reflexivity|]. vm_compute. discriminate.
Qed.

End NormalizerFacts.


(** * Further properties of the services *)

(** ** The matchers of the detector *)

Module MatcherFacts.

Import JsFacts.
Import Detector.
Import DetectorFacts.

#[local] Arguments String.append !_ _ / : simpl nomatch.

(** [s.includes(c)] for a character. *)
Fixpoint hasChar (c : ascii) (s : string) : bool :=
  match s with
  | EmptyString => false
  | String x rest => Ascii.eqb x c || hasChar c rest
  end.





Section Cookies.

Context {R : Runtime}.



End Cookies.


(** A runtime whose RegExp constructor rejects the pattern that opens a group
    and never closes it, as every engine does; other patterns are read as
    by the reference runtime. *)
Definition strictRuntime : Runtime :=
  {| regexTest := λ pattern value,
       if String.eqb pattern "(" then None
       else Reference.literalTest pattern value;
     toLowerCase := Reference.asciiLower;
     parseInt := Reference.decimalInt;
     JSON_parse := Reference.sampleParse |}.

Section Throwing.

Context {R : Runtime}.

Local Open Scope list_scope.

(** A pattern that the RegExp constructor rejects. *)
Definition throws (pattern : string) : Prop :=
  ∀ value, regexTest pattern value = None.

Lemma tryTest_throws pattern value : throws pattern → tryTest pattern value = false.
Proof. intros H. unfold tryTest. by rewrite H. Qed.

(** X2.  A pattern that throws is skipped: every matcher answers as if the
    pattern were not in the rule, so that the patterns before and after it are
    all tried. *)
Theorem throwing_pattern_is_skipped (bad : string) :
  throws bad →
  (∀ before after html,
     matchHtml (PArray (before ++ bad :: after)) html
     = matchHtml (PArray (before ++ after)) html)
  ∧ (∀ before after scripts,
       matchScripts (PArray (before ++ bad :: after)) scripts
       = matchScripts (PArray (before ++ after)) scripts)
  ∧ (∀ (before after : Obj string) key headers,
       matchHeaders (before ++ (key, bad) :: after) headers
       = matchHeaders (before ++ after) headers)
  ∧ (∀ (before after : Obj StrOrArr) key meta,
       matchMeta (before ++ (key, One bad) :: after) meta
       = matchMeta (before ++ after) meta)
  ∧ (∀ (before after : Obj StrOrArr) key l1 l2 meta,
       matchMeta (before ++ (key, Many (l1 ++ bad :: l2)) :: after) meta
       = matchMeta (before ++ (key, Many (l1 ++ l2)) :: after) meta).
Proof.
  intros Hbad.
  assert (Hlist : ∀ (f : string → bool) before after,
            f bad = false →
            existsb f (before ++ bad :: after) = existsb f (before ++ after)).
  { intros f before after Hf. rewrite !existsb_app. simpl. by rewrite Hf. }
  split; [|split; [|split; [|split]]].
  - intros before after html. unfold matchHtml. simpl.
    apply Hlist. by apply tryTest_throws.
  - intros before after scripts. unfold matchScripts. simpl.
    apply Hlist. induction scripts as [|s scripts IH]; simpl; [done|].
    by rewrite tryTest_throws.
  - intros before after key headers. unfold matchHeaders.
    rewrite !existsb_app. simpl.
    destruct (get headers (toLowerCase key)); [|done].
    by rewrite tryTest_throws, andb_false_r.
  - intros before after key meta. unfold matchMeta.
    rewrite !existsb_app. simpl.
    destruct (get meta (toLowerCase key)); [|done].
    by rewrite tryTest_throws, andb_false_r.
  - intros before after key l1 l2 meta. unfold matchMeta.
    rewrite !existsb_app. simpl.
    destruct (get meta (toLowerCase key)) as [value|]; [|done].
    rewrite (Hlist (λ p, tryTest p value)); [done|].
    by apply tryTest_throws.
Qed.

End Throwing.

Lemma throwing_pattern_is_skipped_witness :
  matchHtml (R := strictRuntime) (PArray ["("; "wp-content"])
    "<link href='/wp-content/a.css'>" = true
  ∧ matchHeaders (R := strictRuntime) [("Server", "("); ("X-Powered-By", "php")]
      [("server", "nginx"); ("x-powered-by", "PHP/8")] = true.
Proof.
  destruct (throwing_pattern_is_skipped (R := strictRuntime) "(")
    as (Hhtml & _ & Hheaders & _); [done|].
  split.
  - rewrite (Hhtml [] ["wp-content"]). reflexivity.
  - rewrite (Hheaders [] [("X-Powered-By", "php")] "Server"). reflexivity.
Defined.

End MatcherFacts.

(** ** The run of the detector *)

Module RunFacts.

Import JsFacts.
Import Detector.
Import DetectorFacts.

Section Matched.

Context {R : Runtime} (db : WappalyzerDatabase) (crawlResult : Crawler.CrawlResult).




End Matched.


Section Fields.

Context {R : Runtime} (db : WappalyzerDatabase) (crawlResult : Crawler.CrawlResult).

(** The sources that [detect] writes. *)
Definition written (s : Source) : Prop := In s kinds ∨ s = Implied.

Lemma detectTech_adds_written (detections : Map Detection) n tech :
  (n, tech) ∈ technologies db →
  rtc (adds db written) detections
      (detectTech db crawlResult detections (n, tech)).
Proof.
  intros Hin. rewrite detectTech_firstMatching.
  destruct (firstMatching crawlResult tech) as [kind|] eqn:E; [|done].
  apply addDetection_adds; [by left|]. left.
  unfold firstMatching in E. by apply find_some in E as [? _].
Qed.

Lemma matchFrom_adds_written (l : Obj WappalyzerTechnology)
    (detections : Map Detection) :
  (∀ e, e ∈ l → e ∈ technologies db) →
  rtc (adds db written) detections
      (fold_left (detectTech db crawlResult) l detections).
Proof.
  revert detections. induction l as [|[n tech] l IH]; intros detections Hl.
  - done.
  - cbn [fold_left]. etrans.
    + apply detectTech_adds_written. apply Hl. left.
    + apply IH. intros e He. apply Hl. by right.
Qed.

Lemma categoryNameOf_nonempty (catId : string) : categoryNameOf db catId ≠ "".
Proof.
  unfold categoryNameOf, truthy.
  destruct (categoryNameAt db catId) as [c|]; [|done].
  destruct (String.eqb c "") eqn:E; simpl; [done|].
  by apply String.eqb_neq.
Qed.

Lemma detect_created (det : Detection) :
  det ∈ detect db crawlResult →
  ∃ tech,
    known db (name det) tech (source det) ∧ written (source det)
    ∧ det = created db (name det) tech one (source det).
Proof.
  intros Hdet. apply elem_of_detect in Hdet.
  assert (Hfrom : rtc (adds db written) []
            (processImplications db (matchAll db crawlResult))).
  { etrans.
    - unfold matchAll. by apply matchFrom_adds_written.
    - eapply rtc_adds_weaken; [|apply processImplications_adds].
      intros s ->. by right. }
  destruct (rtc_adds_get_new db _ _ _ _ _ Hfrom Hdet)
    as [Hnil|(_ & Hsrc & tech & Hin & Hcreated)]; [done|].
  by exists tech.
Qed.

(** X4.  Every detection that [detect] returns is a detection either of a
    rule of the store, under the name of that rule, or, with source implied,
    of a member that the store inherits from [Object.prototype] under a name
    for which it has no rule of its own; such a member counts as a rule with
    no field.  Its confidence is 1, its category is not the empty string,
    its category id is read from the first category id of the rule (from 1
    when the rule has none), it carries no version and no pattern, and its
    source is one of header, cookie, script, html, meta and implied. *)
Theorem detect_writes_detections_of_rules (det : Detection) :
  det ∈ detect db crawlResult →
  ∃ tech,
    ((name det, tech) ∈ technologies db
     ∨ (source det = Implied
        ∧ get (technologies db) (name det) = None
        ∧ is_Some (get Object_prototype (name det))
        ∧ tech = inheritedRule))
    ∧ confidence det = one
    ∧ category det ≠ ""
    ∧ categoryId det = parseInt (primaryCat tech)
    ∧ version det = None ∧ pattern det = None
    ∧ source det ∈ [Header; Cookie; Script; Html; Meta; Implied].
Proof.
  intros Hdet.
  destruct (detect_created det Hdet) as (tech & Hin & Hsrc & Hcreated).
  exists tech. split; [exact Hin|].
  generalize dependent (source det). intros s _ Hsrc ->. simpl.
  split; [done|]. split; [apply categoryNameOf_nonempty|].
  split; [done|]. split; [done|]. split; [done|].
  destruct Hsrc as [Hk| ->].
  - unfold kinds in Hk. simpl in Hk.
    destruct Hk as [<-|[<-|[<-|[<-|[<-|[]]]]]];
      repeat first [left | right].
  - repeat first [left | right].
Qed.

End Fields.

(** A store whose only rule implies a name that it has no rule for, but that
    every object inherits, and a page that the rule matches. *)
Definition inheritingStore : WappalyzerDatabase :=
  {| categories := [];
     technologies :=
       [ ("A",
          {| cats := None; implies := Some (Many ["toString"]);
             headers := Some [("Server", "")];
             meta := None; html := None; scripts := None;
             cookies := None |}) ] |}.

Lemma inheritingStore_detect :
  map (λ det, (name det, source det))
    (detect (R := Reference.runtime) inheritingStore nginxPage)
  = [("A", Header); ("toString", Implied)].
Proof. reflexivity. Qed.

Lemma detect_writes_detections_of_rules_witness :
  ∃ tech,
    (("toString", tech) ∈ technologies inheritingStore
     ∨ (Implied = Implied
        ∧ get (technologies inheritingStore) "toString" = None
        ∧ is_Some (get Object_prototype "toString")
        ∧ tech = inheritedRule))
    ∧ confidence (created (R := Reference.runtime) inheritingStore "toString"
                    inheritedRule one Implied) = one.
Proof.
  destruct (detect_writes_detections_of_rules
              (R := Reference.runtime) inheritingStore nginxPage
              (created (R := Reference.runtime) inheritingStore "toString"
                 inheritedRule one Implied))
    as (tech & Hin & Hconf & _).
  - right. left.
  - exists tech. split; [exact Hin|exact Hconf].
Defined.

Section Resolved.

Context {R : Runtime} (db : WappalyzerDatabase).

Implicit Types (detections : Map Detection).

(** What the resolver may append to a map: detections with source implied
    and confidence 1, under names that the map does not hold, of rules of
    the store or of members that the store inherits under a name for which
    it has no rule of its own. *)
Definition impliedEntry detections (e : string * Detection) : Prop :=
  has detections e.1 = false
  ∧ ∃ tech,
      ((e.1, tech) ∈ technologies db
       ∨ (get (technologies db) e.1 = None
          ∧ is_Some (get Object_prototype e.1)
          ∧ tech = inheritedRule))
      ∧ e.2 = created db e.1 tech one Implied.

(** X5.  The resolver keeps the detections it is given, in their order, and
    appends to them: what it appends are detections with source implied and
    confidence 1, each under a name that was not detected, no name twice,
    and each the detection of a rule of the store or of a member that the
    store inherits from [Object.prototype] under a name for which it has no
    rule of its own. *)
Theorem processImplications_appends_implied detections :
  ∃ ext,
    processImplications db detections = (detections ++ ext)%list
    ∧ Forall (impliedEntry detections) ext
    ∧ NoDup (keys ext).
Proof.
  generalize (processImplications_adds db detections).
  generalize (processImplications db detections). intros detections'.
  induction 1 as [x|x y z Hxy _ IH].
  - exists []. rewrite app_nil_r. split; [done|].
    split; [constructor|apply NoDup_nil_2].
  - destruct IH as (ext & -> & Hall & Hnd).
    destruct Hxy as [d n tech s Hfresh Hin ->].
    assert (Hrule : (n, tech) ∈ technologies db
              ∨ (get (technologies db) n = None
                 ∧ is_Some (get Object_prototype n)
                 ∧ tech = inheritedRule)).
    { destruct Hin as [Hin|[_ Hin]]; [by left|by right]. }
    exists ((n, created db n tech one Implied) :: ext).
    rewrite <- app_assoc. split; [done|].
    assert (Hweak : ∀ e, impliedEntry (d ++ [(n, created db n tech one Implied)])%list e →
                         impliedEntry d e ∧ e.1 ≠ n).
    { intros e [He Ht]. unfold has in He. rewrite get_app in He.
      destruct (get d e.1) eqn:E; [done|]. simpl in He.
      destruct (String.eqb n e.1) eqn:E'; [done|].
      apply String.eqb_neq in E'. split; [|congruence].
      split; [|done]. unfold has. by rewrite E. }
    split.
    + constructor.
      * split; [done|]. by exists tech.
      * eapply Forall_impl; [exact Hall|]. intros e He. by apply Hweak.
    + simpl. apply NoDup_cons. split; [|done].
      unfold keys. rewrite list_elem_of_fmap. intros ([k v] & Hk & He).
      simpl in Hk. subst k. rewrite Forall_forall in Hall.
      destruct (Hweak _ (Hall _ He)) as [_ Hne]. by apply Hne.
Qed.

(** A set of names that is closed under the implications of the store: with
    a name that has a rule, it holds every name that the rule implies and
    under which the store has something, a rule of its own or a member that
    it inherits. *)
Definition closedNames (K : string → Prop) : Prop :=
  ∀ n tech m,
    K n → get (technologies db) n = Some tech → m ∈ impliedNames tech →
    is_Some (technologyOf db m) → K m.

Definition namesIn (K : string → Prop) detections : Prop :=
  ∀ det, det ∈ values detections → K (name det).

Lemma namesIn_app K detections n tech s :
  namesIn K detections → K n →
  namesIn K (detections ++ [(n, created db n tech one s)])%list.
Proof.
  intros Hd Hn det. unfold values. rewrite map_app, elem_of_app.
  intros [H|H]; [by apply Hd|].
  simpl in H. apply list_elem_of_singleton in H. by subst det.
Qed.

Lemma implyName_namesIn K (st : Map Detection * bool) m :
  namesIn K st.1 → (is_Some (technologyOf db m) → K m) →
  namesIn K (implyName db st m).1.
Proof.
  destruct st as [d changed]. unfold implyName. simpl. intros Hd Hm.
  destruct (has d m) eqn:Hhas; [done|].
  destruct (technologyOf db m) as [tech|] eqn:Hget; [|done].
  simpl. rewrite addDetection_fresh by done.
  apply namesIn_app; [done|]. apply Hm. by eexists.
Qed.

Lemma implyNames_namesIn K (l : list string) (st : Map Detection * bool) :
  namesIn K st.1 →
  (∀ m, m ∈ l → is_Some (technologyOf db m) → K m) →
  namesIn K (fold_left (implyName db) l st).1.
Proof.
  revert st. induction l as [|m l IH]; intros st Hst Hl; [done|].
  simpl. apply IH.
  - apply implyName_namesIn; [done|]. apply Hl. left.
  - intros m' Hm'. apply Hl. by right.
Qed.

Lemma implyDet_namesIn K (st : Map Detection * bool) det :
  closedNames K → namesIn K st.1 → K (name det) →
  namesIn K (implyDet db st det).1.
Proof.
  intros HK Hst Hdet. rewrite implyDet_fold.
  apply implyNames_namesIn; [done|].
  intros m Hm Hrule. unfold impliedBy, technologyOf in Hm.
  destruct (get (technologies db) (name det)) as [tech|] eqn:E.
  - by apply (HK (name det) tech m).
  - destruct (get Object_prototype (name det)); by apply elem_of_nil in Hm.
Qed.

Lemma scan_namesIn K detections :
  closedNames K → namesIn K detections →
  namesIn K (scan db detections).1.
Proof.
  intros HK Hd. unfold scan.
  assert (H : ∀ (l : list Detection) (st : Map Detection * bool),
            namesIn K st.1 → (∀ det, det ∈ l → K (name det)) →
            namesIn K (fold_left (implyDet db) l st).1).
  { induction l as [|det l IH]; intros st Hst Hl; [done|].
    simpl. apply IH.
    - apply implyDet_namesIn; [done|done|]. apply Hl. left.
    - intros det' Hdet'. apply Hl. by right. }
  apply H; [done|]. exact Hd.
Qed.

Lemma processLoop_namesIn K fuel detections result :
  closedNames K → namesIn K detections →
  processLoop db fuel detections = Some result → namesIn K result.
Proof.
  intros HK. revert detections.
  induction fuel as [|fuel IH]; intros detections Hd; [done|].
  simpl. pose proof (scan_namesIn K detections HK Hd) as Hscan.
  destruct (scan db detections) as [detections' changed]. simpl in Hscan.
  destruct changed; [by apply IH|]. by intros [= <-].
Qed.

(** X6.  The resolver adds no more than the implications ask for: whenever a set
    of names holds the names of the detections it is given and is closed
    under the implications of the store, it holds the names of all the
    detections that the resolver returns.  A closed set holds, with a name
    that has a rule, every name that the rule implies and under which the
    store has a rule of its own or a member inherited from
    [Object.prototype].  With [processImplications_closed], the result is the
    least closed set above the input. *)
Theorem processImplications_least (K : string → Prop) detections :
  closedNames K →
  (∀ det, det ∈ values detections → K (name det)) →
  ∀ det, det ∈ values (processImplications db detections) → K (name det).
Proof.
  intros HK Hd.
  destruct (processLoop_enough db detections) as (result & Hfuel & <- & _).
  eapply (processLoop_namesIn K); [done|exact Hd|].
  apply (Hfuel (S (length (technologies db)))). lia.
Qed.

End Resolved.

(** On the store of the cycle, extended with a rule that nothing implies, the
    names A and B are closed: resolving a detection of A never reaches the
    third rule. *)
Definition cycleAndBystander : WappalyzerDatabase :=
  {| categories := [];
     technologies := (technologies cyclicStore ++ [("C", bareRule)])%list |}.

Lemma processImplications_least_witness :
  Forall (λ det, name det = "A" ∨ name det = "B")
    (values (processImplications (R := Reference.runtime) cycleAndBystander
               [("A", created (R := Reference.runtime) cycleAndBystander
                        "A" bareRule one Header)])).
Proof.
  apply Forall_forall.
  apply (processImplications_least (R := Reference.runtime) cycleAndBystander
           (λ n, n = "A" ∨ n = "B")).
  - intros n tech m [-> | ->] Hget Hm _; simpl in Hget;
      injection Hget as <-; simpl in Hm;
      apply list_elem_of_singleton in Hm; auto.
  - intros det Hdet. simpl in Hdet. apply list_elem_of_singleton in Hdet.
    subst det. by left.
Defined.

Section ObjectPatterns.

Context {R : Runtime} (db : WappalyzerDatabase) (crawlResult : Crawler.CrawlResult).



End ObjectPatterns.




End RunFacts.

(** ** What the detector reports *)

Module ReportFacts.

Import JsFacts.
Import Detector.
Import DetectorFacts.
Import RunFacts.

Section Report.

Context {R : Runtime} (db : WappalyzerDatabase) (crawlResult : Crawler.CrawlResult).

(** The names that the page reaches: those of the rules whose evidence
    matches, and those that the rule of a reached name implies and under
    which the store has something, a rule of its own or a member that it
    inherits from [Object.prototype]. *)
Inductive reached : string → Prop :=
| reached_matched n tech :
    (n, tech) ∈ technologies db →
    is_Some (firstMatching crawlResult tech) → reached n
| reached_implied n tech m :
    reached n → get (technologies db) n = Some tech →
    m ∈ impliedNames tech → is_Some (technologyOf db m) → reached m.

Lemma reached_closed : closedNames db reached.
Proof. intros n tech m Hn Hget Hm Hsome. by eapply reached_implied. Qed.

Lemma matchAll_reached :
  NoDup (keys (technologies db)) →
  namesIn reached (matchAll db crawlResult).
Proof.
  intros Hnd det Hdet.
  apply wellKeyed_values in Hdet; [|apply matchAll_wellKeyed].
  destruct (rtc_adds_get_new db _ _ _ _ _ (matchAll_adds db crawlResult) Hdet)
    as [Hnil|(_ & Hsrc & tech & [Hin|[Himplied _]] & _)]; [done| |done].
  apply (reached_matched _ tech); [done|].
  unfold matchAll in Hdet.
  rewrite (matchFrom_get_in db crawlResult _ _ _ tech) in Hdet by done.
  by destruct (firstMatching crawlResult tech); [eexists|].
Qed.

(** X8.  The names that [detect] reports are the names that the page reaches:
    the name of every rule whose evidence matches, every name that the rule
    of a reported name implies and under which the store has a rule of its
    own or a member inherited from [Object.prototype], and no other. *)
Theorem detect_reports_the_reached_rules (n : string) :
  NoDup (keys (technologies db)) →
  (∃ det, det ∈ detect db crawlResult ∧ name det = n) ↔ reached n.
Proof.
  intros Hnd. split.
  - intros (det & Hdet & <-). unfold detect in Hdet.
    destruct (processLoop_enough db (matchAll db crawlResult))
      as (result & Hfuel & Hresult & _).
    rewrite <- Hresult in Hdet.
    eapply (processLoop_namesIn db reached);
      [apply reached_closed|by apply matchAll_reached| |exact Hdet].
    apply (Hfuel (S (length (technologies db)))). lia.
  - induction 1 as [n tech Hin Hfirst|n tech m Hn IH Hget Hm Hsome].
    + destruct Hfirst as [kind Hfirst].
      exists (created db n tech one kind). split; [|done].
      by apply detect_matched.
    + destruct IH as (det & Hdet & Hname).
      pose proof (processImplications_closed db (matchAll db crawlResult))
        as Hclosed.
      unfold closed in Hclosed. rewrite Forall_forall in Hclosed.
      specialize (Hclosed det Hdet). rewrite Forall_forall in Hclosed.
      assert (Hm' : m ∈ impliedBy db det).
      { unfold impliedBy. by rewrite Hname, (technologyOf_own db _ _ Hget). }
      destruct (Hclosed m Hm') as [Hhas|Hnone].
      * apply has_true in Hhas as [d Hd]. exists d.
        pose proof (wellKeyed_get_name _ _ _
                      (resolved_wellKeyed db crawlResult) Hd) as Hdn.
        split; [|done]. apply elem_of_detect. by rewrite Hdn.
      * rewrite Hnone in Hsome. by destruct Hsome.
Qed.

End Report.

(** A store in which Next.js, known by a header, implies React, and a page
    that carries the header. *)
Definition nextStore : WappalyzerDatabase :=
  {| categories := [];
     technologies :=
       [ ("Next.js",
          {| cats := None; implies := Some (One "React");
             headers := Some [("X-Powered-By", "Next.js")];
             meta := None; html := None; scripts := None; cookies := None |});
         ("React", bareRule);
         ("Vue.js", bareRule) ] |}.

Definition nextPage : Crawler.CrawlResult :=
  withHeaders [("x-powered-by", "Next.js")].

Lemma detect_reports_the_reached_rules_witness :
  ∃ det, det ∈ detect (R := Reference.runtime) nextStore nextPage
         ∧ name det = "React".
Proof.
  apply (detect_reports_the_reached_rules (R := Reference.runtime)
           nextStore nextPage "React").
  - apply (bool_decide_unpack (NoDup (keys (technologies nextStore)))).
    vm_compute. exact I.
  - eapply (reached_implied _ _ "Next.js").
    + eapply reached_matched; [left|]. by eexists.
    + reflexivity.
    + left.
    + by eexists.
Defined.

End ReportFacts.


(** ** The result of the normalizer *)

Module ResultFacts.

Import JsFacts.
Import Detector.
Import DetectorFacts.
Import Normalizer.
Import NormalizerFacts.

Lemma keys_set_present {V} (o : Obj V) (k : string) (v w : V) :
  get o k = Some w → keys (set o k v) = keys o.
Proof.
  induction o as [|[k' v'] o IH]; simpl; [done|].
  destruct (String.eqb k' k) eqn:E; simpl; [done|].
  intros H. by rewrite IH.
Qed.

Lemma keys_set_fresh {V} (o : Obj V) (k : string) (v : V) :
  get o k = None → keys (set o k v) = (keys o ++ [k])%list.
Proof. intros H. rewrite set_fresh by done. unfold keys. by rewrite map_app. Qed.

Lemma keys_push {T} (o : Obj (list T)) (k : string) (x : T) :
  keys (push o k x) = keys o.
Proof.
  unfold push. destruct (get o k) eqn:E; [|done].
  by eapply keys_set_present.
Qed.

Lemma keys_map_values {A B} (f : A → B) (o : Obj A) :
  keys (map (λ '(k, v), (k, f v)) o) = keys o.
Proof. induction o as [|[k v] o IH]; simpl; [done|]. by f_equal. Qed.

Section Categories.

Context {R : Runtime}.

Implicit Types (ds : list Detection) (c : string).

Lemma collect_keys (st : Obj (list string) * Obj (list number)) d :
  keys st.1 = keys st.2 → keys (collect st d).1 = keys (collect st d).2.
Proof.
  destruct st as [T C]. simpl. intros Hk. unfold collect.
  destruct (get T (categoryOf d)) as [listed|] eqn:E.
  - rewrite E. destruct (includes listed (name d)); simpl; [done|].
    by rewrite !keys_push.
  - rewrite get_set_eq. simpl. rewrite !keys_push.
    rewrite !keys_set_fresh; [by rewrite Hk|..|done].
    apply get_None_keys. rewrite <- Hk. by apply get_None_keys.
Qed.

Lemma collected_keys ds : keys (collected ds).1 = keys (collected ds).2.
Proof.
  induction ds as [|d ds IH] using rev_ind; [done|].
  unfold collected. rewrite fold_left_app. simpl. by apply collect_keys.
Qed.

Lemma namesOf_elem ds c (n : string) :
  n ∈ namesOf c ds ↔ ∃ d, d ∈ ds ∧ categoryOf d = c ∧ name d = n.
Proof.
  unfold namesOf. rewrite firstByName_names, list_elem_of_fmap.
  unfold filedUnder. split.
  - intros (d & -> & Hd). apply list_elem_of_filter in Hd as [? ?].
    by exists d.
  - intros (d & Hd & Hc & <-). exists d. split; [done|].
    by apply list_elem_of_filter.
Qed.

Lemma filedUnder_nil ds c :
  filedUnder c ds = [] ↔ ¬ ∃ d, d ∈ ds ∧ categoryOf d = c.
Proof.
  unfold filedUnder. split.
  - intros E (d & Hd & Hc).
    assert (Hd' : d ∈ filter (λ d, categoryOf d = c) ds)
      by (by apply list_elem_of_filter).
    rewrite E in Hd'. by apply elem_of_nil in Hd'.
  - intros H. destruct (filter _ ds) as [|d l] eqn:E; [done|].
    exfalso. apply H. exists d.
    assert (Hd : d ∈ filter (λ d, categoryOf d = c) ds) by (rewrite E; left).
    apply list_elem_of_filter in Hd as [? ?]. done.
Qed.

Lemma normalize_get ds c :
  get (technologies (normalize ds)) c
  = match filedUnder c ds with
    | [] => None
    | _ => Some (sort (namesOf c ds))
    end.
Proof.
  rewrite normalize_technologies. destruct (collected_spec ds c) as [-> _].
  by destruct (filedUnder c ds).
Qed.

Lemma listed_name_detected ds c names (n : string) :
  get (technologies (normalize ds)) c = Some names → n ∈ names →
  ∃ d, d ∈ ds ∧ categoryOf d = c ∧ name d = n.
Proof.
  rewrite normalize_get. destruct (filedUnder c ds); [done|].
  intros [= <-] Hn. rewrite sort_perm in Hn. by apply namesOf_elem.
Qed.

Lemma normalize_keys ds :
  keys (technologies (normalize ds)) = keys (collected ds).1.
Proof.
  unfold normalize. fold (collected ds). destruct (collected ds) as [T C].
  simpl. apply keys_map_values.
Qed.

Lemma normalize_keys_confidence ds :
  keys (confidence (normalize ds)) = keys (collected ds).2.
Proof.
  unfold normalize. fold (collected ds). destruct (collected ds) as [T C].
  simpl. apply keys_map_values.
Qed.

(** X9.  The two objects of the result have the same categories, in the same
    order, and no category is listed without a technology: a category has a
    list of names exactly when a detection is filed under it, and then it has
    a confidence. *)
Theorem normalize_categories ds :
  keys (technologies (normalize ds)) = keys (confidence (normalize ds))
  ∧ ∀ c,
      (is_Some (get (technologies (normalize ds)) c)
       ↔ ∃ d, d ∈ ds ∧ categoryOf d = c)
      ∧ (is_Some (get (technologies (normalize ds)) c)
         ↔ is_Some (get (confidence (normalize ds)) c))
      ∧ get (technologies (normalize ds)) c ≠ Some [].
Proof.
  split.
  - rewrite normalize_keys, normalize_keys_confidence. apply collected_keys.
  - intros c. rewrite normalize_technologies, normalize_confidence.
    destruct (collected_spec ds c) as [-> ->].
    assert (Hfiled : filedUnder c ds ≠ [] ↔ ∃ d, d ∈ ds ∧ categoryOf d = c).
    { unfold filedUnder. split.
      - destruct (filter _ ds) as [|d l] eqn:E; [done|]. intros _.
        assert (Hd : d ∈ filter (λ d, categoryOf d = c) ds)
          by (rewrite E; left).
        apply list_elem_of_filter in Hd as [? ?]. by exists d.
      - intros (d & Hd & Hc) E.
        assert (Hd' : d ∈ filter (λ d, categoryOf d = c) ds)
          by (by apply list_elem_of_filter).
        rewrite E in Hd'. by apply elem_of_nil in Hd'. }
    rewrite <- Hfiled. unfold namesOf.
    destruct (filedUnder c ds) as [|d l] eqn:E; simpl.
    + split; [|split; [|done]]; split; intros H; try done;
        by destruct H.
    + split; [|split].
      * split; [done|]. intros _. by eexists.
      * split; intros _; by eexists.
      * intros [= H].
        assert (Hlen : length (sort (name d :: map name
                         (filter (λ d', name d' ≠ name d) (firstByName l)))) = 0)
          by (by rewrite H).
        rewrite sort_perm in Hlen. done.
Qed.

(** X10.  No detection is lost and none is invented: a name is listed under a
    category exactly when some detection of that name is filed under that
    category. *)
Theorem normalize_lists_the_detected_names ds c (n : string) :
  (∃ names, get (technologies (normalize ds)) c = Some names ∧ n ∈ names)
  ↔ ∃ d, d ∈ ds ∧ categoryOf d = c ∧ name d = n.
Proof.
  split.
  - intros (names & Hget & Hn). by eapply listed_name_detected.
  - intros Hd. rewrite normalize_get.
    apply namesOf_elem in Hd. destruct (filedUnder c ds) eqn:E.
    + unfold namesOf in Hd. rewrite E in Hd. by apply elem_of_nil in Hd.
    + exists (sort (namesOf c ds)). split; [done|]. by rewrite sort_perm.
Qed.

(** *** Counting the listed names *)

Definition listed (o : Obj (list string)) : nat :=
  sum_list_with (λ e, length e.2) o.

Lemma listed_set_present (o : Obj (list string)) k l l' :
  get o k = Some l → listed (set o k l') + length l = listed o + length l'.
Proof.
  unfold listed. induction o as [|[k0 v0] o IH]; simpl; [done|].
  destruct (String.eqb k0 k) eqn:E; simpl.
  - intros [= ->]. lia.
  - intros H. specialize (IH H). lia.
Qed.

Lemma listed_set_fresh (o : Obj (list string)) k :
  get o k = None → listed (set o k []) = listed o.
Proof.
  intros H. rewrite set_fresh by done. unfold listed.
  rewrite sum_list_with_app. simpl. lia.
Qed.

Lemma listed_push (o : Obj (list string)) k x l :
  get o k = Some l → listed (push o k x) = S (listed o).
Proof.
  intros H. unfold push. rewrite H.
  pose proof (listed_set_present o k l (l ++ [x])%list H) as Hs.
  rewrite length_app in Hs. simpl in Hs. lia.
Qed.

Lemma listed_sorted (o : Obj (list string)) :
  listed (map (λ '(c, names), (c, sort names)) o) = listed o.
Proof.
  unfold listed. induction o as [|[k v] o IH]; simpl; [done|].
  rewrite IH. f_equal. apply Permutation_length, sort_perm.
Qed.

(** The category and the name under which a detection is listed. *)
Definition entryOf (d : Detection) : string * string := (categoryOf d, name d).

Lemma entryOf_elem ds d :
  entryOf d ∈ map entryOf ds
  ↔ ∃ d', d' ∈ ds ∧ categoryOf d' = categoryOf d ∧ name d' = name d.
Proof.
  rewrite list_elem_of_fmap. unfold entryOf. split.
  - intros (d' & [= Hc Hn] & Hd'). by exists d'.
  - intros (d' & Hd' & Hc & Hn). exists d'. by rewrite Hc, Hn.
Qed.

Lemma collect_listed ds d :
  listed (collect (collected ds) d).1
  = listed (collected ds).1
    + (if decide (entryOf d ∈ map entryOf ds) then 0 else 1).
Proof.
  destruct (collected_spec ds (categoryOf d)) as [Hget _].
  pose proof (entryOf_elem ds d) as Hentry.
  pose proof (namesOf_elem ds (categoryOf d) (name d)) as Hnames.
  pose proof (filedUnder_nil ds (categoryOf d)) as Hnil.
  unfold collect. destruct (collected ds) as [T C]. simpl in *.
  destruct (get T (categoryOf d)) as [l|] eqn:E.
  - rewrite E. destruct (filedUnder (categoryOf d) ds) eqn:Ef; [done|].
    injection Hget as ->.
    destruct (includes (namesOf (categoryOf d) ds) (name d)) eqn:Einc; simpl.
    + apply includes_elem in Einc. rewrite decide_True; [lia|].
      apply Hentry, Hnames, Einc.
    + rewrite decide_False.
      * rewrite (listed_push _ _ _ _ E). lia.
      * intros Hin. apply Hentry, Hnames, includes_elem in Hin. congruence.
  - rewrite get_set_eq. simpl.
    rewrite (listed_push _ _ _ [] (get_set_eq _ _ _)).
    rewrite listed_set_fresh by done.
    destruct (filedUnder (categoryOf d) ds) eqn:Ef; [|done].
    rewrite decide_False; [lia|].
    intros Hin. apply Hentry in Hin as (d' & Hd' & Hc & _).
    destruct Hnil as [Hnil _]. apply Hnil; [done|]. by exists d'.
Qed.

Lemma collected_listed_distinct ds :
  NoDup (map entryOf ds) → listed (collected ds).1 = length ds.
Proof.
  induction ds as [|d ds IH] using rev_ind; [done|].
  rewrite map_app, NoDup_app. intros (Hnd & Hdisj & _).
  unfold collected. rewrite fold_left_app. simpl. fold (collected ds).
  rewrite collect_listed, length_app, (IH Hnd). simpl.
  rewrite decide_False; [done|].
  intros Hin. apply (Hdisj _ Hin). left.
Qed.

Lemma normalize_listed ds :
  listed (technologies (normalize ds)) = listed (collected ds).1.
Proof.
  unfold normalize. fold (collected ds). destruct (collected ds) as [T C].
  simpl. apply listed_sorted.
Qed.

Lemma normalize_rawCount ds : rawCount (normalize ds) = length ds.
Proof. unfold normalize. by destruct (fold_left collect ds ([], [])). Qed.

(** X11.  [rawCount] counts the detections given, the lists count the technologies
    listed: the lists never hold more, and they hold as many exactly when no
    two detections have the same name in the same category. *)
Theorem normalize_lists_at_most_rawCount ds :
  listed (technologies (normalize ds)) ≤ rawCount (normalize ds)
  ∧ (listed (technologies (normalize ds)) = rawCount (normalize ds)
     ↔ NoDup (map entryOf ds)).
Proof.
  rewrite normalize_listed, normalize_rawCount.
  induction ds as [|d ds [IHle IHeq]] using rev_ind.
  - split; [simpl; lia|]. split; [constructor|done].
  - unfold collected. rewrite fold_left_app. simpl. fold (collected ds).
    rewrite collect_listed, length_app, map_app. simpl.
    rewrite NoDup_app.
    destruct (decide (entryOf d ∈ map entryOf ds)) as [Hin|Hout].
    + split; [lia|]. split; [lia|].
      intros (_ & Hdisj & _). exfalso. apply (Hdisj _ Hin). left.
    + split; [lia|]. split.
      * intros H. split; [apply IHeq; lia|]. split.
        -- intros x Hx Hx'. apply list_elem_of_singleton in Hx'. by subst.
        -- apply NoDup_singleton.
      * intros (Hnd & _). apply IHeq in Hnd. lia.
Qed.

(** *** The order of the detections *)

Lemma collect_keys_NoDup (st : Obj (list string) * Obj (list number)) d :
  NoDup (keys st.1) → NoDup (keys (collect st d).1).
Proof.
  destruct st as [T C]. simpl. intros Hnd. unfold collect.
  destruct (get T (categoryOf d)) as [l|] eqn:E.
  - rewrite E. destruct (includes l (name d)); simpl; [done|].
    by rewrite keys_push.
  - rewrite get_set_eq. simpl. rewrite keys_push.
    rewrite keys_set_fresh by done. apply NoDup_app. split; [done|].
    split; [|apply NoDup_singleton].
    intros x Hx Hx'. apply list_elem_of_singleton in Hx'. subst.
    by apply get_None_keys in E.
Qed.

Lemma collected_keys_NoDup ds : NoDup (keys (collected ds).1).
Proof.
  induction ds as [|d ds IH] using rev_ind; [constructor|].
  unfold collected. rewrite fold_left_app. simpl.
  by apply collect_keys_NoDup.
Qed.

Lemma get_is_Some_keys {V} (o : Obj V) k : is_Some (get o k) ↔ k ∈ keys o.
Proof.
  pose proof (get_None_keys o k) as H. destruct (get o k) eqn:E.
  - split; [|by eexists]. intros _.
    destruct (decide (k ∈ keys o)) as [|Hn]; [done|].
    apply H in Hn. done.
  - split; [by intros [? ?]|]. intros Hin. exfalso.
    by apply (proj1 H).
Qed.

(** X12.  The lists of names do not depend on the order in which the detections
    arrive: the same detections in another order give the same categories
    and, under each, the same list. *)
Theorem normalize_lists_ignore_order ds ds' :
  ds ≡ₚ ds' →
  keys (technologies (normalize ds)) ≡ₚ keys (technologies (normalize ds'))
  ∧ (∀ c, get (technologies (normalize ds)) c
          = get (technologies (normalize ds')) c)
  ∧ rawCount (normalize ds) = rawCount (normalize ds').
Proof.
  intros Hperm.
  assert (Hget : ∀ c, get (technologies (normalize ds)) c
                      = get (technologies (normalize ds')) c).
  { intros c. rewrite !normalize_technologies.
    destruct (collected_spec ds c) as [-> _].
    destruct (collected_spec ds' c) as [-> _].
    assert (Hsort : sort (namesOf c ds) = sort (namesOf c ds')).
    { apply sort_unique; [|apply sort_sorted].
      rewrite sort_perm. apply NoDup_Permutation.
      - apply firstByName_NoDup.
      - apply firstByName_NoDup.
      - intros n. rewrite !namesOf_elem.
        split; intros (d & Hd & ?); exists d; split; try done.
        + by rewrite <- Hperm.
        + by rewrite Hperm. }
    assert (Hnil : filedUnder c ds = [] ↔ filedUnder c ds' = []).
    { rewrite !filedUnder_nil.
      split; intros H (d & Hd & ?); apply H; exists d; split; try done.
      - by rewrite Hperm.
      - by rewrite <- Hperm. }
    destruct (filedUnder c ds) eqn:E, (filedUnder c ds') eqn:E'; simpl.
    - done.
    - destruct Hnil as [Hnil _]. by specialize (Hnil eq_refl).
    - destruct Hnil as [_ Hnil]. by specialize (Hnil eq_refl).
    - by rewrite Hsort. }
  split; [|split; [done|]].
  - apply NoDup_Permutation.
    + rewrite normalize_keys. apply collected_keys_NoDup.
    + rewrite normalize_keys. apply collected_keys_NoDup.
    + intros c. rewrite <- !get_is_Some_keys. by rewrite Hget.
  - rewrite !normalize_rawCount. by apply Permutation_length.
Qed.

(** *** The taxonomy *)

Lemma taxonomy_categories (n c : string) :
  getTechCategory n = Some c →
  truthy c = true
  ∧ ∃ display, get CATEGORY_DISPLAY_NAMES c = Some display
               ∧ truthy display = true.
Proof.
  unfold getTechCategory.
  destruct (find _ CATEGORY_MAPPING) as [[c' techs]|] eqn:E; [|done].
  intros [= ->]. apply find_some in E as [Hin _].
  simpl in Hin.
  repeat (destruct Hin as [[= <- <-]|Hin];
          [split; [reflexivity|eexists; split; reflexivity]|]).
  done.
Qed.

(** X13.  A technology of the taxonomy is filed under its taxonomy category,
    the first one of the table that lists it, whatever category the
    detection carries; it is listed under no other category, and the category
    has a display name. *)
Theorem taxonomy_technology_has_one_category ds (n c : string) :
  getTechCategory n = Some c →
  (∀ d, name d = n → categoryOf d = c)
  ∧ (∀ c' names,
       get (technologies (normalize ds)) c' = Some names → n ∈ names → c' = c)
  ∧ ∃ display, get CATEGORY_DISPLAY_NAMES c = Some display
               ∧ display ≠ ""
               ∧ getCategoryDisplayName c = display.
Proof.
  intros Hcat. destruct (taxonomy_categories n c Hcat) as (Hc & display & Hd & Ht).
  assert (Hfiled : ∀ d, name d = n → categoryOf d = c).
  { intros d <-. unfold categoryOf. by rewrite Hcat, Hc. }
  split; [done|]. split.
  - intros c' names Hget Hn.
    destruct (listed_name_detected ds c' names n Hget Hn)
      as (d & _ & <- & Hname).
    by apply Hfiled.
  - exists display. split; [done|]. split.
    + intros ->. done.
    + unfold getCategoryDisplayName. by rewrite Hd, Ht.
Qed.

End Categories.

Lemma normalize_lists_ignore_order_witness :
  keys (technologies (normalize (R := Reference.runtime) webServers))
  ≡ₚ keys (technologies (normalize (R := Reference.runtime) (reverse webServers)))
  ∧ (∀ c, get (technologies (normalize (R := Reference.runtime) webServers)) c
          = get (technologies
                   (normalize (R := Reference.runtime) (reverse webServers))) c)
  ∧ rawCount (normalize (R := Reference.runtime) webServers)
    = rawCount (normalize (R := Reference.runtime) (reverse webServers)).
Proof.
  apply (normalize_lists_ignore_order (R := Reference.runtime)).
  symmetry. apply reverse_Permutation.
Defined.

(** Amazon Web Services is in the table under cdn and under hosting, and is
    filed under cdn even when the fingerprints call it PaaS. *)
Lemma taxonomy_technology_has_one_category_witness :
  (∀ d, name d = "Amazon Web Services"
        → categoryOf (R := Reference.runtime) d = "cdn")
  ∧ (∀ c' names,
       get (technologies
              (normalize (R := Reference.runtime)
                 [detected "Amazon Web Services" "PaaS" one])) c'
       = Some names →
       "Amazon Web Services" ∈ names → c' = "cdn")
  ∧ ∃ display, get CATEGORY_DISPLAY_NAMES "cdn" = Some display
               ∧ display ≠ ""
               ∧ getCategoryDisplayName "cdn" = display.
Proof.
  apply (taxonomy_technology_has_one_category (R := Reference.runtime)
           [detected "Amazon Web Services" "PaaS" one]
           "Amazon Web Services" "cdn").
  reflexivity.
Defined.

(** *** The category of a technology outside the taxonomy *)

Section Slug.

Import Regex.
Import RegexFacts.

Context {R : Runtime}.

Definition visible (c : ascii) : bool := negb (isWhiteSpace c).

Lemma starGreedy_whitespace {A} (input : string) (f : string → A) :
  starGreedy (accepts Space) input (λ rest, Some (f rest))
  = Some (f (trimStart input)).
Proof.
  induction input as [|c input IH]; [done|]. cbn [starGreedy trimStart].
  change (accepts Space c) with (isWhiteSpace c).
  destruct (isWhiteSpace c); [by rewrite IH|done].
Qed.

Lemma trimStart_length (s : string) :
  String.length (trimStart s) ≤ String.length s.
Proof.
  induction s as [|c s IH]; simpl; [done|].
  destruct (isWhiteSpace c); simpl; lia.
Qed.

(** The whitespace at the start of a string. *)
Definition leading (s : string) : nat :=
  String.length s - String.length (trimStart s).

Lemma leading_cons c s :
  leading (String c s) = if isWhiteSpace c then S (leading s) else 0.
Proof.
  unfold leading. simpl. pose proof (trimStart_length s).
  destruct (isWhiteSpace c); simpl; lia.
Qed.

Lemma whitespaceRun_at c rest :
  run whitespaceRun (String c rest) []
    (λ rest' _, Some (String.length (String c rest) - String.length rest'))
  = if isWhiteSpace c then Some (S (leading rest)) else None.
Proof.
  unfold whitespaceRun. cbn [run].
  change (accepts Space c) with (isWhiteSpace c).
  destruct (isWhiteSpace c); [|done].
  rewrite (starGreedy_whitespace rest
             (λ rest', String.length (String c rest) - String.length rest')).
  unfold leading. pose proof (trimStart_length rest). simpl. f_equal. lia.
Qed.

Lemma replaceFrom_visible (input : string) :
  ∀ skip, skip ≤ leading input →
  allOf visible (replaceFrom whitespaceRun "_" input skip) = true.
Proof.
  induction input as [|c rest IH]; intros skip Hskip; [done|].
  rewrite leading_cons in Hskip. cbn [replaceFrom].
  destruct skip as [|skip'].
  - rewrite whitespaceRun_at. destruct (isWhiteSpace c) eqn:Ec.
    + change ("_" ++ ?s) with (String "_" s). cbn [allOf].
      rewrite IH by lia. done.
    + cbn [allOf]. unfold visible at 1. rewrite Ec. simpl.
      apply IH. lia.
  - destruct (isWhiteSpace c); [|lia]. apply IH. lia.
Qed.

Lemma replaceFrom_fixed (input : string) :
  allOf visible input = true → replaceFrom whitespaceRun "_" input 0 = input.
Proof.
  induction input as [|c rest IH]; [done|]. cbn [allOf replaceFrom].
  intros [Hc Hrest]%andb_prop. rewrite whitespaceRun_at.
  unfold visible in Hc. destruct (isWhiteSpace c); [done|].
  by rewrite IH.
Qed.

Lemma replaceFrom_length (input : string) :
  ∀ skip, String.length (replaceFrom whitespaceRun "_" input skip)
          ≤ String.length input.
Proof.
  induction input as [|c rest IH]; intros skip; [done|]. cbn [replaceFrom].
  destruct skip as [|skip'].
  - rewrite whitespaceRun_at. destruct (isWhiteSpace c).
    + change ("_" ++ ?s) with (String "_" s). simpl.
      specialize (IH (leading rest)). lia.
    + simpl. specialize (IH 0). lia.
  - simpl. specialize (IH skip'). lia.
Qed.

(** X14.  The category made from the name that the fingerprints give holds no
    whitespace and is no longer than the lower-cased name; a lower-cased name
    without whitespace is taken as it is. *)
Theorem slug_has_no_whitespace (category : string) :
  allOf visible (slug category) = true
  ∧ String.length (slug category) ≤ String.length (toLowerCase category)
  ∧ (allOf visible (toLowerCase category) = true
     → slug category = toLowerCase category).
Proof.
  unfold slug, replaceAll. split; [|split].
  - apply replaceFrom_visible. lia.
  - apply replaceFrom_length.
  - apply replaceFrom_fixed.
Qed.

End Slug.

(** Runs of whitespace of any length and kind become one underscore each. *)
Lemma slug_examples :
  slug (R := Reference.runtime) "Web Servers" = "web_servers"
  ∧ slug (R := Reference.runtime) ("  JavaScript " ++ CrawlerFacts.nl ++ " libraries ")
    = "_javascript_libraries_"
  ∧ slug (R := Reference.runtime) "CDN" = "cdn"
  ∧ slug (R := Reference.runtime) "" = "".
Proof. vm_compute. repeat split; reflexivity. Qed.

End ResultFacts.


(** ** The response of the enrichment service *)

Module ResponseFacts.

Import JsFacts.
Import Detector.
Import DetectorFacts.
Import RunFacts.
Import Normalizer.
Import NormalizerFacts.
Import ResultFacts.

Section Response.

Context {R : Runtime} (db : WappalyzerDatabase).

Variables (domain : string) (crawlResult : Crawler.CrawlResult).
Variables (firmographicsData : Enrichment.Firmographics).
Variables (startTime endTime now : number).

Definition response : Enrichment.EnrichResponseDto :=
  Enrichment.enrich db domain crawlResult firmographicsData
    startTime endTime now.

(** X15.  In the response, [totalTechnologies] is the number of names in the
    lists, the two objects have the same categories, and every name listed
    is listed under one category only and is the name of a rule of the
    fingerprint store or of a member that every object inherits from
    [Object.prototype].  This holds of a run in which the normalizer files
    no detection under a key that is itself the name of such a member: there
    its own lookups find the inherited member, which is outside of what is
    modelled. *)
Theorem enrich_lists_each_technology_once :
  Forall (λ det, get Object_prototype (categoryOf det) = None)
    (detect db crawlResult) →
  Enrichment.totalTechnologies (Enrichment.meta response)
  = listed (Enrichment.technologies response)
  ∧ keys (Enrichment.technologies response)
    = keys (Enrichment.confidence response)
  ∧ ∀ c names (n : string),
      get (Enrichment.technologies response) c = Some names → n ∈ names →
      (n ∈ keys (Detector.technologies db)
       ∨ is_Some (get Object_prototype n))
      ∧ ∀ c' names',
          get (Enrichment.technologies response) c' = Some names' →
          n ∈ names' → c' = c.
Proof.
  intros _.
  unfold response, Enrichment.enrich. cbn [Enrichment.totalTechnologies
    Enrichment.meta Enrichment.technologies Enrichment.confidence].
  split; [|split].
  - rewrite normalize_listed, normalize_rawCount. symmetry.
    apply collected_listed_distinct. apply (NoDup_fmap_1 snd).
    rewrite <- list_fmap_compose. apply detect_names_NoDup.
  - rewrite normalize_keys, normalize_keys_confidence. apply collected_keys.
  - intros c names n Hget Hn.
    destruct (listed_name_detected _ _ _ _ Hget Hn) as (d & Hd & Hc & Hname).
    split.
    + destruct (detect_created db crawlResult d Hd)
        as (tech & [Hin|(_ & _ & Hproto & _)] & _).
      * left. rewrite <- Hname. unfold keys. apply list_elem_of_fmap.
        by exists (name d, tech).
      * right. by rewrite <- Hname.
    + intros c' names' Hget' Hn'.
      destruct (listed_name_detected _ _ _ _ Hget' Hn')
        as (d' & Hd' & Hc' & Hname').
      assert (d' = d) as ->; [|congruence].
      apply (detect_name_unique db crawlResult); [done|done|congruence].
Qed.

End Response.

Definition unknownFirm : Enrichment.Firmographics :=
  {| Enrichment.name := None; Enrichment.location := None;
     Enrichment.industry := None; Enrichment.description := None |}.

(** On the store that implies an inherited name, both names are listed. *)
Lemma enrich_lists_each_technology_once_witness :
  Enrichment.totalTechnologies
    (Enrichment.meta
       (response (R := Reference.runtime) inheritingStore "example.com"
          nginxPage unknownFirm (ofZ 0) (ofZ 120) (ofZ 120)))
  = listed
      (Enrichment.technologies
         (response (R := Reference.runtime) inheritingStore "example.com"
            nginxPage unknownFirm (ofZ 0) (ofZ 120) (ofZ 120))).
Proof.
  apply (enrich_lists_each_technology_once (R := Reference.runtime)
           inheritingStore "example.com" nginxPage unknownFirm
           (ofZ 0) (ofZ 120) (ofZ 120)).
  repeat constructor.
Defined.

End ResponseFacts.


(** ** The address that the crawler fetches *)

Module AddressFacts.

Import Regex.
Import Crawler.
Import MatcherFacts.

#[local] Arguments String.append !_ _ / : simpl nomatch.

Lemma append_nil_r (s : string) : s ++ "" = s.
Proof. induction s as [|c s IH]; simpl; [done|by rewrite IH]. Qed.

Lemma hasChar_app (c : ascii) (a b : string) :
  hasChar c (a ++ b) = hasChar c a || hasChar c b.
Proof.
  induction a as [|x a IH]; simpl; [done|].
  rewrite IH. by rewrite orb_assoc.
Qed.

Lemma dropPrefix_Some (prefix s rest : string) :
  dropPrefix prefix s = Some rest → s = prefix ++ rest.
Proof.
  revert s. induction prefix as [|a prefix IH]; intros s; simpl.
  - by intros [= ->].
  - destruct s as [|b s]; [done|].
    destruct (Ascii.eqb a b) eqn:E; [|done].
    apply Ascii.eqb_eq in E. subst. intros H. by rewrite (IH _ H).
Qed.

(** The slashes of a string. *)
Fixpoint slashes (s : string) : nat :=
  match s with
  | EmptyString => 0
  | String c rest => (if Ascii.eqb c "/" then 1 else 0) + slashes rest
  end.

Lemma slashes_app (a b : string) : slashes (a ++ b) = slashes a + slashes b.
Proof. induction a as [|c a IH]; simpl; [done|]. rewrite IH. lia. Qed.

Lemma slashes_none (s : string) : hasChar "/" s = false → slashes s = 0.
Proof.
  induction s as [|c s IH]; simpl; [done|].
  destruct (Ascii.eqb c "/"); simpl; [done|]. apply IH.
Qed.

Lemma withoutProtocol_plain (url : string) :
  slashes url ≤ 1 → withoutProtocol url = url.
Proof.
  intros Hs. unfold withoutProtocol.
  destruct (dropPrefix "http" url) as [rest|] eqn:E; [|done].
  apply dropPrefix_Some in E. subst url.
  rewrite slashes_app in Hs. simpl in Hs.
  assert (Hrest : ∀ host, dropPrefix "://" rest ≠ Some host).
  { intros host E. apply dropPrefix_Some in E. subst rest.
    rewrite slashes_app in Hs. simpl in Hs. lia. }
  destruct (dropPrefix "s" rest) as [rest'|] eqn:E'.
  - apply dropPrefix_Some in E'. subst rest.
    destruct (dropPrefix "://" rest') as [host|] eqn:E''.
    + apply dropPrefix_Some in E''. subst rest'.
      rewrite !slashes_app in Hs. simpl in Hs. lia.
    + destruct (dropPrefix "://" ("s" ++ rest')) as [host|] eqn:E3; [|done].
      by destruct (Hrest host).
  - destruct (dropPrefix "://" rest) as [host|] eqn:E3; [|done].
    by destruct (Hrest host).
Qed.

Lemma withoutTrailingSlash_slash (s : string) :
  withoutTrailingSlash (s ++ "/") = s.
Proof.
  induction s as [|c s IH]; [done|].
  change (String c s ++ "/") with (String c (s ++ "/")).
  cbn [withoutTrailingSlash]. rewrite IH.
  by destruct s.
Qed.

Lemma withoutTrailingSlash_plain (s : string) :
  hasChar "/" s = false → withoutTrailingSlash s = s.
Proof.
  induction s as [|c s IH]; [done|]. cbn [hasChar withoutTrailingSlash].
  intros [Hc Hs]%orb_false_elim. destruct s as [|c' s'].
  - by rewrite Hc.
  - by rewrite IH.
Qed.

Section Address.

Context {R : Runtime}.

(** X16.  The spellings of a host name give one address.  Upper case, whitespace
    around the name, a protocol (http or https) in front, [www.] before the
    host and a slash after it all lead to [https://] followed by the host, for
    a host that has no slash in it and does not begin with [www.]. *)
Theorem normalizeUrl_spellings (domain host proto www slash : string) :
  hasChar "/" host = false → dropPrefix "www." host = None →
  proto ∈ [""; "http://"; "https://"] → www ∈ [""; "www."] →
  slash ∈ [""; "/"] →
  toLowerCase (trim domain) = proto ++ www ++ host ++ slash →
  normalizeUrl domain = "https://" ++ host.
Proof.
  intros Hhost Hwww Hproto Hw Hslash Hlower.
  unfold normalizeUrl. rewrite Hlower. f_equal.
  assert (Hs : slashes (www ++ host ++ slash) ≤ 1).
  { rewrite !slashes_app, (slashes_none host Hhost).
    apply list_elem_of_In in Hw, Hslash. simpl in Hw, Hslash.
    destruct Hw as [<-|[<-|[]]], Hslash as [<-|[<-|[]]]; simpl; lia. }
  assert (Hp : withoutProtocol (proto ++ www ++ host ++ slash)
               = www ++ host ++ slash).
  { apply list_elem_of_In in Hproto. simpl in Hproto.
    destruct Hproto as [<-|[<-|[<-|[]]]]; [|reflexivity|reflexivity].
    by apply withoutProtocol_plain. }
  rewrite Hp.
  assert (Ht : withoutTrailingSlash (www ++ host ++ slash) = www ++ host).
  { apply list_elem_of_In in Hslash. simpl in Hslash.
    destruct Hslash as [<-|[<-|[]]].
    - rewrite append_nil_r. apply withoutTrailingSlash_plain.
      rewrite hasChar_app, Hhost.
      apply list_elem_of_In in Hw. simpl in Hw.
      by destruct Hw as [<-|[<-|[]]].
    - rewrite <- RegexFacts.append_assoc. apply withoutTrailingSlash_slash. }
  rewrite Ht. unfold withoutWww.
  apply list_elem_of_In in Hw. simpl in Hw.
  destruct Hw as [<-|[<-|[]]]; [|reflexivity].
  change ("" ++ host) with host. by rewrite Hwww.
Qed.

End Address.

Lemma normalizeUrl_spellings_witness :
  normalizeUrl (R := Reference.runtime) "  HTTP://WWW.Example.COM/ "
  = "https://example.com".
Proof.
  apply (normalizeUrl_spellings (R := Reference.runtime)
           "  HTTP://WWW.Example.COM/ " "example.com" "http://" "www." "/").
  - reflexivity.
  - reflexivity.
  - right. left.
  - right. left.
  - right. left.
  - reflexivity.
Defined.

(** One of each is taken off, and once: a second [www.], a second slash and
    a path stay, and the address of an address can be another one. *)
Lemma normalizeUrl_examples :
  normalizeUrl (R := Reference.runtime) "example.com" = "https://example.com"
  ∧ normalizeUrl (R := Reference.runtime) "www.www.example.com"
    = "https://www.example.com"
  ∧ normalizeUrl (R := Reference.runtime) "https://www.example.com"
    = "https://example.com"
  ∧ normalizeUrl (R := Reference.runtime) "example.com//"
    = "https://example.com/"
  ∧ normalizeUrl (R := Reference.runtime) "Example.com/Path/"
    = "https://example.com/path"
  ∧ normalizeUrl (R := Reference.runtime) "ftp://example.com"
    = "https://ftp://example.com"
  ∧ normalizeUrl (R := Reference.runtime) "http://https://example.com"
    = "https://https://example.com".
Proof. vm_compute. repeat split; reflexivity. Qed.

End AddressFacts.


(** ** The escalation decision on whole pages *)

Module EscalationFacts.

Import Regex.
Import Crawler.
Import RegexFacts.
Import CrawlerFacts.

#[local] Arguments String.append !_ _ / : simpl nomatch.

Lemma accepts_same (c : ascii) : accepts (Chr c) c = true.
Proof. simpl. apply Ascii.eqb_refl. Qed.

Lemma matches_lit (s : string) : matches (lit s) s.
Proof.
  induction s as [|c s IH]; simpl; [constructor|].
  change (String c s) with (String c "" ++ s).
  constructor; [|done]. constructor. apply accepts_same.
Qed.

Lemma matches_seq_cons (r : regex) (rs : list regex) (s1 s2 : string) :
  matches r s1 → matches (seq rs) s2 → matches (seq (r :: rs)) (s1 ++ s2).
Proof. intros. simpl. by constructor. Qed.

(** An element [div] with nothing but whitespace in it and the id [id], in
    lower case: attributes [before] and [after] the id, the id between the
    quote characters [q1] and [q2]. *)
Definition mountPoint (before : string) (q1 : ascii) (id : string)
    (q2 : ascii) (after inside : string) : string :=
  "<div" ++ before ++ "id=" ++ String q1 "" ++ id ++ String q2 ""
    ++ after ++ ">" ++ inside ++ "</div>".

(** X17.  An empty mount point anywhere in the document asks for the browser,
    whatever else the document holds and however long its body is.  The two
    quote characters need not be the same. *)
Theorem needsBrowser_empty_mount_point
    (pre post before after inside id : string) (q1 q2 : ascii) :
  id ∈ ["root"; "app"; "__next"] →
  accepts quote q1 = true → accepts quote q2 = true →
  allOf (accepts notGt) before = true → allOf (accepts notGt) after = true →
  allOf (accepts Space) inside = true →
  needsBrowser (pre ++ mountPoint before q1 id q2 after inside ++ post) = true.
Proof.
  intros Hid Hq1 Hq2 Hbefore Hafter Hinside.
  assert (Hsig : existsb
            (λ pattern,
               test pattern
                 (pre ++ mountPoint before q1 id q2 after inside ++ post))
            spaSignals = true).
  { apply existsb_exists. exists (emptyContainer id). split.
    - apply list_elem_of_In in Hid. simpl in Hid. unfold spaSignals.
      destruct Hid as [<-|[<-|[<-|[]]]]; simpl; tauto.
    - apply test_matches.
      exists pre, (mountPoint before q1 id q2 after inside), post.
      split; [done|]. unfold emptyContainer, mountPoint.
      apply matches_seq_cons; [apply matches_lit|].
      apply matches_seq_cons; [by constructor|].
      apply matches_seq_cons; [apply matches_lit|].
      apply matches_seq_cons; [by constructor|].
      apply matches_seq_cons; [apply matches_lit|].
      apply matches_seq_cons; [by constructor|].
      apply matches_seq_cons; [by constructor|].
      apply matches_seq_cons; [apply matches_lit|].
      apply matches_seq_cons; [by constructor|].
      change "</div>" with ("</div>" ++ "").
      apply matches_seq_cons; [apply matches_lit|]. constructor. }
  unfold needsBrowser. by rewrite Hsig.
Qed.

Lemma needsBrowser_empty_mount_point_witness :
  needsBrowser
    ("<html><body><h1>Shop</h1>"
     ++ mountPoint " class='main' " "034" "app" "'" " data-x" "  "
     ++ copies 300 "text " ++ "</body></html>") = true.
Proof.
  apply (needsBrowser_empty_mount_point "<html><body><h1>Shop</h1>"
           (copies 300 "text " ++ "</body></html>")
           " class='main' " " data-x" "  " "app" "034" "'");
    [right; left|reflexivity..].
Defined.

(** *** The warnings of noscript elements *)

Lemma matches_seq_one (r : regex) (s : string) :
  matches r s → matches (seq [r]) s.
Proof.
  intros H. rewrite <- (AddressFacts.append_nil_r s).
  apply matches_seq_cons; [done|constructor].
Qed.

(** X18.  A noscript element whose text, on the line of its opening tag, asks for
    JavaScript in one of the two wordings asks for the browser, wherever it
    stands in the document. *)
Theorem needsBrowser_noscript_warning
    (pre post attributes text warning : string) :
  warning ∈ ["enable javascript"; "javascript is required"] →
  allOf (accepts notGt) attributes = true →
  allOf (accepts Dot) text = true →
  needsBrowser
    (pre ++ ("<noscript" ++ attributes ++ ">" ++ text ++ warning) ++ post)
  = true.
Proof.
  intros Hw Hattrs Htext.
  assert (Hsig : existsb
            (λ pattern,
               test pattern
                 (pre ++ ("<noscript" ++ attributes ++ ">" ++ text ++ warning)
                  ++ post))
            spaSignals = true).
  { apply existsb_exists. exists (noscriptWarning warning). split.
    - apply list_elem_of_In in Hw. simpl in Hw. unfold spaSignals.
      destruct Hw as [<-|[<-|[]]]; simpl; tauto.
    - apply test_matches.
      exists pre, ("<noscript" ++ attributes ++ ">" ++ text ++ warning), post.
      split; [done|]. unfold noscriptWarning.
      apply matches_seq_cons; [apply matches_lit|].
      apply matches_seq_cons; [by constructor|].
      apply matches_seq_cons; [apply matches_lit|].
      apply matches_seq_cons; [by constructor|].
      apply matches_seq_one, matches_lit. }
  unfold needsBrowser. by rewrite Hsig.
Qed.

Lemma needsBrowser_noscript_warning_witness :
  needsBrowser
    ("<html><body>" ++ copies 300 "text "
     ++ ("<noscript" ++ " class='w'" ++ ">" ++ "<b>please "
         ++ "enable javascript")
     ++ "</b></noscript></body></html>") = true.
Proof.
  apply (needsBrowser_noscript_warning ("<html><body>" ++ copies 300 "text ")
           "</b></noscript></body></html>" " class='w'" "<b>please "
           "enable javascript");
    [left|reflexivity|reflexivity].
Defined.

(** *** Pages without a closed body *)

Lemma matches_seq_last (rs : list regex) (r : regex) (s : string) :
  matches (seq (rs ++ [r])%list) s → ∃ s1 s2, s = s1 ++ s2 ∧ matches r s2.
Proof.
  revert s. induction rs as [|r0 rs IH]; intros s H; simpl in H.
  - inversion H as [| |r1 r2 s1 s2 H1 H2| | |]; subst.
    inversion H2; subst. exists "", s1. split; [|done].
    simpl. by rewrite AddressFacts.append_nil_r.
  - inversion H as [| |r1 r2 s1 s2 H1 H2| | |]; subst.
    destruct (IH _ H2) as (t1 & t2 & -> & Ht).
    exists (s1 ++ t1), t2. split; [|done]. by rewrite append_assoc.
Qed.

Lemma bodyMatch_closed (html inner : string) :
  bodyMatch html = Some inner → test (lit "</body>") html = true.
Proof.
  unfold bodyMatch, exec. intros H.
  assert (Hk : blind (λ (_ : string) (caps : captures), Some caps)).
  { intros rest c1 c2. split; intros _; by eexists. }
  pose proof (search_some bodyPattern html _ Hk) as [Hsome _].
  destruct (search bodyPattern html (λ _ caps, Some caps)) eqn:E; [|done].
  destruct Hsome as (pre & s & rest & -> & Hm & _); [by eexists|].
  apply (matches_seq_last
           [lit "<body"; Star notGt; lit ">"; Group 1 (StarLazy anyChar)]
           (lit "</body>")) in Hm as (s1 & s2 & -> & Hm).
  apply test_matches. exists (pre ++ s1), s2, rest.
  split; [|done]. by rewrite !append_assoc.
Qed.

(** X19.  The length of the body is looked at only when the body element is
    closed: a document on which no signal fires and that holds no closing
    body tag, in any case of letters, does not ask for the browser, however
    little it holds. *)
Theorem needsBrowser_needs_closed_body (html : string) :
  noSignal html → test (lit "</body>") html = false →
  needsBrowser html = false.
Proof.
  intros Hsig Hclosed. unfold needsBrowser. rewrite Hsig.
  destruct (bodyMatch html) as [inner|] eqn:E; [|done].
  apply bodyMatch_closed in E. congruence.
Qed.

Lemma needsBrowser_needs_closed_body_witness :
  needsBrowser "" = false
  ∧ needsBrowser "<html><body><p>Loading</p>" = false.
Proof.
  split.
  - apply (needsBrowser_needs_closed_body ""); reflexivity.
  - apply (needsBrowser_needs_closed_body "<html><body><p>Loading</p>");
      vm_compute; reflexivity.
Defined.

(** *** Small bodies *)

Lemma replaceFrom_empty_length (r : regex) (input : string) :
  ∀ skip, String.length (replaceFrom r "" input skip) ≤ String.length input.
Proof.
  induction input as [|c rest IH]; intros skip; [done|]. cbn [replaceFrom].
  destruct skip as [|skip'].
  - destruct (run r (String c rest) [] _) as [[|n]|].
    + simpl. specialize (IH 0). lia.
    + change ("" ++ ?s) with s. simpl. specialize (IH n). lia.
    + simpl. specialize (IH 0). lia.
  - simpl. specialize (IH skip'). lia.
Qed.

Lemma trimEnd_length (s : string) :
  String.length (trimEnd s) ≤ String.length s.
Proof.
  induction s as [|c s IH]; [done|]. cbn [trimEnd].
  destruct (trimEnd s) as [|c' s'].
  - destruct (isWhiteSpace c); simpl; lia.
  - simpl in *. lia.
Qed.

Lemma trim_length (s : string) : String.length (trim s) ≤ String.length s.
Proof.
  unfold trim. etrans; [apply trimEnd_length|].
  apply ResultFacts.trimStart_length.
Qed.

(** X20.  A closed body of fewer than 200 characters asks for the browser,
    whatever the characters are: taking the script blocks out and trimming
    make the content no longer. *)
Theorem needsBrowser_small_body (html inner : string) :
  bodyMatch html = Some inner → String.length inner < 200 →
  needsBrowser html = true.
Proof.
  intros Hbody Hlen. unfold needsBrowser. rewrite Hbody.
  destruct (existsb _ spaSignals); [done|].
  assert (Hshort : String.length (trim (replaceAll scriptPattern "" inner))
                   < 200).
  { eapply Nat.le_lt_trans; [apply trim_length|].
    eapply Nat.le_lt_trans; [apply replaceFrom_empty_length|done]. }
  apply Nat.ltb_lt in Hshort. by rewrite Hshort.
Qed.

Lemma needsBrowser_small_body_witness :
  needsBrowser "<html><body><main><h1>Welcome</h1></main></body></html>"
  = true.
Proof.
  apply (needsBrowser_small_body
           "<html><body><main><h1>Welcome</h1></main></body></html>"
           "<main><h1>Welcome</h1></main>");
    [reflexivity|vm_compute; lia].
Defined.

End EscalationFacts.


(** ** The domains that the controller accepts *)

Module DomainFacts.

Import Regex.
Import Crawler.
Import Controller.
Import RegexFacts.

#[local] Arguments String.append !_ _ / : simpl nomatch.

(** *** The strings of a pattern *)

Inductive lang : pattern → string → Prop :=
| lang_empty : lang Empty ""
| lang_class p c : p c = true → lang (Class p) (String c "")
| lang_then r1 r2 s1 s2 :
    lang r1 s1 → lang r2 s2 → lang (Then r1 r2) (s1 ++ s2)
| lang_or_l r1 r2 s : lang r1 s → lang (Or r1 r2) s
| lang_or_r r1 r2 s : lang r2 s → lang (Or r1 r2) s
| lang_rep_nil r : lang (Rep r) ""
| lang_rep_cons r s1 s2 :
    lang r s1 → lang (Rep r) s2 → lang (Rep r) (s1 ++ s2).

Lemma lang_never_iff s : lang Never s ↔ False.
Proof. split; [inversion 1|done]. Qed.

Lemma lang_empty_iff s : lang Empty s ↔ s = "".
Proof. split; [by inversion 1|intros ->; constructor]. Qed.

Lemma lang_class_iff p s :
  lang (Class p) s ↔ ∃ c, s = String c "" ∧ p c = true.
Proof.
  split.
  - inversion 1; subst. by eexists.
  - intros (c & -> & H). by constructor.
Qed.

Lemma lang_then_iff r1 r2 s :
  lang (Then r1 r2) s ↔ ∃ s1 s2, s = s1 ++ s2 ∧ lang r1 s1 ∧ lang r2 s2.
Proof.
  split.
  - inversion 1; subst. by eexists _, _.
  - intros (s1 & s2 & -> & H1 & H2). by constructor.
Qed.

Lemma lang_or_iff r1 r2 s : lang (Or r1 r2) s ↔ lang r1 s ∨ lang r2 s.
Proof.
  split.
  - inversion 1; subst; auto.
  - intros [H|H]; [by apply lang_or_l|by apply lang_or_r].
Qed.

Lemma append_empty (a b : string) : a ++ b = "" → a = "" ∧ b = "".
Proof. destruct a; simpl; [done|discriminate]. Qed.

Lemma nullable_lang r : nullable r = true ↔ lang r "".
Proof.
  induction r as [| |p|r1 IH1 r2 IH2|r1 IH1 r2 IH2|r IH]; simpl.
  - rewrite lang_never_iff. done.
  - rewrite lang_empty_iff. done.
  - rewrite lang_class_iff. split; [done|]. by intros (c & ? & _).
  - rewrite andb_true_iff, IH1, IH2, lang_then_iff. split.
    + intros [H1 H2]. by exists "", "".
    + intros (s1 & s2 & E & H1 & H2). symmetry in E.
      apply append_empty in E as [-> ->]. done.
  - rewrite orb_true_iff, IH1, IH2, lang_or_iff. done.
  - split; [intros _; constructor|done].
Qed.

(** A string of [r*] that starts with [c] starts with a string of [r] that
    starts with [c]. *)
Lemma lang_rep_first r c s :
  lang (Rep r) (String c s) →
  ∃ s1 s2, s = s1 ++ s2 ∧ lang r (String c s1) ∧ lang (Rep r) s2.
Proof.
  intros H. remember (Rep r) as rr eqn:Er. remember (String c s) as cs eqn:Es.
  revert s Es. induction H as [| | | | | |r' s1 s2 H1 _ H2 IH2];
    intros t Et; try discriminate.
  injection Er as ->. destruct s1 as [|c' s1].
  - simpl in Et. by apply IH2.
  - simpl in Et. injection Et as -> <-. by exists s1, s2.
Qed.

Lemma derive_lang r : ∀ c s, lang (derive c r) s ↔ lang r (String c s).
Proof.
  induction r as [| |p|r1 IH1 r2 IH2|r1 IH1 r2 IH2|r IH]; intros c s; simpl.
  - by rewrite !lang_never_iff.
  - rewrite lang_never_iff, lang_empty_iff. done.
  - rewrite lang_class_iff. destruct (p c) eqn:E.
    + rewrite lang_empty_iff. split.
      * intros ->. by exists c.
      * by intros (c' & [= -> ->] & _).
    + rewrite lang_never_iff. split; [done|].
      intros (c' & [= -> ->] & H). congruence.
  - assert (Hcons : lang (Then (derive c r1) r2) s
                    ↔ ∃ s1 s2, s = s1 ++ s2 ∧ lang r1 (String c s1)
                               ∧ lang r2 s2).
    { rewrite lang_then_iff. by setoid_rewrite IH1. }
    rewrite (lang_then_iff r1 r2). destruct (nullable r1) eqn:E.
    + rewrite lang_or_iff, Hcons, IH2. split.
      * intros [(s1 & s2 & -> & H1 & H2)|H2].
        -- by exists (String c s1), s2.
        -- apply nullable_lang in E. by exists "", (String c s).
      * intros (s1 & s2 & Es & H1 & H2). destruct s1 as [|c' s1].
        -- right. simpl in Es. by subst.
        -- left. simpl in Es. injection Es as -> ->. by exists s1, s2.
    + rewrite Hcons. split.
      * intros (s1 & s2 & -> & H1 & H2). by exists (String c s1), s2.
      * intros (s1 & s2 & Es & H1 & H2). destruct s1 as [|c' s1].
        -- apply nullable_lang in H1. congruence.
        -- simpl in Es. injection Es as -> ->. by exists s1, s2.
  - by rewrite !lang_or_iff, IH1, IH2.
  - rewrite lang_then_iff. setoid_rewrite IH. split.
    + intros (s1 & s2 & -> & H1 & H2).
      change (String c (s1 ++ s2)) with (String c s1 ++ s2).
      by constructor.
    + apply lang_rep_first.
Qed.

(** [matchesAll] decides the strings of the pattern. *)
Lemma matchesAll_lang s : ∀ r, matchesAll r s = true ↔ lang r s.
Proof.
  induction s as [|c s IH]; intros r; simpl.
  - apply nullable_lang.
  - by rewrite IH, derive_lang.
Qed.

(** *** The strings of the domain pattern *)

Lemma lang_rep_class p s : lang (Rep (Class p)) s ↔ allOf p s = true.
Proof.
  split.
  - intros H. remember (Rep (Class p)) as r eqn:Er.
    induction H as [| | | | | |r' s1 s2 H1 _ H2 IH2]; try discriminate.
    + done.
    + injection Er as ->. apply lang_class_iff in H1 as (c & -> & Hc).
      simpl. by rewrite Hc, IH2.
  - induction s as [|c s IH]; simpl; [constructor|].
    intros [Hc Hs]%andb_prop.
    change (String c s) with (String c "" ++ s).
    constructor; [by constructor|by apply IH].
Qed.

Lemma lang_upTo_class p n :
  ∀ s, lang (upTo n (Class p)) s
       ↔ allOf p s = true ∧ String.length s ≤ n.
Proof.
  induction n as [|n IH]; intros s; simpl.
  - rewrite lang_empty_iff. split.
    + by intros ->.
    + intros [_ H]. destruct s; [done|simpl in H; lia].
  - unfold optional. rewrite lang_or_iff, lang_then_iff, lang_empty_iff.
    split.
    + intros [(s1 & s2 & -> & H1 & H2)| ->]; [|simpl; split; [done|lia]].
      apply lang_class_iff in H1 as (c & -> & Hc).
      apply IH in H2 as [H2 Hlen]. simpl. rewrite Hc, H2. split; [done|lia].
    + destruct s as [|c s]; [by right|]. simpl.
      intros [[Hc Hs]%andb_prop Hlen]. left. exists (String c ""), s.
      split; [done|]. split; [by constructor|]. apply IH. split; [done|lia].
Qed.

(** A label: a letter or a digit, alone or followed by at most 61 letters,
    digits and hyphens and then a letter or a digit. *)
Definition validLabel (l : string) : Prop :=
  ∃ first : ascii,
    alphanumeric first = true
    ∧ (l = String first ""
       ∨ ∃ (middle : string) (last : ascii),
           l = String first (middle ++ String last "")
           ∧ allOf alphanumericOrHyphen middle = true
           ∧ String.length middle ≤ 61
           ∧ alphanumeric last = true).

(** A top-level domain: two letters or more. *)
Definition validTld (t : string) : Prop :=
  allOf alphabetic t = true ∧ 2 ≤ String.length t.

(** The labels, each followed by a dot. *)
Fixpoint dotted (labels : list string) : string :=
  match labels with
  | [] => ""
  | l :: rest => l ++ "." ++ dotted rest
  end.

Lemma lang_label l : lang label l ↔ validLabel l.
Proof.
  unfold label, optional, validLabel.
  rewrite lang_then_iff. split.
  - intros (s1 & s2 & -> & H1 & H2).
    apply lang_class_iff in H1 as (first & -> & Hfirst).
    exists first. split; [done|].
    apply lang_or_iff in H2 as [H2|H2].
    + right. apply lang_then_iff in H2 as (middle & t & -> & Hm & Ht).
      apply lang_upTo_class in Hm as [Hm Hlen].
      apply lang_class_iff in Ht as (last & -> & Hlast).
      by exists middle, last.
    + left. apply lang_empty_iff in H2. by subst.
  - intros (first & Hfirst & [->|(middle & last & -> & Hm & Hlen & Hlast)]).
    + exists (String first ""), "". split; [done|].
      split; [by constructor|]. apply lang_or_r. constructor.
    + exists (String first ""), (middle ++ String last "").
      split; [done|]. split; [by constructor|]. apply lang_or_l.
      constructor; [by apply lang_upTo_class|by constructor].
Qed.

Lemma lang_dotted s :
  lang (Rep (Then label (Class (Ascii.eqb ".")))) s
  ↔ ∃ labels, Forall validLabel labels ∧ s = dotted labels.
Proof.
  split.
  - intros H. remember (Rep (Then label (Class (Ascii.eqb ".")))) as r eqn:Er.
    induction H as [| | | | | |r' s1 s2 H1 _ H2 IH2]; try discriminate.
    + by exists [].
    + injection Er as ->. destruct (IH2 eq_refl) as (labels & Hall & ->).
      apply lang_then_iff in H1 as (l & dot & -> & Hl & Hdot).
      apply lang_class_iff in Hdot as (c & -> & Hc).
      apply Ascii.eqb_eq in Hc. subst c. apply lang_label in Hl.
      exists (l :: labels). split; [by constructor|].
      cbn [dotted]. by rewrite RegexFacts.append_assoc.
  - intros (labels & Hall & ->). induction Hall as [|l labels Hl _ IH].
    + constructor.
    + cbn [dotted]. rewrite <- RegexFacts.append_assoc. constructor; [|done].
      constructor; [by apply lang_label|]. by constructor.
Qed.

Lemma lang_tld t :
  lang (Then (Class alphabetic)
          (Then (Class alphabetic) (Rep (Class alphabetic)))) t
  ↔ validTld t.
Proof.
  unfold validTld. rewrite lang_then_iff. split.
  - intros (s1 & s2 & -> & H1 & H2).
    apply lang_class_iff in H1 as (a & -> & Ha).
    apply lang_then_iff in H2 as (s3 & s4 & -> & H3 & H4).
    apply lang_class_iff in H3 as (b & -> & Hb).
    apply lang_rep_class in H4. simpl. rewrite Ha, Hb, H4.
    split; [done|lia].
  - destruct t as [|a [|b t]]; simpl; [lia|lia|].
    intros [[Ha [Hb Ht]%andb_prop]%andb_prop _].
    exists (String a ""), (String b t). split; [done|].
    split; [by constructor|].
    change (String b t) with (String b "" ++ t).
    constructor; [by constructor|by apply lang_rep_class].
Qed.

Lemma lang_domainRegex s :
  lang domainRegex s
  ↔ ∃ labels tld,
      s = dotted labels ++ tld
      ∧ labels ≠ [] ∧ Forall validLabel labels ∧ validTld tld.
Proof.
  unfold domainRegex, atLeastOnce. rewrite lang_then_iff. split.
  - intros (s1 & t & -> & H1 & Ht). apply lang_tld in Ht.
    apply lang_then_iff in H1 as (s2 & s3 & -> & H2 & H3).
    apply lang_then_iff in H2 as (l & dot & -> & Hl & Hdot).
    apply lang_class_iff in Hdot as (c & -> & Hc).
    apply Ascii.eqb_eq in Hc. subst c. apply lang_label in Hl.
    apply lang_dotted in H3 as (labels & Hall & ->).
    exists (l :: labels), t. split; [|split; [|split]].
    + cbn [dotted]. by rewrite !RegexFacts.append_assoc.
    + discriminate.
    + by constructor.
    + exact Ht.
  - intros (labels & t & -> & Hne & Hall & Ht).
    destruct Hall as [|l labels Hl Hall]; [done|].
    exists (dotted (l :: labels)), t. split; [done|].
    split; [|by apply lang_tld].
    cbn [dotted]. rewrite <- RegexFacts.append_assoc. constructor.
    + constructor; [by apply lang_label|]. by constructor.
    + apply lang_dotted. by exists labels.
Qed.

(** The cleaned text: the protocol and the path taken off. *)
Definition cleaned (domain : string) : string :=
  withoutPath (withoutProtocol domain).

(** X21.  A domain is accepted exactly when, the protocol and the path taken off,
    it reads as one or more labels, each followed by a dot, and a top-level
    domain of two letters or more. *)
Theorem isValidDomain_reads_labels (domain : string) :
  isValidDomain domain = true
  ↔ ∃ labels tld,
      cleaned domain = dotted labels ++ tld
      ∧ labels ≠ [] ∧ Forall validLabel labels ∧ validTld tld.
Proof.
  unfold isValidDomain. fold (cleaned domain).
  rewrite matchesAll_lang. apply lang_domainRegex.
Qed.

(** *** What is refused *)

(** The characters of a host name. *)
Definition hostChar (c : ascii) : bool :=
  alphanumericOrHyphen c || Ascii.eqb c ".".

Lemma allOf_app p (a b : string) :
  allOf p (a ++ b) = allOf p a && allOf p b.
Proof.
  induction a as [|c a IH]; simpl; [done|]. by rewrite IH, andb_assoc.
Qed.

Lemma allOf_impl (p q : ascii → bool) (s : string) :
  (∀ c, p c = true → q c = true) → allOf p s = true → allOf q s = true.
Proof.
  intros Hpq. induction s as [|c s IH]; simpl; [done|].
  intros [Hc Hs]%andb_prop. by rewrite (Hpq c Hc), IH.
Qed.

Lemma alphanumeric_hostChar c : alphanumeric c = true → hostChar c = true.
Proof. unfold hostChar, alphanumericOrHyphen. by intros ->. Qed.

Lemma validLabel_hostChar l : validLabel l → allOf hostChar l = true.
Proof.
  intros (first & Hfirst & [->|(middle & last & -> & Hm & _ & Hlast)]).
  - simpl. by rewrite (alphanumeric_hostChar _ Hfirst).
  - change (String first (middle ++ String last ""))
      with (String first "" ++ middle ++ String last "").
    rewrite !allOf_app. simpl.
    rewrite (alphanumeric_hostChar _ Hfirst), (alphanumeric_hostChar _ Hlast).
    rewrite (allOf_impl alphanumericOrHyphen hostChar middle); [done| |done].
    intros c Hc. unfold hostChar. by rewrite Hc.
Qed.

Lemma dotted_hostChar labels :
  Forall validLabel labels → allOf hostChar (dotted labels) = true.
Proof.
  induction 1 as [|l labels Hl _ IH]; [done|]. cbn [dotted].
  rewrite !allOf_app, (validLabel_hostChar l Hl), IH. done.
Qed.

Lemma dotted_ends labels :
  labels ≠ [] → ∃ init, dotted labels = init ++ ".".
Proof.
  induction labels as [|l labels IH]; [done|]. intros _. cbn [dotted].
  destruct labels as [|l' labels'].
  - exists l. done.
  - destruct IH as [init Hinit]; [done|]. rewrite Hinit.
    exists (l ++ "." ++ init). by rewrite !RegexFacts.append_assoc.
Qed.

(** X22.  An accepted domain, the protocol and the path taken off, holds nothing
    but letters, digits, hyphens and dots, and ends with a dot and two letters
    or more: a port, an underscore, whitespace, an upper-case protocol, an
    address in digits, a name without a dot and a name with a final dot are
    all refused. *)
Theorem isValidDomain_shape (domain : string) :
  isValidDomain domain = true →
  allOf hostChar (cleaned domain) = true
  ∧ ∃ init tld, cleaned domain = init ++ "." ++ tld ∧ validTld tld.
Proof.
  unfold isValidDomain. fold (cleaned domain). rewrite matchesAll_lang.
  intros (labels & tld & -> & Hne & Hall & Htld)%lang_domainRegex.
  split.
  - rewrite allOf_app, (dotted_hostChar _ Hall).
    destruct Htld as [Htld _].
    rewrite (allOf_impl alphabetic hostChar tld); [done| |done].
    intros c Hc. unfold hostChar, alphanumericOrHyphen, alphanumeric.
    by rewrite Hc.
  - destruct (dotted_ends labels Hne) as [init ->].
    exists init, tld. split; [|done]. by rewrite !RegexFacts.append_assoc.
Qed.

Lemma isValidDomain_shape_witness :
  allOf hostChar (cleaned "https://www.example.co.uk/path?q=1") = true
  ∧ ∃ init tld,
      cleaned "https://www.example.co.uk/path?q=1" = init ++ "." ++ tld
      ∧ validTld tld.
Proof.
  apply (isValidDomain_shape "https://www.example.co.uk/path?q=1").
  vm_compute. reflexivity.
Defined.

(** The controller checks the text as it is given, the crawler trims and
    lower-cases it first; a port, an address in digits, an underscore and a
    final dot are refused. *)
Lemma isValidDomain_examples :
  isValidDomain "example.com" = true
  ∧ isValidDomain "https://www.sub-domain.example.co.uk/path?q=1" = true
  ∧ isValidDomain "a.bc" = true
  ∧ isValidDomain "localhost" = false
  ∧ isValidDomain "192.168.1.1" = false
  ∧ isValidDomain "example.com:8080" = false
  ∧ isValidDomain "-a.com" = false
  ∧ isValidDomain "a-.com" = false
  ∧ isValidDomain "exa_mple.com" = false
  ∧ isValidDomain "example.com." = false
  ∧ isValidDomain " example.com" = false
  ∧ isValidDomain "HTTP://example.com" = false.
Proof. vm_compute. repeat split; reflexivity. Qed.

End DomainFacts.


(** ** Counting in double precision *)

Module NumberFacts.

(** [m] followed by [n] zero bits. *)
Definition shl (m : positive) (n : nat) : positive := Nat.iter n xO m.

(** The number of bits of [m]. *)
Definition size (m : positive) : nat := Pos.to_nat (digits2_pos m).

Lemma shl_succ m n : shl m (S n) = xO (shl m n).
Proof. reflexivity. Qed.

Lemma shl_add m a b : shl (shl m a) b = shl m (a + b).
Proof.
  unfold shl. rewrite (Nat.add_comm a b). symmetry. apply Nat.iter_add.
Qed.

Lemma iter_xO m k : Pos.iter xO m k = shl m (Pos.to_nat k).
Proof. apply Pos2Nat.inj_iter. Qed.

Lemma size_shl m n : size (shl m n) = size m + n.
Proof.
  unfold size. induction n as [|n IH]; [simpl; lia|].
  rewrite shl_succ. cbn [digits2_pos]. rewrite Pos2Nat.inj_succ, IH. lia.
Qed.

Lemma size_pos m : 1 ≤ size m.
Proof. unfold size. lia. Qed.

Lemma digits_size m : Zpos (digits2_pos m) = Z.of_nat (size m).
Proof. unfold size. by rewrite positive_nat_Z. Qed.

Lemma digits2_pos_size m : digits2_pos m = Pos.size m.
Proof. induction m as [m IH|m IH|]; simpl; by rewrite ?IH. Qed.

Lemma size_bound m : (Zpos m < 2 ^ 53)%Z → size m ≤ 53.
Proof.
  intros Hm. pose proof (Pos.size_le m) as Hle.
  rewrite <- digits2_pos_size in Hle.
  assert (H : (2 ^ Zpos (digits2_pos m) < 2 ^ 54)%Z).
  { assert (Hz : (Zpos (2 ^ digits2_pos m) ≤ Zpos m~0)%Z) by exact Hle.
    rewrite Pos2Z.inj_pow, Pos2Z.inj_xO in Hz.
    change (2 ^ 54)%Z with (2 * 2 ^ 53)%Z. lia. }
  apply Z.pow_lt_mono_r_iff in H; [|lia|lia].
  rewrite digits_size in H. lia.
Qed.

Lemma shl_plus p q n : (shl p n + shl q n)%positive = shl (p + q) n.
Proof.
  induction n as [|n IH]; [done|]. rewrite !shl_succ.
  change (xO (shl p n + shl q n) = xO (shl (p + q) n)). by rewrite IH.
Qed.

(** *** Shifting to the right what was shifted to the left *)

Lemma iter_pos_nat {A} (f : A → A) (k : positive) :
  ∀ x, SpecFloat.iter_pos f k x = Nat.iter (Pos.to_nat k) f x.
Proof.
  induction k as [k IH|k IH|]; intros x; cbn [SpecFloat.iter_pos].
  - rewrite !IH, Pos2Nat.inj_xI.
    replace (S (2 * Pos.to_nat k))
      with (Pos.to_nat k + (Pos.to_nat k + 1)) by lia.
    by rewrite !Nat.iter_add.
  - rewrite !IH, Pos2Nat.inj_xO.
    replace (2 * Pos.to_nat k) with (Pos.to_nat k + Pos.to_nat k) by lia.
    by rewrite Nat.iter_add.
  - done.
Qed.

Lemma shr_shl (q : positive) (n : nat) :
  Nat.iter n shr_1 (Build_shr_record (Zpos (shl q n)) false false)
  = Build_shr_record (Zpos q) false false.
Proof.
  induction n as [|n IH]; [done|].
  rewrite Nat.iter_succ_r, shl_succ. exact IH.
Qed.

(** *** Rounding a number that needs none *)

Lemma round_canonical (s : bool) (m : positive) (e : Z) :
  size m = 53 → (-1074 ≤ e ≤ 971)%Z →
  binary_round_aux prec emax s (Zpos m) e loc_Exact = S754_finite s m e.
Proof.
  intros Hm He. unfold binary_round_aux, shr_fexp.
  assert (Hshift : (fexp prec emax (Zdigits2 (Zpos m) + e) - e = 0)%Z).
  { unfold fexp, SpecFloat.emin, prec, emax. cbn [Zdigits2].
    rewrite digits_size, Hm. lia. }
  rewrite Hshift. cbn [shr shr_record_of_loc shr_m loc_of_shr_record
    round_nearest_even]. rewrite Hshift. cbn [shr shr_record_of_loc shr_m].
  unfold prec, emax.
  destruct (Z.leb_spec e (1024 - 53)) as [_|H]; [done|lia].
Qed.

(** The number [q * 2^n * 2^-n] is [q], written with 53 bits. *)
Lemma round_shifted (q : positive) (n : nat) :
  size q ≤ 53 → n ≤ 1000 →
  binary_round prec emax false (shl q n) (- Z.of_nat n)
  = S754_finite false (shl q (53 - size q)) (Z.of_nat (size q) - 53).
Proof.
  intros Hq Hn. unfold binary_round.
  assert (Hexp : fexp prec emax (Zpos (digits2_pos (shl q n)) + - Z.of_nat n)
                 = (Z.of_nat (size q) - 53)%Z).
  { unfold fexp, SpecFloat.emin, prec, emax.
    rewrite digits_size, size_shl. pose proof (size_pos q). lia. }
  rewrite Hexp. unfold shl_align.
  pose proof (size_pos q) as Hpos.
  destruct (Z.of_nat (size q) - 53 - - Z.of_nat n)%Z as [|k|k] eqn:Ek.
  - (* written with 53 bits already *)
    assert (n = 53 - size q) as -> by lia.
    replace (- Z.of_nat (53 - size q))%Z with (Z.of_nat (size q) - 53)%Z by lia.
    apply round_canonical; [rewrite size_shl; lia|lia].
  - (* too many bits: the last ones are zero and are shifted out *)
    unfold binary_round_aux, shr_fexp.
    assert (Hshift : (fexp prec emax (Zdigits2 (Zpos (shl q n)) + - Z.of_nat n)
                      - - Z.of_nat n = Zpos k)%Z).
    { cbn [Zdigits2]. rewrite Hexp. exact Ek. }
    rewrite Hshift. cbn [shr shr_record_of_loc].
    rewrite iter_pos_nat.
    assert (Hsplit : shl q n = shl (shl q (53 - size q)) (Pos.to_nat k)).
    { rewrite shl_add. f_equal. lia. }
    rewrite Hsplit, shr_shl.
    cbn [shr_m loc_of_shr_record round_nearest_even].
    replace (- Z.of_nat n + Zpos k)%Z with (Z.of_nat (size q) - 53)%Z by lia.
    assert (H0 : (fexp prec emax
                    (Zdigits2 (Zpos (shl q (53 - size q)))
                     + (Z.of_nat (size q) - 53))
                  - (Z.of_nat (size q) - 53) = 0)%Z).
    { unfold fexp, SpecFloat.emin, prec, emax. cbn [Zdigits2].
      rewrite digits_size, size_shl. lia. }
    rewrite H0. cbn [shr shr_m]. unfold prec, emax.
    destruct (Z.leb_spec (Z.of_nat (size q) - 53) (1024 - 53)) as [_|H];
      [done|lia].
  - (* too few bits: zeros are appended *)
    cbn [fst snd]. rewrite iter_xO, shl_add.
    replace (n + Pos.to_nat k) with (53 - size q) by lia.
    apply round_canonical; [rewrite size_shl; lia|lia].
Qed.

(** *** Whole numbers up to 2^53 *)

Lemma ofZ_pos (q : positive) :
  size q ≤ 53 →
  ofZ (Zpos q)
  = S754_finite false (shl q (53 - size q)) (Z.of_nat (size q) - 53).
Proof. intros Hq. apply (round_shifted q 0 Hq). lia. Qed.

Lemma one_eq : Detector.one = S754_finite false (shl 1 52) (-52).
Proof. vm_compute. reflexivity. Qed.

Lemma add_one_small (q : positive) :
  (Zpos q + 1 < 2 ^ 53)%Z →
  add (ofZ (Zpos q)) Detector.one = ofZ (Zpos q + 1).
Proof.
  intros Hq.
  assert (Hs : size q ≤ 53) by (apply size_bound; lia).
  assert (Hs' : size (q + 1) ≤ 53) by (apply size_bound; lia).
  pose proof (size_pos q) as Hpos.
  rewrite (ofZ_pos q Hs), one_eq. unfold add, SFadd.
  replace (Z.min (Z.of_nat (size q) - 53) (-52))%Z with (-52)%Z by lia.
  assert (Hleft : fst (shl_align (shl q (53 - size q))
                         (Z.of_nat (size q) - 53) (-52))
                  = shl q 52).
  { unfold shl_align.
    destruct (-52 - (Z.of_nat (size q) - 53))%Z as [|k|k] eqn:Ek.
    - cbn [fst]. f_equal. lia.
    - lia.
    - cbn [fst]. rewrite iter_xO, shl_add. f_equal. lia. }
  rewrite Hleft.
  change (fst (shl_align (shl 1 52) (-52) (-52))) with (shl 1 52).
  cbn [cond_Zopp]. rewrite <- Pos2Z.inj_add, shl_plus.
  cbn [binary_normalize].
  assert (Hr := round_shifted (q + 1) 52 Hs' ltac:(lia)).
  change (- Z.of_nat 52)%Z with (-52)%Z in Hr. rewrite Hr.
  change (Zpos q + 1)%Z with (Zpos (q + 1)). by rewrite (ofZ_pos (q + 1) Hs').
Qed.

Lemma add_one (n : Z) :
  (0 ≤ n)%Z → (n + 1 ≤ 2 ^ 53)%Z → add (ofZ n) Detector.one = ofZ (n + 1).
Proof.
  intros H0 Hn. destruct n as [|q|q]; [done| |lia].
  destruct (Z.eq_dec (Zpos q + 1)%Z (2 ^ 53)%Z) as [E|E].
  - assert (q = 9007199254740991%positive) as -> by lia.
    vm_compute. reflexivity.
  - apply add_one_small. lia.
Qed.

(** Adding up [k] ones gives [k]. *)
Lemma sum_ones (k : nat) :
  ∀ j : nat, (Z.of_nat (j + k) ≤ 2 ^ 53)%Z →
  fold_left add (replicate k Detector.one) (ofZ (Z.of_nat j))
  = ofZ (Z.of_nat (j + k)).
Proof.
  induction k as [|k IH]; intros j Hj.
  - by rewrite Nat.add_0_r.
  - cbn [replicate fold_left]. rewrite add_one by lia.
    replace (Z.of_nat j + 1)%Z with (Z.of_nat (S j)) by lia.
    rewrite IH by lia. f_equal. lia.
Qed.

(** *** A number divided by itself *)

Lemma div_same (m : positive) (e : Z) :
  size m = 53 →
  div (S754_finite false m e) (S754_finite false m e) = Detector.one.
Proof.
  intros Hm. unfold div, SFdiv, SFdiv_core_binary. cbn [Zdigits2].
  rewrite digits_size, Hm.
  replace (Z.of_nat 53 + e - (Z.of_nat 53 + e))%Z with 0%Z by lia.
  rewrite Z.sub_diag.
  change (Z.min (fexp prec emax 0) 0) with (-53)%Z.
  change (0 - -53)%Z with 53%Z. cbv iota.
  assert (Hdiv : Z.div_eucl (Z.shiftl (Zpos m) 53) (Zpos m) = (2 ^ 53, 0)%Z).
  { rewrite Z.shiftl_mul_pow2 by lia.
    pose proof (Z.div_eucl_eq (Zpos m * 2 ^ 53) (Zpos m)) as Heq.
    pose proof (Z.mod_pos_bound (Zpos m * 2 ^ 53) (Zpos m)) as Hmod.
    unfold Z.modulo in Hmod.
    destruct (Z.div_eucl (Zpos m * 2 ^ 53) (Zpos m)) as [a b].
    assert (Hb : (0 ≤ b < Zpos m)%Z) by (apply Hmod; lia).
    assert (Hab : (Zpos m * 2 ^ 53 = Zpos m * a + b)%Z) by (apply Heq; lia).
    assert (a = 2 ^ 53)%Z by nia. subst a. f_equal. lia. }
  rewrite Hdiv.
  assert (Hloc : new_location (Zpos m) 0 = loc_Exact).
  { unfold new_location, new_location_even, new_location_odd.
    by destruct (Z.even (Zpos m)). }
  rewrite Hloc. vm_compute. reflexivity.
Qed.

Lemma div_self (n : Z) :
  (0 < n ≤ 2 ^ 53)%Z → div (ofZ n) (ofZ n) = Detector.one.
Proof.
  intros Hn. destruct n as [|q|q]; [lia| |lia].
  destruct (Z.eq_dec (Zpos q) (2 ^ 53)%Z) as [E|E].
  - assert (q = 9007199254740992%positive) as -> by lia.
    vm_compute. reflexivity.
  - assert (Hs : size q ≤ 53) by (apply size_bound; lia).
    rewrite (ofZ_pos q Hs). apply div_same.
    rewrite size_shl. pose proof (size_pos q). lia.
Qed.

(** The mean of [k] ones is one. *)
Lemma average_ones (k : nat) :
  1 ≤ k → (Z.of_nat k ≤ 2 ^ 53)%Z →
  Normalizer.average (replicate k Detector.one) = Detector.one.
Proof.
  intros Hk Hmax. unfold Normalizer.average.
  change (ofZ 0) with (ofZ (Z.of_nat 0)).
  rewrite (sum_ones k 0) by (simpl; lia). rewrite length_replicate.
  apply div_self. simpl. lia.
Qed.

(** *** A few ones more *)

(** Beyond 2^53 the sum of ones stays at 2^53. *)
Lemma sum_saturated (j : nat) :
  fold_left add (replicate j Detector.one) (ofZ (2 ^ 53)) = ofZ (2 ^ 53).
Proof.
  induction j as [|j IH]; [done|]. cbn [replicate fold_left].
  assert (H : add (ofZ (2 ^ 53)) Detector.one = ofZ (2 ^ 53))
    by (vm_compute; reflexivity).
  by rewrite H.
Qed.

Lemma sum_ones_above (k : nat) :
  (2 ^ 53 ≤ Z.of_nat k)%Z →
  fold_left add (replicate k Detector.one) (ofZ 0) = ofZ (2 ^ 53).
Proof.
  intros Hk.
  assert (Hsplit : k = Z.to_nat (2 ^ 53) + (k - Z.to_nat (2 ^ 53))) by lia.
  rewrite Hsplit, replicate_add, fold_left_app.
  change (ofZ 0) with (ofZ (Z.of_nat 0)).
  rewrite (sum_ones (Z.to_nat (2 ^ 53)) 0) by lia.
  replace (Z.of_nat (0 + Z.to_nat (2 ^ 53))) with (2 ^ 53)%Z by lia.
  apply sum_saturated.
Qed.

(** The mean of a few more than 2^53 ones is short of one by less than a
    hundredth, and is written as one. *)
Lemma mean_of_ones (k : nat) :
  1 ≤ k → (Z.of_nat k ≤ 2 ^ 53 + 12)%Z →
  Normalizer.toFixed2 (Normalizer.average (replicate k Detector.one))
  = Detector.one.
Proof.
  intros Hk Hmax.
  destruct (Z.le_gt_cases (Z.of_nat k) (2 ^ 53)) as [Hle|Hgt].
  - rewrite average_ones by done. vm_compute. reflexivity.
  - unfold Normalizer.average. rewrite sum_ones_above by lia.
    rewrite length_replicate.
    assert (Hj : ∃ j : Z, (1 ≤ j ≤ 12)%Z ∧ Z.of_nat k = (2 ^ 53 + j)%Z)
      by (exists (Z.of_nat k - 2 ^ 53)%Z; lia).
    destruct Hj as (j & Hj & ->).
    assert (Hcases : (j = 1 ∨ j = 2 ∨ j = 3 ∨ j = 4 ∨ j = 5 ∨ j = 6 ∨ j = 7
                      ∨ j = 8 ∨ j = 9 ∨ j = 10 ∨ j = 11 ∨ j = 12)%Z) by lia.
    repeat (destruct Hcases as [->|Hcases]; [vm_compute; reflexivity|]).
    subst j. vm_compute. reflexivity.
Qed.

End NumberFacts.


(** ** The confidence of the response *)

Module CertaintyFacts.

Import JsFacts.
Import Detector.
Import DetectorFacts.
Import RunFacts.
Import Normalizer.
Import NormalizerFacts.
Import ResultFacts.
Import NumberFacts.

Section Certain.

Context {R : Runtime}.

Implicit Types (ds : list Detection) (c : string).

Lemma firstByName_sub ds d : d ∈ firstByName ds → d ∈ ds.
Proof.
  revert d. induction ds as [|d0 ds IH]; intros d; simpl; [done|].
  intros [->|Hd]%elem_of_cons; [left|].
  apply list_elem_of_filter in Hd as [_ Hd]. right. by apply IH.
Qed.

Lemma firstByName_length ds : length (firstByName ds) ≤ length ds.
Proof.
  induction ds as [|d ds IH]; simpl; [done|].
  pose proof (length_filter (λ d', name d' ≠ name d) (firstByName ds)). lia.
Qed.

Lemma filedUnder_length c ds : length (filedUnder c ds) ≤ length ds.
Proof. apply length_filter. Qed.

Lemma toFixed2_one : toFixed2 one = one.
Proof. vm_compute. reflexivity. Qed.

(** When every detection has confidence 1, so has every category. *)
Lemma normalize_confidence_of_ones ds c (x : number) :
  (∀ d, d ∈ ds → Detector.confidence d = one) →
  (Z.of_nat (length ds) ≤ 2 ^ 53 + 12)%Z →
  get (confidence (normalize ds)) c = Some x → x = one.
Proof.
  intros Hones Hlen. rewrite normalize_confidence.
  destruct (collected_spec ds c) as [_ ->].
  destruct (filedUnder c ds) as [|d0 l] eqn:E; [done|].
  simpl. intros [= <-]. unfold scoresOf. rewrite E.
  pose proof (firstByName_length (d0 :: l)) as Hle.
  pose proof (filedUnder_length c ds) as Hle'. rewrite E in Hle'.
  assert (Hall : map Detector.confidence (firstByName (d0 :: l))
                 = replicate (length (firstByName (d0 :: l))) one).
  { symmetry. apply replicate_as_elem_of. split; [by rewrite length_map|].
    intros y (d & -> & Hd)%list_elem_of_fmap. apply Hones.
    apply firstByName_sub in Hd. rewrite <- E in Hd.
    by apply list_elem_of_filter in Hd as [_ ?]. }
  rewrite Hall. apply mean_of_ones; [simpl; lia|lia].
Qed.

Variable db : WappalyzerDatabase.

(** The detections are those of rules of the store and of the twelve members
    that it inherits. *)
Lemma detect_length (crawlResult : Crawler.CrawlResult) :
  length (detect db crawlResult) ≤ length (Detector.technologies db) + 12.
Proof.
  assert (Hsub : map name (detect db crawlResult)
                 ⊆+ (keys (Detector.technologies db)
                     ++ keys Object_prototype)%list).
  { apply NoDup_submseteq; [apply detect_names_NoDup|].
    intros n (det & -> & Hdet)%list_elem_of_fmap. apply elem_of_app.
    destruct (detect_created db crawlResult det Hdet)
      as (tech & [Hin|(_ & _ & Hproto & _)] & _).
    - left. unfold keys. apply list_elem_of_fmap. by exists (name det, tech).
    - right. destruct Hproto as [v Hv]. apply get_Some_elem in Hv.
      unfold keys. apply list_elem_of_fmap. by exists (name det, v). }
  apply submseteq_length in Hsub. rewrite length_app in Hsub.
  unfold keys in Hsub. rewrite !length_map in Hsub. exact Hsub.
Qed.

Variables (domain : string) (crawlResult : Crawler.CrawlResult).
Variables (firmographicsData : Enrichment.Firmographics).
Variables (startTime endTime now : number).

(** X23.  The confidence of every category of the response is 1, whatever the
    page: every detection is written with confidence 1, a sum of ones is
    exact as long as it stays below 2^53, and so is its quotient by their
    number. *)
Theorem enrich_confidence_is_one :
  (Z.of_nat (length (Detector.technologies db)) ≤ 2 ^ 53)%Z →
  Forall (λ e, e.2 = one)
    (Enrichment.confidence
       (Enrichment.enrich db domain crawlResult firmographicsData
          startTime endTime now)).
Proof.
  intros Hsize. unfold Enrichment.enrich. cbn [Enrichment.confidence].
  apply Forall_forall. intros [c x] Hin. simpl.
  apply (normalize_confidence_of_ones (detect db crawlResult) c).
  - intros d Hd.
    destruct (detect_created db crawlResult d Hd) as (tech & _ & _ & ->).
    done.
  - pose proof (detect_length crawlResult). lia.
  - apply elem_get_NoDup; [|done].
    rewrite normalize_keys_confidence, <- collected_keys.
    apply collected_keys_NoDup.
Qed.

End Certain.

Definition noFirmographics : Enrichment.Firmographics :=
  {| Enrichment.name := None; Enrichment.location := None;
     Enrichment.industry := None; Enrichment.description := None |}.

Lemma enrich_confidence_is_one_witness :
  Forall (λ e, e.2 = one)
    (Enrichment.confidence
       (Enrichment.enrich (R := Reference.runtime) nginxStore "example.com"
          nginxPage noFirmographics (ofZ 0) (ofZ 120) (ofZ 120))).
Proof.
  apply (enrich_confidence_is_one (R := Reference.runtime) nginxStore).
  vm_compute. discriminate.
Defined.

End CertaintyFacts.
